(** * Rapunzel native helper: a shallow embedding of [native-host.js]

    The helper speaks the native-messaging protocol on stdin/stdout:
    frames made of a 4-byte little-endian length and a UTF-8 JSON body.
    This development embeds its message framer, configuration store,
    extension scanner, load orchestrator, registry and dispatcher, and
    proves properties of them.

    Conventions.
    - A JavaScript string is represented by the bytes of its UTF-8
      encoding (a Rocq [string]); buffers are [list byte].
    - A JavaScript value that came out of [JSON.parse] is a [json]; a value
      that may also be [undefined] is a [jsval] ([None] is [undefined]).
      Numbers are modelled on their integer fragment (no floating point).
    - Everything the program asks of Node's library (file system, child
      processes, clock, path arithmetic, error texts) is a field of the
      class [Platform]; the model makes the same calls in the same order and
      assumes nothing about their answers. *)

From Stdlib Require Import ZArith NArith List String Ascii Bool Lia.
From Stdlib Require Import Strings.Byte Numbers.DecimalZ Numbers.DecimalPos Numbers.DecimalFacts.
Import ListNotations.

Local Open Scope Z_scope.

(* ================================================================== *)
(** * JSON values and the [JSON] built-in *)
(* ================================================================== *)

Module JSON.

Unset Elimination Schemes.
Inductive json : Type :=
| JNull
| JBool (b : bool)
| JNum (n : Z)
| JStr (s : string)
| JArr (items : list json)
| JObj (props : list (string * json)).
Set Elimination Schemes.

(** [undefined] or a JSON value. *)
Definition jsval : Type := option json.

Definition undefined : jsval := None.

(** Characters with a role in the JSON grammar. *)
Definition dquote : ascii := "034"%char.
Definition bslash : ascii := "092"%char.

(** ** [JSON.stringify] *)

Definition hex_char (n : N) : ascii :=
  if (n <? 10)%N then ascii_of_N (48 + n) else ascii_of_N (87 + n).

(** QuoteJSONString, one character at a time. *)
Definition quote_char (c : ascii) : list ascii :=
  let n := N_of_ascii c in
  if (n =? 34)%N then [bslash; dquote]
  else if (n =? 92)%N then [bslash; bslash]
  else if (n =? 8)%N then [bslash; "b"%char]
  else if (n =? 12)%N then [bslash; "f"%char]
  else if (n =? 10)%N then [bslash; "n"%char]
  else if (n =? 13)%N then [bslash; "r"%char]
  else if (n =? 9)%N then [bslash; "t"%char]
  else if (n <? 32)%N then
    [bslash; "u"%char; "0"%char; "0"%char; hex_char (n / 16); hex_char (n mod 16)]
  else [c].

Definition quote (s : string) : list ascii :=
  dquote :: flat_map quote_char (list_ascii_of_string s) ++ [dquote].

Definition digit_char (d : N) : ascii := ascii_of_N (48 + d).

Fixpoint uint_chars (u : Decimal.uint) : list ascii :=
  match u with
  | Decimal.Nil => []
  | Decimal.D0 u' => digit_char 0 :: uint_chars u'
  | Decimal.D1 u' => digit_char 1 :: uint_chars u'
  | Decimal.D2 u' => digit_char 2 :: uint_chars u'
  | Decimal.D3 u' => digit_char 3 :: uint_chars u'
  | Decimal.D4 u' => digit_char 4 :: uint_chars u'
  | Decimal.D5 u' => digit_char 5 :: uint_chars u'
  | Decimal.D6 u' => digit_char 6 :: uint_chars u'
  | Decimal.D7 u' => digit_char 7 :: uint_chars u'
  | Decimal.D8 u' => digit_char 8 :: uint_chars u'
  | Decimal.D9 u' => digit_char 9 :: uint_chars u'
  end.

(** Number::toString on integers. *)
Definition number_chars (n : Z) : list ascii :=
  match Z.to_int n with
  | Decimal.Pos u => uint_chars u
  | Decimal.Neg u => "-"%char :: uint_chars u
  end.

Fixpoint join (sep : list ascii) (parts : list (list ascii)) : list ascii :=
  match parts with
  | [] => []
  | [p] => p
  | p :: rest => p ++ sep ++ join sep rest
  end.

(** [gap] is the indentation unit ([[]] for the compact form), [ind] the
    current indentation. *)
Fixpoint serialize (gap ind : list ascii) (v : json) : list ascii :=
  let stepback := ind in
  let ind' := ind ++ gap in
  let wrap (opening closing : ascii) (parts : list (list ascii)) :=
    match parts with
    | [] => [opening; closing]
    | _ =>
      match gap with
      | [] => opening :: join [","%char] parts ++ [closing]
      | _ =>
        let nl := "010"%char in
        opening :: nl :: ind' ++ join (","%char :: nl :: ind') parts
                ++ nl :: stepback ++ [closing]
      end
    end in
  match v with
  | JNull => list_ascii_of_string "null"
  | JBool true => list_ascii_of_string "true"
  | JBool false => list_ascii_of_string "false"
  | JNum n => number_chars n
  | JStr s => quote s
  | JArr items => wrap "["%char "]"%char (map (serialize gap ind') items)
  | JObj props =>
    wrap "{"%char "}"%char
      (map (fun kv =>
              quote (fst kv) ++ ":"%char ::
              match gap with [] => [] | _ => [" "%char] end ++
              serialize gap ind' (snd kv))
           props)
  end.

(** [JSON.stringify(v)]. *)
Definition stringify (v : json) : string :=
  string_of_list_ascii (serialize [] [] v).

(** [JSON.stringify(v, null, n)]. *)
Definition stringify_indent (n : nat) (v : json) : string :=
  string_of_list_ascii (serialize (repeat " "%char n) [] v).

(** ** [JSON.parse] *)

Definition is_ws (c : ascii) : bool :=
  let n := N_of_ascii c in
  ((n =? 32) || (n =? 9) || (n =? 10) || (n =? 13))%N.

Fixpoint skip_ws (s : list ascii) : list ascii :=
  match s with
  | c :: r => if is_ws c then skip_ws r else s
  | [] => []
  end.

Fixpoint strip_prefix (p s : list ascii) : option (list ascii) :=
  match p, s with
  | [], _ => Some s
  | a :: p', b :: s' => if (a =? b)%char then strip_prefix p' s' else None
  | _ :: _, [] => None
  end.

Definition hex_value (c : ascii) : option N :=
  let n := N_of_ascii c in
  if ((48 <=? n) && (n <=? 57))%N then Some (n - 48)%N
  else if ((97 <=? n) && (n <=? 102))%N then Some (n - 87)%N
  else if ((65 <=? n) && (n <=? 70))%N then Some (n - 55)%N
  else None.

(** UTF-8 bytes of a code unit given by a [\uXXXX] escape (surrogate pairs
    are not combined). *)
Definition utf8_chars (cp : N) : list ascii :=
  if (cp <? 128)%N then [ascii_of_N cp]
  else if (cp <? 2048)%N then
    [ascii_of_N (192 + cp / 64); ascii_of_N (128 + cp mod 64)]
  else
    [ascii_of_N (224 + cp / 4096); ascii_of_N (128 + (cp / 64) mod 64);
     ascii_of_N (128 + cp mod 64)].

Definition unescape (c : ascii) : option ascii :=
  let n := N_of_ascii c in
  if (n =? 34)%N then Some dquote
  else if (n =? 92)%N then Some bslash
  else if (n =? 47)%N then Some "/"%char
  else if (n =? 98)%N then Some "008"%char
  else if (n =? 102)%N then Some "012"%char
  else if (n =? 110)%N then Some "010"%char
  else if (n =? 114)%N then Some "013"%char
  else if (n =? 116)%N then Some "009"%char
  else None.

(** The characters of a string literal after its opening quote, up to and
    including the closing quote. *)
Fixpoint parse_chars (s : list ascii) : option (list ascii * list ascii) :=
  match s with
  | [] => None
  | c :: r =>
    if (c =? dquote)%char then Some ([], r)
    else if (c =? bslash)%char then
      match r with
      | [] => None
      | e :: r1 =>
        if (e =? "u")%char then
          match r1 with
          | h1 :: h2 :: h3 :: h4 :: r2 =>
            match hex_value h1, hex_value h2, hex_value h3, hex_value h4 with
            | Some a, Some b, Some c', Some d =>
              match parse_chars r2 with
              | Some (cs, rest) =>
                Some (utf8_chars (a * 4096 + b * 256 + c' * 16 + d) ++ cs, rest)
              | None => None
              end
            | _, _, _, _ => None
            end
          | _ => None
          end
        else
          match unescape e with
          | Some ch =>
            match parse_chars r1 with
            | Some (cs, rest) => Some (ch :: cs, rest)
            | None => None
            end
          | None => None
          end
      end
    else if (N_of_ascii c <? 32)%N then None
    else
      match parse_chars r with
      | Some (cs, rest) => Some (c :: cs, rest)
      | None => None
      end
  end.

Definition parse_string (s : list ascii) : option (string * list ascii) :=
  match s with
  | c :: r =>
    if (c =? dquote)%char then
      match parse_chars r with
      | Some (cs, rest) => Some (string_of_list_ascii cs, rest)
      | None => None
      end
    else None
  | [] => None
  end.

Definition digit_cons (c : ascii) : option (Decimal.uint -> Decimal.uint) :=
  let n := N_of_ascii c in
  if (n =? 48)%N then Some Decimal.D0
  else if (n =? 49)%N then Some Decimal.D1
  else if (n =? 50)%N then Some Decimal.D2
  else if (n =? 51)%N then Some Decimal.D3
  else if (n =? 52)%N then Some Decimal.D4
  else if (n =? 53)%N then Some Decimal.D5
  else if (n =? 54)%N then Some Decimal.D6
  else if (n =? 55)%N then Some Decimal.D7
  else if (n =? 56)%N then Some Decimal.D8
  else if (n =? 57)%N then Some Decimal.D9
  else None.

(** The longest prefix of decimal digits. *)
Fixpoint read_uint (s : list ascii) : Decimal.uint * list ascii :=
  match s with
  | [] => (Decimal.Nil, [])
  | c :: r =>
    match digit_cons c with
    | Some d => let (u, rest) := read_uint r in (d u, rest)
    | None => (Decimal.Nil, s)
    end
  end.

Definition starts_fraction (s : list ascii) : bool :=
  match s with
  | c :: _ => ((c =? ".")%char || (c =? "e")%char || (c =? "E")%char)%bool
  | [] => false
  end.

(** An integer literal: an optional minus, then [0] or a digit string with
    no leading zero; a fraction or an exponent is outside the fragment. *)
Definition parse_number (s : list ascii) : option (json * list ascii) :=
  let (neg, s1) :=
    match s with
    | c :: r => if (c =? "-")%char then (true, r) else (false, s)
    | [] => (false, s)
    end in
  let (u, rest) := read_uint s1 in
  match u with
  | Decimal.Nil => None
  | Decimal.D0 (Decimal.D0 _ | Decimal.D1 _ | Decimal.D2 _ | Decimal.D3 _
               | Decimal.D4 _ | Decimal.D5 _ | Decimal.D6 _ | Decimal.D7 _
               | Decimal.D8 _ | Decimal.D9 _) => None
  | _ =>
    if starts_fraction rest then None
    else Some (JNum (Z.of_int (if neg then Decimal.Neg u else Decimal.Pos u)),
               rest)
  end.

Definition head_is (c : ascii) (s : list ascii) : bool :=
  match s with
  | c' :: _ => (c =? c')%char
  | [] => false
  end.

Fixpoint parse_value (fuel : nat) (s : list ascii) {struct fuel}
  : option (json * list ascii) :=
  match fuel with
  | O => None
  | S fuel' =>
    let s := skip_ws s in
    match s with
    | [] => None
    | c :: r =>
      if (c =? "n")%char then
        option_map (pair JNull) (strip_prefix (list_ascii_of_string "null") s)
      else if (c =? "t")%char then
        option_map (pair (JBool true))
                   (strip_prefix (list_ascii_of_string "true") s)
      else if (c =? "f")%char then
        option_map (pair (JBool false))
                   (strip_prefix (list_ascii_of_string "false") s)
      else if (c =? dquote)%char then
        match parse_string s with
        | Some (str, rest) => Some (JStr str, rest)
        | None => None
        end
      else if (c =? "[")%char then
        if head_is "]"%char (skip_ws r)
        then Some (JArr [], tl (skip_ws r))
        else
          match parse_elements fuel' r with
          | Some (vs, rest) => Some (JArr vs, rest)
          | None => None
          end
      else if (c =? "{")%char then
        if head_is "}"%char (skip_ws r)
        then Some (JObj [], tl (skip_ws r))
        else
          match parse_members fuel' r with
          | Some (ps, rest) => Some (JObj ps, rest)
          | None => None
          end
      else parse_number s
    end
  end

(** Elements after [[], up to and including the closing bracket. *)
with parse_elements (fuel : nat) (s : list ascii) {struct fuel}
  : option (list json * list ascii) :=
  match fuel with
  | O => None
  | S fuel' =>
    match parse_value fuel' s with
    | Some (v, r) =>
      match skip_ws r with
      | c :: r' =>
        if (c =? ",")%char then
          match parse_elements fuel' r' with
          | Some (vs, rest) => Some (v :: vs, rest)
          | None => None
          end
        else if (c =? "]")%char then Some ([v], r')
        else None
      | [] => None
      end
    | None => None
    end
  end

(** Members after [{], up to and including the closing brace. *)
with parse_members (fuel : nat) (s : list ascii) {struct fuel}
  : option (list (string * json) * list ascii) :=
  match fuel with
  | O => None
  | S fuel' =>
    match parse_string (skip_ws s) with
    | Some (k, r) =>
      match skip_ws r with
      | c :: r1 =>
        if (c =? ":")%char then
          match parse_value fuel' r1 with
          | Some (v, r2) =>
            match skip_ws r2 with
            | c' :: r3 =>
              if (c' =? ",")%char then
                match parse_members fuel' r3 with
                | Some (ps, rest) => Some ((k, v) :: ps, rest)
                | None => None
                end
              else if (c' =? "}")%char then Some ([(k, v)], r3)
              else None
            | [] => None
            end
          | None => None
          end
        else None
      | [] => None
      end
    | None => None
    end
  end.

(** [JSON.parse(text)]; [None] stands for the thrown [SyntaxError]. *)
Definition parse (text : string) : option json :=
  let s := list_ascii_of_string text in
  match parse_value (S (List.length s)) s with
  | Some (v, rest) =>
    match skip_ws rest with
    | [] => Some v
    | _ :: _ => None
    end
  | None => None
  end.

End JSON.

Import JSON.

(** ** Language-level operations on values *)

(** ToBoolean. *)
Definition truthy (v : jsval) : bool :=
  match v with
  | None => false
  | Some JNull => false
  | Some (JBool b) => b
  | Some (JNum n) => negb (n =? 0)
  | Some (JStr s) => negb (String.eqb s EmptyString)
  | Some (JArr _) => true
  | Some (JObj _) => true
  end.

(** [a || b]. *)
Definition js_or (a b : jsval) : jsval := if truthy a then a else b.

(** Own properties of an object held in memory, in creation order; a
    property may hold [undefined].  (The engine lists integer-like keys
    first; no property of this program depends on that.) *)
Definition object : Type := list (string * jsval).

Fixpoint obj_get (k : string) (o : object) : jsval :=
  match o with
  | [] => undefined
  | (k', v) :: o' => if String.eqb k k' then v else obj_get k o'
  end.

(** [o.k = v]: an existing property keeps its place. *)
Fixpoint obj_set (k : string) (v : jsval) (o : object) : object :=
  match o with
  | [] => [(k, v)]
  | (k', v') :: o' =>
    if String.eqb k k' then (k, v) :: o' else (k', v') :: obj_set k v o'
  end.

(** The object literal [{k1: v1, ..., kn: vn}], also with spread operands
    flattened into it: properties are defined from left to right. *)
Definition obj_literal (props : list (string * jsval)) : object :=
  fold_left (fun o kv => obj_set (fst kv) (snd kv) o) props [].

Definition index_props (vs : list json) : list (string * jsval) :=
  map (fun iv => (string_of_list_ascii (number_chars (Z.of_nat (fst iv))),
                  Some (snd iv)))
      (combine (seq 0 (List.length vs)) vs).

(** The own enumerable properties that [...v] contributes to an object
    literal. *)
Definition spread_props (v : jsval) : list (string * jsval) :=
  match v with
  | Some (JObj props) => map (fun kv => (fst kv, Some (snd kv))) props
  | Some (JArr items) => index_props items
  | Some (JStr s) =>
    index_props (map (fun c => JStr (String c EmptyString))
                     (list_ascii_of_string s))
  | _ => []
  end.

(** What [JSON.stringify] sees of an in-memory object: properties holding
    [undefined] are left out. *)
Fixpoint to_json_props (o : object) : list (string * json) :=
  match o with
  | [] => []
  | (k, Some v) :: o' => (k, v) :: to_json_props o'
  | (_, None) :: o' => to_json_props o'
  end.

Definition to_json (o : object) : json := JObj (to_json_props o).

(** [v.k] for the property names this program reads ([action], [path],
    [name], [version], [description], [manifest_version]): none of them is
    defined on a built-in prototype, on an array or on a string, so only an
    object can hold one.  A parsed object keeps the last of duplicated
    members.  [None] is the [TypeError] of reading a property of [null]. *)
Definition get_prop (v : json) (k : string) : option jsval :=
  match v with
  | JNull => None
  | JObj props =>
    Some (obj_get k (obj_literal (map (fun kv => (fst kv, Some (snd kv))) props)))
  | _ => Some undefined
  end.

Definition has_own (k : string) (props : list (string * json)) : bool :=
  existsb (fun kv => String.eqb k (fst kv)) props.

(** ToString, as a template literal applies it; [None] is the [TypeError]
    of an object that cannot be converted to a primitive (an own
    [toString] member parsed from JSON is not callable, and [valueOf]
    does not help). *)
Fixpoint to_chars (v : json) : option (list ascii) :=
  match v with
  | JNull => Some (list_ascii_of_string "null")
  | JBool true => Some (list_ascii_of_string "true")
  | JBool false => Some (list_ascii_of_string "false")
  | JNum n => Some (number_chars n)
  | JStr s => Some (list_ascii_of_string s)
  | JArr items =>
    (fix elems (l : list json) : option (list ascii) :=
       match l with
       | [] => Some []
       | x :: l' =>
         match (match x with JNull => Some [] | _ => to_chars x end) with
         | None => None
         | Some cx =>
           match l' with
           | [] => Some cx
           | _ :: _ =>
             match elems l' with
             | Some cl => Some (cx ++ ","%char :: cl)
             | None => None
             end
           end
         end
       end) items
  | JObj props =>
    if has_own "toString" props then None
    else Some (list_ascii_of_string "[object Object]")
  end.

Definition js_toString (v : jsval) : option string :=
  match v with
  | None => Some "undefined"%string
  | Some j => option_map string_of_list_ascii (to_chars j)
  end.

(** [String.prototype.trim] on the ASCII white space, and
    [s.split('\n')[0]]. *)
Definition is_trim_ws (c : ascii) : bool :=
  let n := N_of_ascii c in
  (((9 <=? n) && (n <=? 13)) || (n =? 32))%N.

Fixpoint trim_start (s : list ascii) : list ascii :=
  match s with
  | c :: r => if is_trim_ws c then trim_start r else s
  | [] => []
  end.

Definition trim (s : string) : string :=
  string_of_list_ascii
    (rev (trim_start (rev (trim_start (list_ascii_of_string s))))).

Fixpoint first_line_chars (s : list ascii) : list ascii :=
  match s with
  | c :: r => if (c =? "010")%char then [] else c :: first_line_chars r
  | [] => []
  end.

Definition first_line (s : string) : string :=
  string_of_list_ascii (first_line_chars (list_ascii_of_string s)).

(* ================================================================== *)
(** * Buffers and the message framer *)
(* ================================================================== *)

Module Framer.

Definition byte_of_Z (z : Z) : byte :=
  byte_of_ascii (ascii_of_N (Z.to_N (z mod 256))).

Definition Z_of_byte (b : byte) : Z := Z.of_N (Byte.to_N b).

(** [Buffer.from(str, 'utf8')] and [buf.toString('utf8')]. *)
Definition Buffer_from (s : string) : list byte := list_byte_of_string s.
Definition Buffer_toString (b : list byte) : string := string_of_list_byte b.

Definition Buffer_length (b : list byte) : Z := Z.of_nat (List.length b).

(** [buf.writeUInt32LE(v, 0)] on a fresh 4-byte buffer.  The engine
    refuses a value outside [0, 2^32); the lengths written here are
    lengths of strings, which it keeps far below that. *)
Definition writeUInt32LE (v : Z) : list byte :=
  [byte_of_Z v; byte_of_Z (Z.shiftr v 8); byte_of_Z (Z.shiftr v 16);
   byte_of_Z (Z.shiftr v 24)].

(** [buf.readUInt32LE(0)] on a 4-byte buffer. *)
Definition readUInt32LE (b : list byte) : Z :=
  match b with
  | [b0; b1; b2; b3] =>
    Z.lor (Z_of_byte b0)
          (Z.lor (Z.shiftl (Z_of_byte b1) 8)
                 (Z.lor (Z.shiftl (Z_of_byte b2) 16)
                        (Z.shiftl (Z_of_byte b3) 24)))
  | _ => 0
  end.

(** The bytes [sendMessage] writes for [message]: the length buffer, then
    the message buffer. *)
Definition frame (message : json) : list byte :=
  let messageStr := JSON.stringify message in
  let messageBuffer := Buffer_from messageStr in
  let lengthBuffer := writeUInt32LE (Buffer_length messageBuffer) in
  lengthBuffer ++ messageBuffer.

(** How the promise of [readMessage] settles. *)
Inductive settled : Type :=
| Resolved (message : json)
| Rejected (body : string).

(** [readMessage] against the bytes that stdin delivers before it ends:
    the result and the bytes not consumed.  [Rejected body] stands for the
    rejection with ['Invalid JSON: ' + e.message], [body] being the text
    that failed to parse.  When the four length bytes never arrive, when
    the length is outside the accepted range, or when the body never
    arrives in full, the listener settles nothing and it is the ['end']
    event that resolves the promise with [null].  This is the listener
    of a call on a stream on which no listener of an earlier call is
    left; [readMessage_on] below is the call in general. *)
Definition readMessage (input : list byte) : settled * list byte :=
  let lengthBuffer := firstn 4 input in
  let bytesRead := List.length lengthBuffer in
  if Nat.eqb bytesRead 4 then
    let messageLength := readUInt32LE lengthBuffer in
    if (0 <? messageLength) && (messageLength <? 1024 * 1024) then
      let available := skipn 4 input in
      let messageBuffer := firstn (Z.to_nat messageLength) available in
      if Buffer_length messageBuffer =? messageLength then
        let rest := skipn (Z.to_nat messageLength) available in
        match JSON.parse (Buffer_toString messageBuffer) with
        | Some message => (Resolved message, rest)
        | None => (Rejected (Buffer_toString messageBuffer), rest)
        end
      else (Resolved JNull, [])
    else (Resolved JNull, [])
  else (Resolved JNull, []).

(** What stdin is to a call of [readMessage].  [onReadable] is taken off
    stdin only where a body parses, so the listener of a call that was
    rejected stays on it, with [bytesRead] at 4 and with the length it
    has read in [lengthBuffer].  As long as a ['readable'] listener is on
    stdin, adding another one emits nothing: the listeners run, in the
    order in which they were added, when stdin next emits ['readable'] of
    its own.  The input is taken to be in the buffer of stdin when the
    helper starts to read, and stdin to see the end of the stream once the
    helper waits for an event; so the next ['readable'] after a rejection
    is the one of the end of the stream, and none comes after that one. *)
Inductive Stdin : Type :=
| Listening (ended : bool)
  (** no listener of an earlier call is left; [ended]: stdin has seen
      the end of the stream *)
| LeftBehind (messageLength : Z)
  (** the listener of a rejected call is left on stdin, which has not
      seen the end of the stream *)
| Silent.
  (** a listener is left on stdin, which has seen the end of the stream
      and emits ['readable'] no more *)

(** The listener left behind, run on the ['readable'] of the end of the
    stream: [read(messageLength)] then answers the bytes asked for or, if
    fewer are left, all of them ([null] if none).  If it got
    [messageLength] bytes and they parse as JSON, the listener removes
    itself; [resolve] and [reject] do nothing to a promise that is
    settled.  The answer is whether the listener stays, and what it leaves
    of the stream. *)
Definition listener_left_behind (messageLength : Z) (input : list byte)
  : bool * list byte :=
  if (0 <? messageLength) && (messageLength <? 1024 * 1024) then
    let messageBuffer := firstn (Z.to_nat messageLength) input in
    let rest := skipn (Z.to_nat messageLength) input in
    if Buffer_length messageBuffer =? messageLength then
      match JSON.parse (Buffer_toString messageBuffer) with
      | Some _ => (false, rest)
      | None => (true, rest)
      end
    else (true, rest)
  else (true, input).

(** A call of [readMessage] on [stdin], which holds the bytes [input]:
    how the promise settles, what stdin is to the next call, and the
    bytes not consumed.  With no listener left, adding the new one makes
    stdin emit ['readable'], and the call is [readMessage] above; if it
    rejects, its listener is left.  With a listener left, the new one
    runs behind it at the end of the stream.  On a silent stdin no
    listener ever runs and nothing settles the promise: [Resolved JNull]
    stands for that as well, since either way the loop handles no further
    message. *)
Definition readMessage_on (stdin : Stdin) (input : list byte)
  : settled * Stdin * list byte :=
  match stdin with
  | Listening ended =>
    match readMessage input with
    | (Rejected body, rest) =>
      (Rejected body,
       if ended then Silent else LeftBehind (readUInt32LE (firstn 4 input)),
       rest)
    | (result, rest) => (result, Listening ended, rest)
    end
  | LeftBehind messageLength =>
    let (stays, input') := listener_left_behind messageLength input in
    match readMessage input' with
    | (Rejected body, rest) => (Rejected body, Silent, rest)
    | (result, rest) => (result, if stays then Silent else Listening true, rest)
    end
  | Silent => (Resolved JNull, Silent, [])
  end.

End Framer.

Import Framer.

(* ================================================================== *)
(** * The platform *)
(* ================================================================== *)

Inductive os_kind : Type := win32 | darwin | other_os.

(** [fs.Dirent], as [readdirSync(_, {withFileTypes: true})] returns it. *)
Record Dirent : Type := { d_name : string; d_isDirectory : bool }.

(** Node's library as this program uses it.  [World] is everything outside
    the process (file system, process table, clock); a call that only
    inspects it returns no new world.  A call that can throw answers with
    [inr message] or [Some message], the text of the thrown error. *)
Class Platform : Type := {
  World : Type;
  Proc : Type;
  os_platform : os_kind;
  os_homedir : string;
  os_tmpdir : string;
  env_APPDATA : jsval;
  path_join : list string -> string;
  path_dirname : string -> string;
  path_basename : string -> string;
  fs_existsSync : World -> jsval -> bool;
  fs_mkdirSync : World -> string -> World * option string;
  fs_readdirSync : World -> jsval -> list Dirent + string;
  fs_readFileSync : World -> string -> string + string;
  fs_writeFileSync : World -> string -> string -> World * option string;
  fs_copyFileSync : World -> string -> string -> World * option string;
  child_execSync : World -> string -> World * (string + string);
  child_spawn : World -> string -> list jsval -> World * (Proc + string);
  proc_unref : World -> Proc -> World;
  proc_kill : World -> Proc -> World * option string;
  Date_now : World -> Z;
  (** how deep [copyDirSync] can recurse before the call stack is full *)
  stack_depth : nat;
  msg_syntax_error : string -> string;
  msg_null_property : string -> string;
  msg_not_a_string : jsval -> string;
  msg_not_primitive : string;
  msg_stack_overflow : string;
}.

(* ================================================================== *)
(** * The helper process *)
(* ================================================================== *)

Section Host.

Context {P : Platform}.

(** ** The [Map] built-in *)

(** A key of [loadedExtensions].  [Map] compares keys with SameValueZero:
    primitives by value, objects and arrays by identity.  The only objects
    that reach the map are the [path] members of parsed messages; [k_id]
    is the serial number of the message, which identifies them. *)
Record MapKey : Type := { k_val : jsval; k_id : nat }.

Definition is_ref (v : jsval) : bool :=
  match v with
  | Some (JArr _) | Some (JObj _) => true
  | _ => false
  end.

Definition prim_eqb (a b : jsval) : bool :=
  match a, b with
  | None, None => true
  | Some JNull, Some JNull => true
  | Some (JBool x), Some (JBool y) => Bool.eqb x y
  | Some (JNum x), Some (JNum y) => x =? y
  | Some (JStr x), Some (JStr y) => String.eqb x y
  | _, _ => false
  end.

Definition sameValueZero (a b : MapKey) : bool :=
  if is_ref (k_val a)
  then is_ref (k_val b) && Nat.eqb (k_id a) (k_id b)
  else prim_eqb (k_val a) (k_val b).

(** The key made of a string. *)
Definition str_key (s : string) : MapKey := {| k_val := Some (JStr s); k_id := 0 |}.

(** The value stored for a loaded extension: [{ process, method }]. *)
Record Loaded : Type := { process : Proc; method : string }.

(** The entries in insertion order. *)
Definition ExtMap : Type := list (MapKey * Loaded).

Fixpoint Map_get (k : MapKey) (m : ExtMap) : option Loaded :=
  match m with
  | [] => None
  | (k', v) :: m' => if sameValueZero k k' then Some v else Map_get k m'
  end.

Definition Map_has (k : MapKey) (m : ExtMap) : bool :=
  match Map_get k m with Some _ => true | None => false end.

(** [m.set(k, v)]: an existing key keeps its place, a new one goes last. *)
Fixpoint Map_set (k : MapKey) (v : Loaded) (m : ExtMap) : ExtMap :=
  match m with
  | [] => [(k, v)]
  | (k', v') :: m' =>
    if sameValueZero k k' then (k', v) :: m' else (k', v') :: Map_set k v m'
  end.

Definition Map_delete (k : MapKey) (m : ExtMap) : ExtMap :=
  filter (fun e => negb (sameValueZero k (fst e))) m.

Definition Map_size (m : ExtMap) : Z := Z.of_nat (List.length m).

(** Keys are pairwise different, as in every map built by [Map_set]. *)
Fixpoint Map_wf (m : ExtMap) : Prop :=
  match m with
  | [] => True
  | (k, _) :: m' => Map_get k m' = None /\ Map_wf m'
  end.

(** ** State and effects *)

(** A call by which the helper changes a file: [fs.writeFileSync(file,
    data)] or [fs.copyFileSync(src, dest)]. *)
Inductive FileChange : Type :=
| Written (file data : string)
| Copied (src dest : string).

Definition changed_file (c : FileChange) : string :=
  match c with
  | Written file _ => file
  | Copied _ dest => dest
  end.

(** The module-level variables [config] and [loadedExtensions], the world
    outside, what has been written to stdout and to stderr, and the calls
    of [fs.writeFileSync] and [fs.copyFileSync] that the helper has made,
    oldest first. *)
Record HostState : Type := {
  config : object;
  loadedExtensions : ExtMap;
  world : World;
  stdout : list byte;
  stderr : list string;
  file_changes : list FileChange;
}.

Definition set_config (c : object) (st : HostState) : HostState :=
  {| config := c; loadedExtensions := loadedExtensions st; world := world st;
     stdout := stdout st; stderr := stderr st; file_changes := file_changes st |}.

Definition set_loadedExtensions (m : ExtMap) (st : HostState) : HostState :=
  {| config := config st; loadedExtensions := m; world := world st;
     stdout := stdout st; stderr := stderr st; file_changes := file_changes st |}.

Definition set_world (w : World) (st : HostState) : HostState :=
  {| config := config st; loadedExtensions := loadedExtensions st; world := w;
     stdout := stdout st; stderr := stderr st; file_changes := file_changes st |}.

Definition set_stdout (o : list byte) (st : HostState) : HostState :=
  {| config := config st; loadedExtensions := loadedExtensions st; world := world st;
     stdout := o; stderr := stderr st; file_changes := file_changes st |}.

Definition set_stderr (e : list string) (st : HostState) : HostState :=
  {| config := config st; loadedExtensions := loadedExtensions st; world := world st;
     stdout := stdout st; stderr := e; file_changes := file_changes st |}.

Definition set_file_changes (l : list FileChange) (st : HostState) : HostState :=
  {| config := config st; loadedExtensions := loadedExtensions st; world := world st;
     stdout := stdout st; stderr := stderr st; file_changes := l |}.

(** A computation returns a value or throws an error, of which the program
    only ever reads the [message]; either way it leaves a state. *)
Definition M (A : Type) : Type := HostState -> (A + string) * HostState.

Definition ret {A} (a : A) : M A := fun st => (inl a, st).

Definition throw {A} (message : string) : M A := fun st => (inr message, st).

Definition bind {A B} (m : M A) (k : A -> M B) : M B :=
  fun st =>
    match m st with
    | (inl a, st') => k a st'
    | (inr e, st') => (inr e, st')
    end.

(** [try { m } catch (error) { h error.message }]. *)
Definition try_catch {A} (m : M A) (h : string -> M A) : M A :=
  fun st =>
    match m st with
    | (inl a, st') => (inl a, st')
    | (inr e, st') => h e st'
    end.

Definition get_state : M HostState := fun st => (inl st, st).

Definition modify (f : HostState -> HostState) : M unit :=
  fun st => (inl tt, f st).

End Host.

Declare Scope host_scope.
Delimit Scope host_scope with host.
Notation "x <- m ;; k" := (bind m (fun x => k))
  (at level 61, m at next level, right associativity) : host_scope.
Notation "m ;; k" := (bind m (fun _ => k))
  (at level 61, right associativity) : host_scope.

Section HostCode.

Context {P : Platform}.

Local Open Scope host_scope.
Local Open Scope string_scope.

(** A [for ... of] loop over an array, with the local variable the body
    updates.  A body that throws ends the loop; the variable keeps what it
    held, and the error is handed to the enclosing [try]. *)
Fixpoint for_of {A S : Type} (l : list A) (body : A -> S -> M S) (s : S)
  : M (S * option string) :=
  match l with
  | [] => ret (s, None)
  | a :: l' =>
    fun st =>
      match body a s st with
      | (inl s', st') => for_of l' body s' st'
      | (inr e, st') => (inl (s, Some e), st')
      end
  end.

(** Leave a loop's local variable and rethrow what ended the loop. *)
Definition rethrow {S : Type} (r : S * option string) : M S :=
  match snd r with
  | None => ret (fst r)
  | Some e => throw e
  end.

(** *** Calls into the platform *)

Definition existsSync (p : jsval) : M bool :=
  fun st => (inl (fs_existsSync (world st) p), st).

Definition may_throw (f : World -> World * option string) : M unit :=
  fun st =>
    match f (world st) with
    | (w, None) => (inl tt, set_world w st)
    | (w, Some e) => (inr e, set_world w st)
    end.

Definition returns {A : Type} (f : World -> World * (A + string)) : M A :=
  fun st => let (w, r) := f (world st) in (r, set_world w st).

Definition mkdirSync (p : string) : M unit :=
  may_throw (fun w => fs_mkdirSync w p).
Definition readdirSync (p : jsval) : M (list Dirent) :=
  fun st => (fs_readdirSync (world st) p, st).
Definition readFileSync (p : string) : M string :=
  fun st => (fs_readFileSync (world st) p, st).
Definition changes_file (c : FileChange) : M unit :=
  modify (fun st => set_file_changes (file_changes st ++ [c]) st).
Definition writeFileSync (p data : string) : M unit :=
  changes_file (Written p data) ;;
  may_throw (fun w => fs_writeFileSync w p data).
Definition copyFileSync (src dest : string) : M unit :=
  changes_file (Copied src dest) ;;
  may_throw (fun w => fs_copyFileSync w src dest).
Definition execSync (cmd : string) : M string :=
  returns (fun w => child_execSync w cmd).
Definition spawn (file : string) (args : list jsval) : M Proc :=
  returns (fun w => child_spawn w file args).
Definition unref (proc : Proc) : M unit :=
  modify (fun st => set_world (proc_unref (world st) proc) st).
Definition kill (proc : Proc) : M unit :=
  may_throw (fun w => proc_kill w proc).

(** [path.join] insists on strings. *)
Fixpoint all_strings (args : list jsval) : list string + jsval :=
  match args with
  | [] => inl []
  | Some (JStr s) :: args' =>
    match all_strings args' with
    | inl ss => inl (s :: ss)
    | inr bad => inr bad
    end
  | bad :: _ => inr bad
  end.

Definition js_path_join (args : list jsval) : M string :=
  match all_strings args with
  | inl ss => ret (path_join ss)
  | inr bad => throw (msg_not_a_string bad)
  end.

Definition JSON_parse (text : string) : M json :=
  match JSON.parse text with
  | Some v => ret v
  | None => throw (msg_syntax_error text)
  end.

(** [v.k], throwing on [null]. *)
Definition prop (v : json) (k : string) : M jsval :=
  match get_prop v k with
  | Some x => ret x
  | None => throw (msg_null_property k)
  end.

Definition str (s : string) : jsval := Some (JStr s).

(** *** Configuration *)

Definition CONFIG_FILE : string :=
  path_join [os_homedir; ".rapunzel"; "config.json"].
Definition VERSION : string := "1.0.0".

Definition default_config : object :=
  obj_literal [("extensionFolder", str EmptyString);
               ("firefoxPath", str EmptyString);
               ("watchEnabled", Some (JBool false))].

Definition initial_state (w : World) : HostState :=
  {| config := default_config; loadedExtensions := []; world := w;
     stdout := []; stderr := []; file_changes := [] |}.

(** [console.error('[Rapunzel Helper]', ...args)]: a line on stderr (how
    the console prints an error object is not modelled beyond its
    message). *)
Definition logError (label detail : string) : M unit :=
  modify (fun st =>
            set_stderr (stderr st ++ ["[Rapunzel Helper] " ++ label ++ " " ++ detail]) st).

Definition sendMessage (message : object) : M unit :=
  let messageStr := JSON.stringify (to_json message) in
  let messageBuffer := Buffer_from messageStr in
  let lengthBuffer := writeUInt32LE (Buffer_length messageBuffer) in
  modify (fun st => set_stdout (stdout st ++ lengthBuffer) st) ;;
  modify (fun st => set_stdout (stdout st ++ messageBuffer) st).

Definition ensure_config_dir : M unit :=
  let configDir := path_dirname CONFIG_FILE in
  present <- existsSync (str configDir) ;;
  if negb present then mkdirSync configDir else ret tt.

Definition loadConfig : M unit :=
  try_catch
    (ensure_config_dir ;;
     present <- existsSync (str CONFIG_FILE) ;;
     if present then
       data <- readFileSync CONFIG_FILE ;;
       parsed <- JSON_parse data ;;
       modify (fun st =>
                 set_config (obj_literal (config st ++ spread_props (Some parsed))) st)
     else ret tt)
    (fun error => logError "Failed to load config:" error).

Definition saveConfig : M unit :=
  try_catch
    (ensure_config_dir ;;
     st <- get_state ;;
     let data := JSON.stringify_indent 2 (to_json (config st)) in
     writeFileSync CONFIG_FILE data)
    (fun error => logError "Failed to save config:" error).

Definition possiblePaths : list string :=
  match os_platform with
  | win32 =>
    ["C:\Program Files\Mozilla Firefox\firefox.exe";
     "C:\Program Files (x86)\Mozilla Firefox\firefox.exe";
     path_join [os_homedir; "AppData"; "Local"; "Mozilla Firefox"; "firefox.exe"]]
  | darwin =>
    ["/Applications/Firefox.app/Contents/MacOS/firefox";
     "/Applications/Firefox Developer Edition.app/Contents/MacOS/firefox";
     "/Applications/Firefox Nightly.app/Contents/MacOS/firefox"]
  | other_os =>
    ["/usr/bin/firefox"; "/usr/local/bin/firefox"; "/snap/bin/firefox";
     "/usr/bin/firefox-developer-edition"]
  end.

(** The configured path if it is set and exists, else the first candidate
    that exists, else [null]. *)
Definition getFirefoxPath : M jsval :=
  st <- get_state ;;
  let configured := obj_get "firefoxPath" (config st) in
  if truthy configured && fs_existsSync (world st) configured then ret configured
  else
    ret (match find (fun p => fs_existsSync (world st) (str p)) possiblePaths with
         | Some p => str p
         | None => Some JNull
         end).

(** *** Extension scanner *)

(** The body of the loop of [scanExtensionsFolder]; [extensions] is the
    array being filled. *)
Definition scan_item (folder : jsval) (item : Dirent) (extensions : list json)
  : M (list json) :=
  if d_isDirectory item then
    extPath <- js_path_join [folder; str (d_name item)] ;;
    let manifestPath := path_join [extPath; "manifest.json"] in
    present <- existsSync (str manifestPath) ;;
    if present then
      try_catch
        (text <- readFileSync manifestPath ;;
         manifest <- JSON_parse text ;;
         name <- prop manifest "name" ;;
         version <- prop manifest "version" ;;
         description <- prop manifest "description" ;;
         manifest_version <- prop manifest "manifest_version" ;;
         ret (extensions ++
              [to_json (obj_literal
                 [("name", js_or name (str (d_name item)));
                  ("version", js_or version (str "0.0.0"));
                  ("description", js_or description (str EmptyString));
                  ("path", str extPath);
                  ("folder", str (d_name item));
                  ("manifestVersion", js_or manifest_version (Some (JNum 2)))])])%list)
        (fun e =>
           (* Invalid manifest, skip *)
           logError ("Invalid manifest in " ++ extPath ++ ":") e ;;
           ret extensions)
    else ret extensions
  else ret extensions.

Definition scanExtensionsFolder : M (list json) :=
  st <- get_state ;;
  let folder := obj_get "extensionFolder" (config st) in
  if negb (truthy folder) || negb (fs_existsSync (world st) folder) then ret []
  else
    try_catch
      (items <- readdirSync folder ;;
       r <- for_of items (scan_item folder) [] ;;
       match snd r with
       | Some error => logError "Failed to scan folder:" error ;; ret (fst r)
       | None => ret (fst r)
       end)
      (fun error => logError "Failed to scan folder:" error ;; ret []).

(** *** Load orchestrator *)

Definition findWebExt : M jsval :=
  let cmd := match os_platform with win32 => "where" | _ => "which" end in
  try_catch
    (result <- execSync (cmd ++ " web-ext") ;;
     ret (str (first_line (trim result))))
    (fun _ =>
       (* Try npm global path *)
       let appdata := js_or env_APPDATA (str EmptyString) in
       npmGlobal <- match os_platform with
                    | win32 => js_path_join [appdata; str "npm"; str "web-ext.cmd"]
                    | _ => ret "/usr/local/bin/web-ext"
                    end ;;
       present <- existsSync (str npmGlobal) ;;
       if present then ret (str npmGlobal) else ret (Some JNull)).

Definition copy_entry (copyDir : jsval -> string -> M unit)
           (src : jsval) (dest : string) (entry : Dirent) (_ : unit) : M unit :=
  srcPath <- js_path_join [src; str (d_name entry)] ;;
  let destPath := path_join [dest; d_name entry] in
  if d_isDirectory entry then copyDir (str srcPath) destPath
  else copyFileSync srcPath destPath.

(** [depth] is how many nested calls the stack still takes. *)
Fixpoint copyDirSync (depth : nat) (src : jsval) (dest : string) : M unit :=
  match depth with
  | O => throw msg_stack_overflow
  | S depth' =>
    mkdirSync dest ;;
    entries <- readdirSync src ;;
    r <- for_of entries (copy_entry (copyDirSync depth') src dest) tt ;;
    rethrow r
  end.

Definition newline : string := String "010"%char EmptyString.

Definition pref_line (name value : string) : string :=
  "user_pref(" ++ String dquote name ++ String dquote (", " ++ value ++ ");")
  ++ newline.

Definition userPrefs : string :=
  newline
  ++ pref_line "extensions.autoDisableScopes" "0"
  ++ pref_line "extensions.enabledScopes" "15"
  ++ pref_line "xpinstall.signatures.required" "false"
  ++ pref_line "devtools.chrome.enabled" "true"
  ++ pref_line "devtools.debugger.remote-enabled" "true".

(** The executor of the promise [loadExtensionViaRDP] returns: its value is
    what the promise resolves to, a throw is its rejection. *)
Definition loadExtensionViaRDP (extensionPath : MapKey) : M object :=
  webExtPath <- findWebExt ;;
  if truthy webExtPath then
    (* Use web-ext if available *)
    match webExtPath with
    | Some (JStr file) =>
      proc <- spawn file [str "run"; str "--source-dir"; k_val extensionPath;
                          str "--no-reload"; str "--keep-profile-changes"] ;;
      unref proc ;;
      modify (fun st =>
                set_loadedExtensions
                  (Map_set extensionPath {| process := proc; method := "web-ext" |}
                           (loadedExtensions st)) st) ;;
      ret (obj_literal [("success", Some (JBool true)); ("method", str "web-ext")])
    | other => throw (msg_not_a_string other)
    end
  else
    (* Fallback: Use Firefox command line with temporary profile *)
    firefoxPath <- getFirefoxPath ;;
    if negb (truthy firefoxPath) then throw "Firefox not found"
    else
      st <- get_state ;;
      let stamp := string_of_list_ascii (number_chars (Date_now (world st))) in
      let tempProfile := path_join [os_tmpdir; "rapunzel-profile-" ++ stamp] in
      mkdirSync tempProfile ;;
      writeFileSync (path_join [tempProfile; "user.js"]) userPrefs ;;
      let extDest := path_join [tempProfile; "extensions"; "temp-extension"] in
      copyDirSync stack_depth (k_val extensionPath) extDest ;;
      ret (obj_literal [("success", Some (JBool true));
                        ("method", str "profile");
                        ("profilePath", str tempProfile);
                        ("note", str "Extension prepared in temporary profile")]).

Definition unloadExtension (extensionPath : MapKey) : M object :=
  st <- get_state ;;
  match Map_get extensionPath (loadedExtensions st) with
  | Some loaded =>
    try_catch (kill (process loaded))
              (fun _ => (* Process may already be dead *) ret tt) ;;
    modify (fun st =>
              set_loadedExtensions (Map_delete extensionPath (loadedExtensions st)) st) ;;
    ret (obj_literal [("success", Some (JBool true))])
  | None =>
    ret (obj_literal [("success", Some (JBool false));
                      ("error", str "Extension not found in loaded list")])
  end.

(** *** Message dispatcher *)

(** [v.k] where [v] is known not to be [null]. *)
Definition field (v : json) (k : string) : jsval :=
  match get_prop v k with
  | Some x => x
  | None => undefined
  end.

(** [case 'name':] of a [switch], which compares with [===]. *)
Definition is_case (action : jsval) (name : string) : bool :=
  prim_eqb action (str name).

(** [for (const [extPath] of loadedExtensions)]: the iterator walks the
    entries present when the loop starts and passes over one that has been
    deleted in the meantime (nothing is added while it runs). *)
Definition for_of_keys {S : Type} (body : MapKey -> S -> M S) (s : S)
  : M (S * option string) :=
  st <- get_state ;;
  for_of (map fst (loadedExtensions st))
         (fun k s =>
            st' <- get_state ;;
            if Map_has k (loadedExtensions st') then body k s else ret s)
         s.

Definition load_one (serial : nat) (ext : json) (results : list object)
  : M (list object) :=
  try_catch
    (loadExtensionViaRDP {| k_val := field ext "path"; k_id := serial |} ;;
     ret (results ++ [obj_literal [("name", field ext "name");
                                   ("success", Some (JBool true))]])%list)
    (fun error =>
       ret (results ++ [obj_literal [("name", field ext "name");
                                     ("success", Some (JBool false));
                                     ("error", str error)]])%list).

Definition unload_one (extPath : MapKey) (unloadResults : list object)
  : M (list object) :=
  result <- unloadExtension extPath ;;
  ret (unloadResults ++ [obj_literal (("path", k_val extPath) :: result)])%list.

Definition succeeded (r : object) : bool := truthy (obj_get "success" r).

Definition count_of (rs : list object) : jsval :=
  Some (JNum (Z.of_nat (List.length rs))).

Definition array_of (rs : list object) : jsval := Some (JArr (map to_json rs)).

(** [serial] numbers the parsed message, which gives its objects their
    identity as keys of the map. *)
Definition handleMessage (serial : nat) (message : json) : M unit :=
  action <- prop message "action" ;;
  let path := field message "path" in
  let key := {| k_val := path; k_id := serial |} in
  if is_case action "status" then
    firefoxPath <- getFirefoxPath ;;
    st <- get_state ;;
    sendMessage (obj_literal
      [("type", str "status");
       ("version", str VERSION);
       ("firefoxPath", firefoxPath);
       ("extensionFolder", obj_get "extensionFolder" (config st));
       ("loadedCount", Some (JNum (Map_size (loadedExtensions st))))])
  else if is_case action "scan" then
    extensions <- scanExtensionsFolder ;;
    st <- get_state ;;
    sendMessage (obj_literal
      [("type", str "extensions_list");
       ("extensions", Some (JArr extensions));
       ("folder", obj_get "extensionFolder" (config st))])
  else if is_case action "set_folder" then
    modify (fun st => set_config (obj_set "extensionFolder" path (config st)) st) ;;
    saveConfig ;;
    sendMessage (obj_literal
      [("type", str "folder_set");
       ("success", Some (JBool true));
       ("path", path)]) ;;
    (* Auto-scan after setting folder *)
    newExtensions <- scanExtensionsFolder ;;
    st <- get_state ;;
    sendMessage (obj_literal
      [("type", str "extensions_list");
       ("extensions", Some (JArr newExtensions));
       ("folder", obj_get "extensionFolder" (config st))])
  else if is_case action "load" then
    try_catch
      (result <- loadExtensionViaRDP key ;;
       manifestFile <- js_path_join [path; str "manifest.json"] ;;
       text <- readFileSync manifestFile ;;
       manifest <- JSON_parse text ;;
       name <- prop manifest "name" ;;
       extensionName <-
         (if truthy name then ret name
          else match path with
               | Some (JStr p) => ret (str (path_basename p))
               | other => throw (msg_not_a_string other)
               end) ;;
       sendMessage (obj_literal
         ([("type", str "load_result");
           ("success", Some (JBool true));
           ("extensionName", extensionName);
           ("path", path)] ++ result)))
      (fun error =>
         sendMessage (obj_literal
           [("type", str "load_result");
            ("success", Some (JBool false));
            ("error", str error);
            ("path", path)]))
  else if is_case action "load_all" then
    allExtensions <- scanExtensionsFolder ;;
    r <- for_of allExtensions (load_one serial) [] ;;
    let results := fst r in
    sendMessage (obj_literal
      [("type", str "load_all_result");
       ("results", array_of results);
       ("totalLoaded", count_of (filter succeeded results));
       ("totalFailed", count_of (filter (fun r => negb (succeeded r)) results))])
  else if is_case action "unload" then
    unloadResult <- unloadExtension key ;;
    sendMessage (obj_literal
      (("type", str "unload_result") :: unloadResult ++ [("path", path)]))
  else if is_case action "unload_all" then
    r <- for_of_keys unload_one [] ;;
    let unloadResults := fst r in
    sendMessage (obj_literal
      [("type", str "unload_all_result");
       ("results", array_of unloadResults)])
  else
    match js_toString action with
    | Some text =>
      sendMessage (obj_literal
        [("type", str "error");
         ("error", str ("Unknown action: " ++ text))])
    | None => throw msg_not_primitive
    end.

(** *** Main message loop *)

(** The [catch] of the loop. *)
Definition report (error : string) : M unit :=
  logError "Error processing message:" error ;;
  sendMessage (obj_literal [("type", str "error"); ("error", str error)]).

(** One turn of the loop for a message that is not [null]. *)
Definition turn (serial : nat) (message : json) : M unit :=
  try_catch (handleMessage serial message) report.

(** [input] is what stdin still holds; every turn that does not end the
    loop consumes at least five of its bytes, so [fuel] above its length is
    never used up. *)
Fixpoint main_loop (fuel serial : nat) (stdin : Stdin) (input : list byte)
  : M unit :=
  match fuel with
  | O => ret tt
  | S fuel' =>
    match readMessage_on stdin input with
    | (Resolved JNull, _, _) => (* End of input *) ret tt
    | (Resolved message, stdin', rest) =>
      turn serial message ;;
      main_loop fuel' (S serial) stdin' rest
    | (Rejected body, stdin', rest) =>
      report ("Invalid JSON: " ++ msg_syntax_error body) ;;
      main_loop fuel' (S serial) stdin' rest
    end
  end.

Definition main (input : list byte) : M unit :=
  loadConfig ;;
  main_loop (S (List.length input)) 0 (Listening false) input.

End HostCode.

(* ================================================================== *)
(** * A concrete platform *)
(* ================================================================== *)

(** A small POSIX-like machine, to run the helper on concrete inputs. *)
Module Posix.

Local Open Scope string_scope.

Record Fs : Type := {
  dirs : list (string * list Dirent);   (** directories and their listings *)
  files : list (string * string);       (** regular files and their contents *)
  which_web_ext : option string;        (** what [which web-ext] prints *)
  spawned : nat;                        (** processes started so far *)
  clock : Z;
}.

Fixpoint assoc {V : Type} (k : string) (l : list (string * V)) : option V :=
  match l with
  | [] => None
  | (k', v) :: l' => if String.eqb k k' then Some v else assoc k l'
  end.

Definition set_dirs (d : list (string * list Dirent)) (w : Fs) : Fs :=
  {| dirs := d; files := files w; which_web_ext := which_web_ext w;
     spawned := spawned w; clock := clock w |}.

Definition set_files (f : list (string * string)) (w : Fs) : Fs :=
  {| dirs := dirs w; files := f; which_web_ext := which_web_ext w;
     spawned := spawned w; clock := clock w |}.

Definition exists_path (w : Fs) (p : jsval) : bool :=
  match p with
  | Some (JStr s) =>
    match assoc s (dirs w), assoc s (files w) with
    | None, None => false
    | _, _ => true
    end
  | _ => false
  end.

Definition mkdir (w : Fs) (p : string) : Fs * option string :=
  match assoc p (dirs w) with
  | Some _ => (w, None)
  | None => (set_dirs ((p, []) :: dirs w) w, None)
  end.

Definition readdir (w : Fs) (p : jsval) : list Dirent + string :=
  match p with
  | Some (JStr s) =>
    match assoc s (dirs w) with
    | Some l => inl l
    | None => inr ("ENOENT: no such file or directory, scandir '" ++ s ++ "'")
    end
  | _ => inr "The path argument must be of type string"
  end.

Definition readFile (w : Fs) (p : string) : string + string :=
  match assoc p (files w) with
  | Some data => inl data
  | None => inr ("ENOENT: no such file or directory, open '" ++ p ++ "'")
  end.

Definition writeFile (w : Fs) (p data : string) : Fs * option string :=
  (set_files ((p, data) :: files w) w, None).

Definition copyFile (w : Fs) (src dest : string) : Fs * option string :=
  match assoc src (files w) with
  | Some data => (set_files ((dest, data) :: files w) w, None)
  | None => (w, Some ("ENOENT: no such file or directory, copyfile '" ++ src ++ "'"))
  end.

Definition exec (w : Fs) (cmd : string) : Fs * (string + string) :=
  match which_web_ext w with
  | Some out => if String.eqb cmd "which web-ext" then (w, inl out)
                else (w, inr ("Command failed: " ++ cmd))
  | None => (w, inr ("Command failed: " ++ cmd))
  end.

Definition start (w : Fs) (file : string) (args : list jsval)
  : Fs * (nat + string) :=
  ({| dirs := dirs w; files := files w; which_web_ext := which_web_ext w;
      spawned := S (spawned w); clock := clock w |},
   inl (spawned w)).

Fixpoint join_with_slash (parts : list string) : string :=
  match parts with
  | [] => "."
  | [p] => p
  | p :: rest => p ++ "/" ++ join_with_slash rest
  end.

(** The characters after the last slash, and those before it. *)
Fixpoint split_last (s : list ascii) : list ascii * list ascii :=
  match s with
  | [] => ([], [])
  | c :: r =>
    let (d, b) := split_last r in
    if existsb (Ascii.eqb "/"%char) r then (c :: d, b)
    else if (c =? "/")%char then ([], b) else ([], c :: b)
  end.

Definition basename (p : string) : string :=
  string_of_list_ascii (snd (split_last (list_ascii_of_string p))).

Definition dirname (p : string) : string :=
  string_of_list_ascii (fst (split_last (list_ascii_of_string p))).

#[export] Instance platform : Platform := {|
  World := Fs;
  Proc := nat;
  os_platform := other_os;
  os_homedir := "/home/user";
  os_tmpdir := "/tmp";
  env_APPDATA := undefined;
  path_join := join_with_slash;
  path_dirname := dirname;
  path_basename := basename;
  fs_existsSync := exists_path;
  fs_mkdirSync := mkdir;
  fs_readdirSync := readdir;
  fs_readFileSync := readFile;
  fs_writeFileSync := writeFile;
  fs_copyFileSync := copyFile;
  child_execSync := exec;
  child_spawn := start;
  proc_unref := fun w _ => w;
  proc_kill := fun w _ => (w, None);
  Date_now := clock;
  stack_depth := 64;
  msg_syntax_error := fun _ => "Unexpected token in JSON";
  msg_null_property := fun k => "Cannot read properties of null (reading '" ++ k ++ "')";
  msg_not_a_string := fun _ => "The argument must be of type string";
  msg_not_primitive := "Cannot convert object to primitive value";
  msg_stack_overflow := "Maximum call stack size exceeded";
|}.

Definition manifest_a : string :=
  JSON.stringify (JObj [("name", JStr "A"); ("version", JStr "1.0")]).

(** [/ext] holds extension [a], a directory [b] without manifest, a
    directory [c] whose manifest is the JSON text [null], and a directory
    [d] whose manifest is not JSON. *)
Definition ext_dirs : list (string * list Dirent) :=
  [("/ext", [{| d_name := "a"; d_isDirectory := true |};
              {| d_name := "b"; d_isDirectory := true |};
              {| d_name := "c"; d_isDirectory := true |};
              {| d_name := "d"; d_isDirectory := true |};
              {| d_name := "notes.txt"; d_isDirectory := false |}]);
   ("/ext/a", [{| d_name := "manifest.json"; d_isDirectory := false |}]);
   ("/ext/b", []);
   ("/ext/c", [{| d_name := "manifest.json"; d_isDirectory := false |}]);
   ("/ext/d", [{| d_name := "manifest.json"; d_isDirectory := false |}]);
   ("/usr/bin", [{| d_name := "firefox"; d_isDirectory := false |}])].

Definition ext_files : list (string * string) :=
  [("/ext/a/manifest.json", manifest_a);
   ("/ext/c/manifest.json", "null");
   ("/ext/d/manifest.json", "{");
   ("/ext/notes.txt", "hello");
   ("/usr/bin/firefox", "ELF")].

(** A machine with [web-ext] installed, and one without. *)
Definition with_web_ext : Fs :=
  {| dirs := ext_dirs; files := ext_files;
     which_web_ext := Some ("/usr/bin/web-ext" ++ String "010"%char EmptyString);
     spawned := 0; clock := 1700000000000 |}.

Definition without_web_ext : Fs :=
  {| dirs := ext_dirs; files := ext_files; which_web_ext := None;
     spawned := 0; clock := 1700000000000 |}.

Definition request (action : string) (path : jsval) : json :=
  to_json (obj_literal [("action", str action); ("path", path)]).

(** The state in which the helper starts on the machine [w]. *)
Definition boot (w : Fs) : HostState := @initial_state platform w.

End Posix.


(* ================================================================== *)
(** * Vocabulary of the specification *)
(* ================================================================== *)

(** ** Texts of JSON values *)

Module JSONText.

(** The compact text of a value. *)
Definition compact (v : json) : list ascii := serialize [] [] v.

Definition member_text (kv : string * json) : list ascii :=
  quote (fst kv) ++ ":"%char :: compact (snd kv).

(** How much fuel [parse_value] uses on the text of a value. *)
Fixpoint need (v : json) : nat :=
  match v with
  | JArr items => S (fold_right (fun x n => S (need x + n)) O items)
  | JObj props => S (fold_right (fun kv n => S (need (snd kv) + n)) O props)
  | _ => 1
  end.

Definition need_elements (items : list json) : nat :=
  fold_right (fun x n => S (need x + n)) O items.

Definition need_members (props : list (string * json)) : nat :=
  fold_right (fun kv n => S (need (snd kv) + n)) O props.

(** A character that can begin the text of a value. *)
Definition value_start (c : ascii) : bool :=
  let n := N_of_ascii c in
  ((n =? 110) || (n =? 116) || (n =? 102) || (n =? 34) || (n =? 91)
   || (n =? 123) || (n =? 45) || ((48 <=? n) && (n <=? 57)))%N.

(** What can follow the text of a value inside a compact text: nothing,
    or a comma, or a closing bracket or brace. *)
Definition follow_ok (rest : list ascii) : Prop :=
  match rest with
  | [] => True
  | c :: _ => c = ","%char \/ c = "]"%char \/ c = "}"%char
  end.

Definition no_digit_ahead (rest : list ascii) : Prop :=
  match rest with
  | [] => True
  | c :: _ => digit_cons c = None
  end.

Definition number_start (c : ascii) : bool :=
  let n := N_of_ascii c in
  ((n =? 45) || ((48 <=? n) && (n <=? 57)))%N.

(** The text of a value is parsed back whatever follows it. *)
Definition parses_back (v : json) : Prop :=
  forall fuel rest,
    (need v <= fuel)%nat -> follow_ok rest ->
    parse_value fuel (compact v ++ rest) = Some (v, rest).

End JSONText.

Import JSONText.

(** ** Requests and responses *)

(** A string of [n] letters [a]. *)
Definition letters (n : nat) : string := string_of_list_ascii (repeat "a"%char n).

(** The JSON string whose text is exactly 1 MiB long. *)
Definition one_MiB_value : json := JStr (letters (N.to_nat 1048574)).

(** The messages the loop hands to the dispatcher, in order. *)
Fixpoint requests (fuel : nat) (stdin : Stdin) (input : list byte)
  : list json :=
  match fuel with
  | O => []
  | S fuel' =>
    match readMessage_on stdin input with
    | (Resolved JNull, _, _) => []
    | (Resolved message, stdin', rest) => message :: requests fuel' stdin' rest
    | (Rejected _, stdin', rest) => requests fuel' stdin' rest
    end
  end.

Definition not_set_folder (message : json) : Prop :=
  is_case (field message "action") "set_folder" = false.

Definition unload_ok : object := obj_literal [("success"%string, Some (JBool true))].

Definition unload_not_loaded : object :=
  obj_literal [("success"%string, Some (JBool false));
               ("error"%string, str "Extension not found in loaded list")].

(** ** Properties of computations and of states *)

Section Vocabulary.

Context {P : Platform}.

Local Open Scope host_scope.

(** [m] maintains the property [I] of states, whether it returns or
    throws. *)
Definition preserves {A : Type} (I : HostState -> Prop) (m : M A) : Prop :=
  forall st, I st -> I (snd (m st)).

(** [m] always returns. *)
Definition total {A : Type} (m : M A) : Prop :=
  forall st, exists a, fst (m st) = inl a.

(** What an operation on the world, or a line on stderr, cannot break. *)
Definition env_stable (I : HostState -> Prop) : Prop :=
  (forall w st, I st -> I (set_world w st))
  /\ (forall e st, I st -> I (set_stderr e st)).

(** What the registration of a process started with [web-ext] cannot
    break. *)
Definition load_stable (I : HostState -> Prop) : Prop :=
  forall k proc st,
    I st ->
    I (set_loadedExtensions
         (Map_set k {| process := proc; method := "web-ext" |} (loadedExtensions st))
         st).

Definition unload_stable (I : HostState -> Prop) : Prop :=
  forall k st,
    I st -> I (set_loadedExtensions (Map_delete k (loadedExtensions st)) st).

Definition out_stable (I : HostState -> Prop) : Prop :=
  forall o st, I st -> I (set_stdout o st).

(** What no change to a file can break. *)
Definition save_stable (I : HostState -> Prop) : Prop :=
  forall l st, I st -> I (set_file_changes l st).

(** What a change to a file of which [harmless] holds cannot break. *)
Definition file_stable (harmless : string -> Prop) (I : HostState -> Prop) : Prop :=
  forall c st,
    harmless (changed_file c) -> I st ->
    I (set_file_changes (file_changes st ++ [c]) st).

Definition config_stable (I : HostState -> Prop) : Prop :=
  forall c st, I st -> I (set_config c st).

(** Between [st] and [st'] exactly [n] frames went to stdout. *)
Definition wrote (n : nat) (st st' : HostState) : Prop :=
  exists rs : list json,
    List.length rs = n /\ stdout st' = stdout st ++ List.concat (map frame rs).

(** [m] returns, having written [n] frames. *)
Definition always {A : Type} (n : nat) (m : M A) : Prop :=
  forall st, exists a st', m st = (inl a, st') /\ wrote n st st'.

(** [m] writes [n] frames if it returns and none if it throws. *)
Definition answers {A : Type} (n : nat) (m : M A) : Prop :=
  forall st,
    match m st with
    | (inl _, st') => wrote n st st'
    | (inr _, st') => stdout st' = stdout st
    end.

(** [m] writes nothing. *)
Definition quiet {A : Type} (m : M A) : Prop :=
  forall o, preserves (fun st => stdout st = o) m.

(** The strategy [loadExtensionViaRDP] falls back on when the loader tool
    is missing: its [else] branch, under a name. *)
Definition profile_branch (extensionPath : MapKey) : M object :=
  firefoxPath <- getFirefoxPath ;;
  if negb (truthy firefoxPath) then throw "Firefox not found"
  else
    st <- get_state ;;
    let stamp := string_of_list_ascii (number_chars (Date_now (world st))) in
    let tempProfile := path_join [os_tmpdir; ("rapunzel-profile-" ++ stamp)%string] in
    mkdirSync tempProfile ;;
    writeFileSync (path_join [tempProfile; "user.js"%string]) userPrefs ;;
    let extDest :=
      path_join [tempProfile; "extensions"%string; "temp-extension"%string] in
    copyDirSync stack_depth (k_val extensionPath) extDest ;;
    ret (obj_literal [("success"%string, Some (JBool true));
                      ("method"%string, str "profile");
                      ("profilePath"%string, str tempProfile);
                      ("note"%string, str "Extension prepared in temporary profile")]).

(** A name under which some directory has an entry. *)
Definition listed (name : string) : Prop :=
  exists w dir items,
    fs_readdirSync w dir = inl items /\ In name (map d_name items).

(** The directories [copyDirSync] makes for [dest]: [dest] and, below
    it, one for every entry by its name. *)
Inductive copy_dir (dest : string) : string -> Prop :=
| copy_dir_top : copy_dir dest dest
| copy_dir_sub d name :
    copy_dir dest d -> listed name -> copy_dir dest (path_join [d; name]).

(** The files [copyDirSync] copies to for [dest]. *)
Definition copied_below (dest file : string) : Prop :=
  exists d name, copy_dir dest d /\ listed name /\ file = path_join [d; name].

(** The temporary profile that the fallback strategy makes at the time
    [stamp]. *)
Definition profile_of (stamp : string) : string :=
  path_join [os_tmpdir; ("rapunzel-profile-" ++ stamp)%string].

(** The files of a temporary profile: its [user.js] and the copy of the
    extension. *)
Definition in_profile (file : string) : Prop :=
  exists stamp,
    file = path_join [profile_of stamp; "user.js"%string]
    \/ copied_below
         (path_join [profile_of stamp; "extensions"%string; "temp-extension"%string])
         file.

(** The changes the helper has made to the configuration file. *)
Definition config_writes (st : HostState) : list FileChange :=
  filter (fun c => String.eqb (changed_file c) CONFIG_FILE) (file_changes st).

(** Between [st] and [st'] the helper has changed files of temporary
    profiles and no other file. *)
Definition changed_profiles_only (st st' : HostState) : Prop :=
  exists changes,
    file_changes st' = file_changes st ++ changes
    /\ Forall (fun c => in_profile (changed_file c)) changes.

(** Every record in the map was made by the [web-ext] strategy. *)
Definition all_web_ext (m : ExtMap) : Prop :=
  Forall (fun e => method (snd e) = "web-ext"%string) m.

(** [findWebExt], run in [st], finds no loader tool. *)
Definition tool_absent (st : HostState) : Prop :=
  forall v, fst (findWebExt st) = inl v -> truthy v = false.

(** When [loadConfig] looks for the configuration file, after it has
    made sure that its directory exists, the file is not there. *)
Definition config_file_absent (w : World) : Prop :=
  fs_existsSync (world (snd (ensure_config_dir (initial_state w))))
                (str CONFIG_FILE) = false.

(** The memory of the helper is as at start-up. *)
Definition fresh (st : HostState) : Prop :=
  config st = default_config /\ loadedExtensions st = [] /\ stdout st = [].

(** The manifest of the subdirectory [item] of [folder]: the value its
    [manifest.json] parses to, when the file exists, can be read and is
    JSON. *)
Definition manifest_of (w : World) (folder : jsval) (item : Dirent) : option json :=
  match folder with
  | Some (JStr f) =>
    if d_isDirectory item then
      let manifestPath :=
        path_join [path_join [f; d_name item]; "manifest.json"%string] in
      if fs_existsSync w (str manifestPath) then
        match fs_readFileSync w manifestPath with
        | inl text => JSON.parse text
        | inr _ => None
        end
      else None
    else None
  | _ => None
  end.

(** The descriptor made from a manifest. *)
Definition descriptor (folder : string) (item : Dirent) (manifest : json) : json :=
  to_json (obj_literal
    [("name"%string, js_or (field manifest "name") (str (d_name item)));
     ("version"%string, js_or (field manifest "version") (str "0.0.0"));
     ("description"%string, js_or (field manifest "description") (str EmptyString));
     ("path"%string, str (path_join [folder; d_name item]));
     ("folder"%string, str (d_name item));
     ("manifestVersion"%string,
      js_or (field manifest "manifest_version") (Some (JNum 2)))]).

(** What one entry of the folder contributes to the scan. *)
Definition describe (w : World) (folder : jsval) (item : Dirent) : list json :=
  match folder, manifest_of w folder item with
  | Some (JStr f), Some manifest =>
    match manifest with
    | JNull => []
    | _ => [descriptor f item manifest]
    end
  | _, _ => []
  end.

(** The subdirectories the claim counts: those whose manifest parses as
    JSON. *)
Definition parses_as_JSON (w : World) (folder : jsval) (item : Dirent) : bool :=
  match manifest_of w folder item with
  | Some _ => true
  | None => false
  end.

(** The subdirectories the scanner keeps: those whose manifest parses as
    JSON to something other than [null]. *)
Definition usable_manifest (w : World) (folder : jsval) (item : Dirent) : bool :=
  match manifest_of w folder item with
  | Some JNull => false
  | Some _ => true
  | None => false
  end.

(** What changes between two states is at most stderr. *)
Definition same_but_stderr (st st' : HostState) : Prop :=
  config st' = config st /\ loadedExtensions st' = loadedExtensions st
  /\ world st' = world st /\ stdout st' = stdout st
  /\ file_changes st' = file_changes st.

(** The response to [load_all] built from the per-item results. *)
Definition load_all_response (results : list object) : object :=
  obj_literal
    [("type"%string, str "load_all_result");
     ("results"%string, array_of results);
     ("totalLoaded"%string, count_of (filter succeeded results));
     ("totalFailed"%string, count_of (filter (fun r => negb (succeeded r)) results))].

(** The response to [unload_all]. *)
Definition unload_all_response (unloadResults : list object) : object :=
  obj_literal
    [("type"%string, str "unload_all_result");
     ("results"%string, array_of unloadResults)].

(** [load] applied to the descriptors one after the other, each in the
    state that the one before has left, whatever came of it: what each
    call resolved to or was rejected with, and the state after the
    last. *)
Fixpoint load_in_turn (serial : nat) (extensions : list json) (st : HostState)
  : list (object + string) * HostState :=
  match extensions with
  | [] => ([], st)
  | ext :: rest =>
    let (outcome, st1) :=
      loadExtensionViaRDP {| k_val := field ext "path"; k_id := serial |} st in
    let (outcomes, st2) := load_in_turn serial rest st1 in
    (outcome :: outcomes, st2)
  end.

(** The entry of the detail list for a descriptor and for what came of
    loading it. *)
Definition load_all_entry (ext : json) (outcome : object + string) : object :=
  match outcome with
  | inl _ =>
    obj_literal [("name"%string, field ext "name");
                 ("success"%string, Some (JBool true))]
  | inr error =>
    obj_literal [("name"%string, field ext "name");
                 ("success"%string, Some (JBool false));
                 ("error"%string, str error)]
  end.

Definition load_all_entries (extensions : list json) (outcomes : list (object + string))
  : list object :=
  map (fun p => load_all_entry (fst p) (snd p)) (combine extensions outcomes).

Definition resolved (outcome : object + string) : bool :=
  match outcome with inl _ => true | inr _ => false end.

(** [unload] applied to the keys one after the other: the state after the
    last. *)
Definition unload_in_turn (keys : list MapKey) (st : HostState) : HostState :=
  fold_left (fun s k => snd (unloadExtension k s)) keys st.

(** The entry of the detail list for a key that was unloaded. *)
Definition unload_all_entry (k : MapKey) : object :=
  obj_literal (("path"%string, k_val k) :: unload_ok).

End Vocabulary.

(** ** Inputs, states and responses on the concrete machine *)

Section Samples.

Import Posix.

Definition folder_set_response : json :=
  JObj [("type"%string, JStr "folder_set"); ("success"%string, JBool true);
        ("path"%string, JStr "/ext")].

Definition extensions_list_response : json :=
  JObj [("type"%string, JStr "extensions_list");
        ("extensions"%string,
         JArr [JObj [("name"%string, JStr "A"); ("version"%string, JStr "1.0");
                     ("description"%string, JStr EmptyString);
                     ("path"%string, JStr "/ext/a"); ("folder"%string, JStr "a");
                     ("manifestVersion"%string, JNum 2)]]);
        ("folder"%string, JStr "/ext")].

Definition sample_input : list byte :=
  List.concat (map frame [request "status" undefined; request "scan" undefined;
                          request "load" (str "/ext/a");
                          request "unload" (str "/ext/a");
                          request "load_all" undefined;
                          request "unload_all" undefined;
                          request "dance" undefined]).

(** An empty frame ahead of a [status] request. *)
Definition empty_frame_then_status : list byte :=
  writeUInt32LE 0 ++ frame (request "status" undefined).

(** A one-byte body that is not JSON, ahead of a [status] request. *)
Definition malformed_frame_then_status : list byte :=
  writeUInt32LE 1 ++ Buffer_from "{" ++ frame (request "status" undefined).

Definition invalid_JSON_response : json :=
  JObj [("type"%string, JStr "error");
        ("error"%string, JStr "Invalid JSON: Unexpected token in JSON")].

Definition status_response : json :=
  JObj [("type"%string, JStr "status"); ("version"%string, JStr "1.0.0");
        ("firefoxPath"%string, JStr "/usr/bin/firefox");
        ("extensionFolder"%string, JStr EmptyString);
        ("loadedCount"%string, JNum 0)].

Definition failed_load_response : json :=
  JObj [("type"%string, JStr "load_result"); ("success"%string, JBool false);
        ("error"%string,
         JStr "ENOENT: no such file or directory, open '/ext/b/manifest.json'");
        ("path"%string, JStr "/ext/b")].

(** The helper after [set_folder] has pointed it at [/ext]. *)
Definition pointed_at_ext (w : Fs) : HostState :=
  set_config (obj_set "extensionFolder" (str "/ext") default_config) (boot w).

Definition listing_of_ext : list Dirent :=
  [{| d_name := "a"; d_isDirectory := true |};
   {| d_name := "b"; d_isDirectory := true |};
   {| d_name := "c"; d_isDirectory := true |};
   {| d_name := "d"; d_isDirectory := true |};
   {| d_name := "notes.txt"; d_isDirectory := false |}].

Definition descriptor_a : json :=
  JObj [("name"%string, JStr "A"); ("version"%string, JStr "1.0");
        ("description"%string, JStr EmptyString);
        ("path"%string, JStr "/ext/a"); ("folder"%string, JStr "a");
        ("manifestVersion"%string, JNum 2)].

(** The helper with extension [a] loaded through [web-ext]. *)
Definition a_loaded : HostState :=
  snd (turn 0 (request "load" (str "/ext/a")) (boot with_web_ext)).

Definition unload_all_answer : json :=
  JObj [("type"%string, JStr "unload_all_result");
        ("results"%string,
         JArr [JObj [("path"%string, JStr "/ext/a"); ("success"%string, JBool true)]])].

End Samples.

(* ================================================================== *)
(** * Vocabulary of the further properties *)
(* ================================================================== *)

(** ** Objects and texts *)

(** The keys of the own properties of an object. *)
Definition keys (o : object) : list string := map fst o.

(** The members of a parsed object as own properties. *)
Definition lift (props : list (string * json)) : object :=
  map (fun kv => (fst kv, Some (snd kv))) props.

(** A property other than [type]. *)
Definition not_type (kv : string * jsval) : Prop := fst kv <> "type"%string.

Definition LF : ascii := "010"%char.
Definition CR : ascii := "013"%char.

(** White space only. *)
Definition blank (l : list ascii) : Prop := Forall (fun c => is_ws c = true) l.

(** What may follow the text of a value for it to be parsed back: no
    digit and no fraction, which would extend a number. *)
Definition ends_a_number (rest : list ascii) : Prop :=
  no_digit_ahead rest /\ starts_fraction rest = false.

(** The indented text of a value is parsed back whatever follows it. *)
Definition parses_back_indented (gap ind : list ascii) (v : json) : Prop :=
  forall fuel rest,
    (need v <= fuel)%nat -> ends_a_number rest ->
    parse_value fuel (serialize gap ind v ++ rest) = Some (v, rest).

(** A member of an object in an indented text. *)
Definition member_indented (gap ind : list ascii) (kv : string * json) : list ascii :=
  quote (fst kv) ++ ":"%char :: " "%char :: serialize gap ind (snd kv).

(** An ASCII character that [trim] leaves in place. *)
Definition stays (c : ascii) : Prop :=
  is_trim_ws c = false /\ (N_of_ascii c < 128)%N.

(** A line as a lookup command prints it: no line feed inside, not empty,
    and a character that [trim] leaves in place at either end. *)
Definition clean_line (line : list ascii) : Prop :=
  Forall (fun c => (c =? LF)%char = false) line
  /\ (exists c r, line = c :: r /\ stays c)
  /\ (exists r c, line = (r ++ [c])%list /\ stays c).

(** Something that [trim] leaves in place occurs in [s]. *)
Definition not_blank (s : list ascii) : Prop :=
  exists a c b, s = (a ++ c :: b)%list /\ stays c.

(** ** The helper *)

Section MoreVocabulary.

Context {P : Platform}.

Local Open Scope host_scope.

(** What the loop does with the messages [messages], one turn each, the
    first of them numbered [serial]. *)
Fixpoint turns (serial : nat) (messages : list json) : M unit :=
  match messages with
  | [] => ret tt
  | message :: rest => turn serial message ;; turns (S serial) rest
  end.

(** A message that the reader hands to the dispatcher when it arrives in
    a frame: it is not [null] and its text is shorter than 1 MiB. *)
Definition deliverable (v : json) : Prop :=
  v <> JNull /\ Buffer_length (Buffer_from (JSON.stringify v)) < 1048576.

(** The generic [error] response. *)
Definition error_response (text : string) : object :=
  obj_literal [("type"%string, str "error"); ("error"%string, str text)].

(** The line [logError] puts on stderr. *)
Definition error_line (label detail : string) : string :=
  ("[Rapunzel Helper] " ++ label ++ " " ++ detail)%string.

(** Whether [action] is one of the seven cases of the dispatcher. *)
Definition known_action (action : jsval) : bool :=
  is_case action "status" || is_case action "scan" || is_case action "set_folder"
  || is_case action "load" || is_case action "load_all" || is_case action "unload"
  || is_case action "unload_all".

(** The [type]s of the responses to a request, by its [action]. *)
Definition response_types (action : jsval) : list string :=
  if is_case action "status" then ["status"%string]
  else if is_case action "scan" then ["extensions_list"%string]
  else if is_case action "set_folder" then ["folder_set"%string; "extensions_list"%string]
  else if is_case action "load" then ["load_result"%string]
  else if is_case action "load_all" then ["load_all_result"%string]
  else if is_case action "unload" then ["unload_result"%string]
  else if is_case action "unload_all" then ["unload_all_result"%string]
  else ["error"%string].

(** Between [st] and [st'] frames of the types [types] went to stdout, in
    that order, and nothing else. *)
Definition wrote_types (types : list string) (st st' : HostState) : Prop :=
  exists rs : list json,
    map (fun r => field r "type") rs = map str types
    /\ stdout st' = stdout st ++ List.concat (map frame rs).

(** [m] returns, having written frames of the types [types]. *)
Definition sends {A : Type} (types : list string) (m : M A) : Prop :=
  forall st, exists a st', m st = (inl a, st') /\ wrote_types types st st'.

(** [m] writes frames of the types [types] if it returns and nothing if
    it throws. *)
Definition sends_or_throws {A : Type} (types : list string) (m : M A) : Prop :=
  forall st,
    match m st with
    | (inl _, st') => wrote_types types st st'
    | (inr _, st') => stdout st' = stdout st
    end.

(** What [loadExtensionViaRDP] resolves to on its two branches. *)
Definition web_ext_result : object :=
  obj_literal [("success"%string, Some (JBool true)); ("method"%string, str "web-ext")].

Definition profile_result (tempProfile : string) : object :=
  obj_literal [("success"%string, Some (JBool true));
               ("method"%string, str "profile");
               ("profilePath"%string, str tempProfile);
               ("note"%string, str "Extension prepared in temporary profile")].

(** The arguments [loadExtensionViaRDP] gives to [web-ext]. *)
Definition web_ext_args (extensionPath : MapKey) : list jsval :=
  [str "run"; str "--source-dir"; k_val extensionPath;
   str "--no-reload"; str "--keep-profile-changes"].

(** In [st] the loader tool is found, and starting it for [extensionPath]
    gives the process [proc]. *)
Definition starts_web_ext (extensionPath : MapKey) (st : HostState) (proc : Proc)
  : Prop :=
  exists file,
    fst (findWebExt st) = inl (str file)
    /\ file <> EmptyString
    /\ snd (child_spawn (world (snd (findWebExt st))) file (web_ext_args extensionPath))
       = inl proc.

(** The record [loadExtensionViaRDP] stores for a process. *)
Definition web_ext_record (proc : Proc) : Loaded :=
  {| process := proc; method := "web-ext" |}.

(** The command [findWebExt] runs. *)
Definition lookup_command : string :=
  ((match os_platform with win32 => "where" | _ => "which" end) ++ " web-ext")%string.

(** What a scan returns, as a function of the configured folder and of
    the world. *)
Definition scan_result (folder : jsval) (w : World) : list json :=
  if negb (truthy folder) || negb (fs_existsSync w folder) then []
  else match fs_readdirSync w folder with
       | inl items => flat_map (describe w folder) items
       | inr _ => []
       end.

(** The text [saveConfig] makes of a configuration. *)
Definition config_text (c : object) : string :=
  JSON.stringify_indent 2 (to_json c).

(** [loadConfig], run in [st], gets to read the configuration file and
    finds [text] in it. *)
Definition config_file_holds (st : HostState) (text : string) : Prop :=
  let st0 := snd (ensure_config_dir st) in
  fst (ensure_config_dir st) = inl tt
  /\ fs_existsSync (world st0) (str CONFIG_FILE) = true
  /\ fs_readFileSync (world st0) CONFIG_FILE = inl text.

(** [{...c, ...parsed}]. *)
Definition merged (c : object) (parsed : json) : object :=
  obj_literal (c ++ spread_props (Some parsed)).

End MoreVocabulary.

(** ** More inputs and machines *)

Section MoreSamples.

Import Posix.

(** A configuration file as an earlier run may have left it. *)
Definition kept_config : list (string * json) :=
  [("extensionFolder"%string, JStr "/ext"); ("autoStart"%string, JBool false)].

Definition kept_config_text : string := JSON.stringify_indent 2 (JObj kept_config).

(** The machine without loader tool, with [text] in the configuration
    file. *)
Definition with_config_file (text : string) : Fs :=
  {| dirs := ("/home/user/.rapunzel"%string,
              [{| d_name := "config.json"; d_isDirectory := false |}]) :: ext_dirs;
     files := ("/home/user/.rapunzel/config.json"%string, text) :: ext_files;
     which_web_ext := None; spawned := 0; clock := 1700000000000 |}.

(** A frame that announces five bytes and brings one. *)
Definition short_frame : list byte := writeUInt32LE 5 ++ Buffer_from "{".

Definition two_requests : list json :=
  [request "status" undefined; request "unload_all" undefined].

(** What [which web-ext] prints on the machine with the loader tool. *)
Definition web_ext_line : list ascii := list_ascii_of_string "/usr/bin/web-ext".

End MoreSamples.

(* ================================================================== *)
(** * The installer ([install.js]) *)
(* ================================================================== *)

(** What the installer asks of Node's library beyond [Platform]. *)
Class InstallerPlatform (P : Platform) : Type := {
  (** [__dirname] *)
  script_dir : string;
  (** [os.platform()] where it is neither ['win32'] nor ['darwin'] *)
  other_platform_name : string;
  fs_chmodSync : World -> string -> string -> World * option string;
  fs_unlinkSync : World -> string -> World * option string;
}.

Module Installer.

Section Code.

Context {P : Platform} {IP : InstallerPlatform P}.

Local Open Scope string_scope.

(** The world outside, the lines printed with [console.log] and with
    [console.error], and, oldest first, what has been handed to
    [fs.writeFileSync] (path and data) and to [fs.unlinkSync]. *)
Record State : Type := {
  i_world : World;
  console_out : list string;
  console_err : list string;
  written : list (string * string);
  removed : list string;
}.

Definition with_world (w : World) (s : State) : State :=
  {| i_world := w; console_out := console_out s; console_err := console_err s;
     written := written s; removed := removed s |}.

(** A computation of the installer: a value or a thrown error, and the
    state it leaves. *)
Definition I (A : Type) : Type := State -> (A + string) * State.

Definition ret {A} (a : A) : I A := fun s => (inl a, s).

Definition throw {A} (message : string) : I A := fun s => (inr message, s).

Definition bind {A B} (m : I A) (k : A -> I B) : I B :=
  fun s =>
    match m s with
    | (inl a, s') => k a s'
    | (inr e, s') => (inr e, s')
    end.

Definition try_catch {A} (m : I A) (h : string -> I A) : I A :=
  fun s =>
    match m s with
    | (inl a, s') => (inl a, s')
    | (inr e, s') => h e s'
    end.

Notation "x <- m ;; k" := (bind m (fun x => k))
  (at level 61, m at next level, right associativity).
Notation "m ;; k" := (bind m (fun _ => k))
  (at level 61, right associativity).

(** *** Calls into the platform *)

Definition console_log (line : string) : I unit :=
  fun s =>
    (inl tt,
     {| i_world := i_world s; console_out := console_out s ++ [line];
        console_err := console_err s; written := written s; removed := removed s |}).

Definition console_error (line : string) : I unit :=
  fun s =>
    (inl tt,
     {| i_world := i_world s; console_out := console_out s;
        console_err := console_err s ++ [line]; written := written s;
        removed := removed s |}).

Definition lift_call (f : World -> World * option string) : I unit :=
  fun s =>
    match f (i_world s) with
    | (w, None) => (inl tt, with_world w s)
    | (w, Some e) => (inr e, with_world w s)
    end.

Definition existsSync (p : jsval) : I bool :=
  fun s => (inl (fs_existsSync (i_world s) p), s).

Definition mkdirSync (p : string) : I unit :=
  lift_call (fun w => fs_mkdirSync w p).

Definition chmodSync (p mode : string) : I unit :=
  lift_call (fun w => fs_chmodSync w p mode).

Definition readFileSync (p : string) : I string :=
  fun s => (fs_readFileSync (i_world s) p, s).

Definition writeFileSync (p data : string) : I unit :=
  fun s =>
    lift_call (fun w => fs_writeFileSync w p data)
      {| i_world := i_world s; console_out := console_out s;
         console_err := console_err s; written := written s ++ [(p, data)];
         removed := removed s |}.

Definition unlinkSync (p : string) : I unit :=
  fun s =>
    lift_call (fun w => fs_unlinkSync w p)
      {| i_world := i_world s; console_out := console_out s;
         console_err := console_err s; written := written s;
         removed := removed s ++ [p] |}.

Definition execSync (cmd : string) : I string :=
  fun s => let (w, r) := child_execSync (i_world s) cmd in (r, with_world w s).

Definition JSON_parse (text : string) : I json :=
  match JSON.parse text with
  | Some v => ret v
  | None => throw (msg_syntax_error text)
  end.

(** [v.k], throwing on [null]. *)
Definition prop (v : json) (k : string) : I jsval :=
  match get_prop v k with
  | Some x => ret x
  | None => throw (msg_null_property k)
  end.

(** [`${v}`]. *)
Definition template (v : jsval) : I string :=
  match js_toString v with
  | Some text => ret text
  | None => throw msg_not_primitive
  end.

(** *** The script *)

Definition APP_NAME : string := "com.rapunzel.helper".
Definition EXTENSION_ID : string := "rapunzel@airtimestudio.com".
Definition CONFIG_DIR : string := path_join [os_homedir; ".rapunzel"].

Definition platform_name : string :=
  match os_platform with
  | win32 => "win32"
  | darwin => "darwin"
  | other_os => other_platform_name
  end.

Definition getScriptDir : string := script_dir.

Definition getNativeManifestDir : string :=
  match os_platform with
  | win32 =>
    path_join [os_homedir; "AppData"; "Roaming"; "Mozilla"; "NativeMessagingHosts"]
  | darwin =>
    path_join [os_homedir; "Library"; "Application Support"; "Mozilla";
               "NativeMessagingHosts"]
  | other_os =>
    path_join [os_homedir; ".mozilla"; "native-messaging-hosts"]
  end.

Definition quoted (s : string) : string := String dquote (s ++ String dquote EmptyString).

Definition batchContent (nativeHostPath : string) : string :=
  "@echo off" ++ newline ++ "node " ++ quoted nativeHostPath ++ newline.

Definition createBatchWrapper : I string :=
  let scriptDir := getScriptDir in
  let nativeHostPath := path_join [scriptDir; "native-host.js"] in
  let batchPath := path_join [CONFIG_DIR; "native-host.bat"] in
  (* Ensure config dir exists *)
  present <- existsSync (str CONFIG_DIR) ;;
  (if negb present then mkdirSync CONFIG_DIR else ret tt) ;;
  (* Create batch file that runs the native host *)
  writeFileSync batchPath (batchContent nativeHostPath) ;;
  console_log ("Created batch wrapper: " ++ batchPath) ;;
  ret batchPath.

Definition createManifest (executablePath : string) : json :=
  JObj [("name", JStr APP_NAME);
        ("description",
         JStr "Rapunzel Native Helper - Manages temporary Firefox extensions");
        ("path", JStr executablePath);
        ("type", JStr "stdio");
        ("allowed_extensions", JArr [JStr EXTENSION_ID])].

Definition regKey : string :=
  "HKCU\Software\Mozilla\NativeMessagingHosts\" ++ APP_NAME.

Definition addWindowsRegistry (manifestPath : string) : I unit :=
  try_catch
    (execSync ("reg add " ++ quoted regKey ++ " /ve /t REG_SZ /d "
               ++ quoted manifestPath ++ " /f") ;;
     console_log "  Registry entry added successfully")
    (fun _ =>
       console_error "  Warning: Could not add registry entry automatically." ;;
       console_error "  You may need to run as administrator or add manually:" ;;
       console_error ("    Key: " ++ regKey) ;;
       console_error ("    Value: " ++ manifestPath)).

(** The configuration the installer writes when there is none. *)
Definition default_config_json : json :=
  JObj [("extensionFolder", JStr EmptyString); ("autoStart", JBool false)].

Definition manifest_path : string :=
  path_join [getNativeManifestDir; APP_NAME ++ ".json"].

Definition config_path : string := path_join [CONFIG_DIR; "config.json"].

Definition batch_path : string := path_join [CONFIG_DIR; "native-host.bat"].

Definition install : I unit :=
  console_log "" ;;
  console_log "========================================" ;;
  console_log "  Rapunzel Native Helper Installer" ;;
  console_log "========================================" ;;
  console_log "" ;;
  executablePath <-
    match os_platform with
    | win32 =>
      (* On Windows, create a batch wrapper *)
      createBatchWrapper
    | _ =>
      (* On Unix, use the JS file directly with proper shebang *)
      let executablePath := path_join [getScriptDir; "native-host.js"] in
      chmodSync executablePath "755" ;;
      ret executablePath
    end ;;
  let manifestDir := getNativeManifestDir in
  let manifestPath := path_join [manifestDir; APP_NAME ++ ".json"] in
  console_log ("Platform: " ++ platform_name) ;;
  console_log ("Native host: " ++ executablePath) ;;
  console_log ("Manifest directory: " ++ manifestDir) ;;
  console_log ("Manifest path: " ++ manifestPath) ;;
  console_log "" ;;
  (* Create manifest directory *)
  present <- existsSync (str manifestDir) ;;
  (if negb present then
     console_log "Creating manifest directory..." ;;
     mkdirSync manifestDir
   else ret tt) ;;
  (* Create and write manifest *)
  let manifest := createManifest executablePath in
  console_log "Writing native messaging manifest..." ;;
  writeFileSync manifestPath (JSON.stringify_indent 2 manifest) ;;
  (* On Windows, add registry entry *)
  match os_platform with
  | win32 =>
    console_log "Adding Windows registry entry..." ;;
    addWindowsRegistry manifestPath
  | _ => ret tt
  end ;;
  (* Create config directory *)
  present <- existsSync (str CONFIG_DIR) ;;
  (if negb present then mkdirSync CONFIG_DIR else ret tt) ;;
  (* Create default config if not exists *)
  let configPath := path_join [CONFIG_DIR; "config.json"] in
  present <- existsSync (str configPath) ;;
  (if negb present then
     writeFileSync configPath (JSON.stringify_indent 2 default_config_json)
   else ret tt) ;;
  console_log "" ;;
  console_log "========================================" ;;
  console_log "  Installation Complete!" ;;
  console_log "========================================" ;;
  console_log "" ;;
  console_log "The native messaging host is now registered with Firefox." ;;
  console_log "" ;;
  console_log "Next steps:" ;;
  console_log "1. Install the Rapunzel Firefox extension" ;;
  console_log "2. Click the extension icon and configure your extensions folder" ;;
  console_log "".

Definition uninstall : I unit :=
  console_log "" ;;
  console_log "Uninstalling Rapunzel Native Helper..." ;;
  console_log "" ;;
  let manifestDir := getNativeManifestDir in
  let manifestPath := path_join [manifestDir; APP_NAME ++ ".json"] in
  (* Remove manifest file *)
  present <- existsSync (str manifestPath) ;;
  (if present then
     unlinkSync manifestPath ;;
     console_log "Removed manifest file"
   else ret tt) ;;
  (* Remove batch wrapper *)
  let batchPath := path_join [CONFIG_DIR; "native-host.bat"] in
  present <- existsSync (str batchPath) ;;
  (if present then
     unlinkSync batchPath ;;
     console_log "Removed batch wrapper"
   else ret tt) ;;
  (* On Windows, remove registry entry *)
  match os_platform with
  | win32 =>
    try_catch
      (execSync ("reg delete " ++ quoted regKey ++ " /f") ;;
       console_log "Removed registry entry")
      (fun _ => (* Key may not exist *) ret tt)
  | _ => ret tt
  end ;;
  console_log "" ;;
  console_log "Uninstallation complete!" ;;
  console_log "Note: Configuration files in ~/.rapunzel were preserved." ;;
  console_log "".

Definition status : I unit :=
  console_log "" ;;
  console_log "Rapunzel Native Helper Status" ;;
  console_log "=============================" ;;
  console_log "" ;;
  let manifestDir := getNativeManifestDir in
  let manifestPath := path_join [manifestDir; APP_NAME ++ ".json"] in
  console_log ("Platform: " ++ platform_name) ;;
  console_log ("Config directory: " ++ CONFIG_DIR) ;;
  console_log ("Manifest path: " ++ manifestPath) ;;
  console_log "" ;;
  (* Check manifest *)
  present <- existsSync (str manifestPath) ;;
  (if present then
     console_log "[OK] Native messaging manifest is installed" ;;
     text <- readFileSync manifestPath ;;
     manifest <- JSON_parse text ;;
     path <- prop manifest "path" ;;
     shown <- template path ;;
     console_log ("     Path: " ++ shown) ;;
     there <- existsSync path ;;
     if there then console_log "[OK] Native host executable exists"
     else console_log "[!!] Native host executable NOT found"
   else console_log "[!!] Native messaging manifest NOT installed") ;;
  (* Check config *)
  let configPath := path_join [CONFIG_DIR; "config.json"] in
  present <- existsSync (str configPath) ;;
  (if present then
     console_log "[OK] Configuration file exists" ;;
     text <- readFileSync configPath ;;
     config <- JSON_parse text ;;
     extensionFolder <- prop config "extensionFolder" ;;
     if truthy extensionFolder then
       shown <- template extensionFolder ;;
       console_log ("     Extensions folder: " ++ shown) ;;
       there <- existsSync extensionFolder ;;
       if there then console_log "[OK] Extensions folder exists"
       else console_log "[!!] Extensions folder NOT found"
     else console_log "     Extensions folder: (not configured)"
   else console_log "[--] No configuration file") ;;
  console_log "".

Definition usage : I unit :=
  console_log "Rapunzel Native Helper Installer" ;;
  console_log "" ;;
  console_log "Usage: node install.js [command]" ;;
  console_log "" ;;
  console_log "Commands:" ;;
  console_log "  install     Install native messaging manifest (default)" ;;
  console_log "  uninstall   Remove native messaging manifest" ;;
  console_log "  status      Show installation status".

(** The script's top level; [args] is [process.argv.slice(2)]. *)
Definition run (args : list string) : I unit :=
  let command :=
    match args with
    | first :: _ => if String.eqb first EmptyString then "install" else first
    | [] => "install"
    end in
  if String.eqb command "install" then install
  else if String.eqb command "uninstall" then uninstall
  else if String.eqb command "status" then status
  else usage.

(** The state in which the script starts on [w]. *)
Definition start (w : World) : State :=
  {| i_world := w; console_out := []; console_err := []; written := [];
     removed := [] |}.

End Code.

End Installer.

(** ** The installer on the concrete machine *)

Module InstallerOnPosix.

Import Posix.

Local Open Scope string_scope.

Definition chmod (w : Fs) (p mode : string) : Fs * option string :=
  match assoc p (files w) with
  | Some _ => (w, None)
  | None => (w, Some ("ENOENT: no such file or directory, chmod '" ++ p ++ "'"))
  end.

Fixpoint without (p : string) (l : list (string * string)) : list (string * string) :=
  match l with
  | [] => []
  | (k, v) :: l' => if String.eqb p k then without p l' else (k, v) :: without p l'
  end.

Definition unlink (w : Fs) (p : string) : Fs * option string :=
  match assoc p (files w) with
  | Some _ => (set_files (without p (files w)) w, None)
  | None => (w, Some ("ENOENT: no such file or directory, unlink '" ++ p ++ "'"))
  end.

#[export] Instance installer_platform : InstallerPlatform platform := {|
  script_dir := "/opt/rapunzel/native-app";
  other_platform_name := "linux";
  fs_chmodSync := chmod;
  fs_unlinkSync := unlink;
|}.

(** A machine on which the helper has been unpacked and nothing is
    installed yet. *)
Definition unpacked : Fs :=
  {| dirs := [("/home/user", []);
              ("/opt/rapunzel/native-app",
               [{| d_name := "native-host.js"; d_isDirectory := false |}])];
     files := [("/opt/rapunzel/native-app/native-host.js", "#!/usr/bin/env node")];
     which_web_ext := None; spawned := 0; clock := 1700000000000 |}.

End InstallerOnPosix.

(** ** Vocabulary for the installer *)

Section InstallerVoc.

Context {P : Platform} {IP : InstallerPlatform P}.

Import Installer.

(** Nothing but the console has changed. *)
Definition only_printed (s s' : State) : Prop :=
  i_world s' = i_world s /\ written s' = written s /\ removed s' = removed s.

(** The file the manifest names: the batch wrapper on Windows, the script
    itself elsewhere. *)
Definition executable_path : string :=
  match os_platform with
  | win32 => batch_path
  | _ => path_join [script_dir; "native-host.js"%string]
  end.

Definition manifest_text : string :=
  JSON.stringify_indent 2 (createManifest executable_path).

Definition installer_config_text : string :=
  JSON.stringify_indent 2 default_config_json.

(** What [install] writes before it turns to the configuration. *)
Definition install_writes : list (string * string) :=
  match os_platform with
  | win32 =>
    [(batch_path, batchContent (path_join [script_dir; "native-host.js"%string]));
     (manifest_path, manifest_text)]
  | _ => [(manifest_path, manifest_text)]
  end.

End InstallerVoc.

(* ================================================================== *)
(** * The browser side ([background.js]) *)
(* ================================================================== *)

(** What the handlers of the background script ask of the browser, and the
    texts of the errors the engine throws. *)
Class Browser : Type := {
  runtime_getURL : string -> string;
  err_null_property : string -> string;
  err_not_a_function : string -> string;
  err_not_primitive : string;
}.

Module Background.

Section Code.

Context {B : Browser}.

Local Open Scope string_scope.

(** An element of [loadedExtensions]: a value that came in a message, or
    an object made by [handleLoadResult]. *)
Inductive element : Type :=
| Parsed (v : json)
| Made (o : object).

(** [loadedExtensions]: an array, or the other truthy value that an
    [extensions_list] message has put there. *)
Inductive loaded : Type :=
| Items (l : list element)
| Other (v : json).

(** The calls into the browser and the console, with their arguments. *)
Inductive event : Type :=
| console_log (label : string) (value : jsval)
| console_warn (label : string) (value : jsval)
| console_error (label : string) (value : jsval)
(** [{nativeAppVersion, nativeAppStatus: "connected", lastStatusCheck}] *)
| storage_set_status (nativeAppVersion : jsval) (lastStatusCheck : Z)
(** [{availableExtensions, extensionFolder, lastScan}] *)
| storage_set_scan (availableExtensions extensionFolder : jsval) (lastScan : Z)
(** [{loadedExtensions}] *)
| storage_set_loaded (loadedExtensions : loaded)
| runtime_sendMessage (message : object)
| notifications_create (options : object).

(** The variable [loadedExtensions] and, oldest first, the calls made. *)
Record State : Type := {
  loadedExtensions : loaded;
  events : list event;
}.

Definition Handler (A : Type) : Type := State -> (A + string) * State.

Definition ret {A} (a : A) : Handler A := fun s => (inl a, s).

Definition throw {A} (message : string) : Handler A := fun s => (inr message, s).

Definition bind {A B} (m : Handler A) (k : A -> Handler B) : Handler B :=
  fun s =>
    match m s with
    | (inl a, s') => k a s'
    | (inr e, s') => (inr e, s')
    end.

Notation "x <- m ;; k" := (bind m (fun x => k))
  (at level 61, m at next level, right associativity).
Notation "m ;; k" := (bind m (fun _ => k))
  (at level 61, right associativity).

Definition call (e : event) : Handler unit :=
  fun s => (inl tt, {| loadedExtensions := loadedExtensions s;
                       events := events s ++ [e] |}).

Definition get_loaded : Handler loaded := fun s => (inl (loadedExtensions s), s).

Definition set_loaded (l : loaded) : Handler unit :=
  fun s => (inl tt, {| loadedExtensions := l; events := events s |}).

(** [`${v}`]. *)
Definition template (v : jsval) : Handler string :=
  match js_toString v with
  | Some text => ret text
  | None => throw err_not_primitive
  end.

(** [a === b] for a value of the current message and one of an earlier
    message: objects and arrays of different messages are different
    objects. *)
Definition strict_eq (a b : jsval) : bool :=
  if is_ref a || is_ref b then false else prim_eqb a b.

(** [e.path]; [None] is the [TypeError] of reading a property of
    [null]. *)
Definition element_path (e : element) : option jsval :=
  match e with
  | Parsed v => get_prop v "path"
  | Made o => Some (obj_get "path" o)
  end.

(** ToBoolean of an element. *)
Definition element_truthy (e : element) : bool :=
  match e with
  | Parsed v => truthy (Some v)
  | Made _ => true
  end.

(** [l.find(e => e.path === path)]. *)
Fixpoint find_path (path : jsval) (l : list element) : Handler (option element) :=
  match l with
  | [] => ret None
  | e :: l' =>
    match element_path e with
    | None => throw (err_null_property "path")
    | Some p => if strict_eq p path then ret (Some e) else find_path path l'
    end
  end.

(** [l.filter(e => e.path !== path)]. *)
Fixpoint filter_path (path : jsval) (l : list element) : Handler (list element) :=
  match l with
  | [] => ret []
  | e :: l' =>
    match element_path e with
    | None => throw (err_null_property "path")
    | Some p =>
      kept <- filter_path path l' ;;
      if negb (strict_eq p path) then ret (e :: kept) else ret kept
    end
  end.

(** Show browser notification *)
Definition showNotification (title : string) (message : jsval) : Handler unit :=
  call (notifications_create
          (obj_literal
             [("type", str "basic");
              ("iconUrl", str (runtime_getURL "icons/icon-96.png"));
              ("title", str ("Rapunzel: " ++ title));
              ("message", message)])).

(** Handle status response *)
Definition handleStatusResponse (now : Z) (message : json) : Handler unit :=
  call (storage_set_status (field message "version") now).

(** Handle extensions list from native app *)
Definition handleExtensionsList (now : Z) (message : json) : Handler unit :=
  let extensions := field message "extensions" in
  set_loaded (match js_or extensions (Some (JArr [])) with
              | Some (JArr items) => Items (map Parsed items)
              | Some v => Other v
              | None => Items []
              end) ;;
  call (storage_set_scan extensions (field message "folder") now) ;;
  (* Notify popup if open *)
  call (runtime_sendMessage
          (obj_literal [("type", str "extensions_updated");
                        ("extensions", extensions)])).

(** Handle load result *)
Definition handleLoadResult (now : Z) (message : json) : Handler unit :=
  (if truthy (field message "success") then
     name <- template (field message "extensionName") ;;
     showNotification "Extension Loaded" (str ("Successfully loaded: " ++ name)) ;;
     (* Update loaded list *)
     current <- get_loaded ;;
     match current with
     | Items l =>
       found <- find_path (field message "path") l ;;
       (if negb (match found with
                 | Some e => element_truthy e
                 | None => false
                 end)
        then
          set_loaded
            (Items (l ++ [Made (obj_literal
                                  [("name", field message "extensionName");
                                   ("path", field message "path");
                                   ("loadedAt", Some (JNum now))])]))
        else ret tt) ;;
       after <- get_loaded ;;
       call (storage_set_loaded after)
     | Other _ => throw (err_not_a_function "loadedExtensions.find")
     end
   else
     name <- template (field message "extensionName") ;;
     error <- template (field message "error") ;;
     showNotification "Load Failed" (str ("Failed to load " ++ name ++ ": " ++ error))) ;;
  (* Notify popup *)
  call (runtime_sendMessage
          (obj_literal (("type", str "load_result") :: spread_props (Some message)))).

(** Handle unload result *)
Definition handleUnloadResult (message : json) : Handler unit :=
  (if truthy (field message "success") then
     name <- template (field message "extensionName") ;;
     showNotification "Extension Unloaded" (str ("Successfully unloaded: " ++ name)) ;;
     (* Remove from loaded list *)
     current <- get_loaded ;;
     match current with
     | Items l =>
       kept <- filter_path (field message "path") l ;;
       set_loaded (Items kept) ;;
       call (storage_set_loaded (Items kept))
     | Other _ => throw (err_not_a_function "loadedExtensions.filter")
     end
   else
     error <- template (field message "error") ;;
     showNotification "Unload Failed" (str ("Failed to unload: " ++ error))) ;;
  call (runtime_sendMessage
          (obj_literal (("type", str "unload_result") :: spread_props (Some message)))).

(** Handle error from native app *)
Definition handleError (message : json) : Handler unit :=
  call (console_error "[Rapunzel] Native app error:" (field message "error")) ;;
  showNotification "Error" (field message "error").

(** Handle messages from native app; [now] is what [Date.now()] answers
    while the message is handled. *)
Definition handleNativeMessage (now : Z) (message : json) : Handler unit :=
  call (console_log "[Rapunzel] Received from native:" (Some message)) ;;
  match get_prop message "type" with
  | None => throw (err_null_property "type")
  | Some type =>
    if is_case type "status" then handleStatusResponse now message
    else if is_case type "extensions_list" then handleExtensionsList now message
    else if is_case type "load_result" then handleLoadResult now message
    else if is_case type "unload_result" then handleUnloadResult message
    else if is_case type "error" then handleError message
    else call (console_warn "[Rapunzel] Unknown message type:" type)
  end.

(** The script as it starts: [let loadedExtensions = []]. *)
Definition start : State := {| loadedExtensions := Items []; events := [] |}.

End Code.

End Background.

(** ** The browser side *)

Section BackgroundVoc.

Context {B : Browser}.

Import Background.

Local Open Scope string_scope.

(** The state after a message for whose [type] the switch has no case. *)
Definition only_logged (message : json) (s : State) : State :=
  {| loadedExtensions := loadedExtensions s;
     events := events s
               ++ [console_log "[Rapunzel] Received from native:" (Some message);
                   console_warn "[Rapunzel] Unknown message type:"
                                (field message "type")] |}.

(** The call [showNotification] makes for a title and a text. *)
Definition notification (title text : string) : event :=
  notifications_create
    (obj_literal [("type", str "basic");
                  ("iconUrl", str (runtime_getURL "icons/icon-96.png"));
                  ("title", str ("Rapunzel: " ++ title));
                  ("message", str text)]).

(** The element [handleLoadResult] pushes for a message. *)
Definition pushed (now : Z) (message : json) : element :=
  Made (obj_literal [("name", field message "extensionName");
                     ("path", field message "path");
                     ("loadedAt", Some (JNum now))]).

(** Every element of [l] has a [path] to read, and none has [path]. *)
Definition none_has (path : jsval) (l : list element) : Prop :=
  Forall (fun e => exists p, element_path e = Some p /\ strict_eq p path = false) l.

(** A message of the type [type] that reports success for [path], with a
    name that can be printed. *)
Definition reports_success (type : string) (path : jsval) (message : json) : Prop :=
  field message "type" = str type
  /\ truthy (field message "success") = true
  /\ field message "path" = path
  /\ js_toString (field message "extensionName") <> None.

(** The types for which the switch of [handleNativeMessage] has no case,
    among those the helper sends. *)
Definition without_case : list string :=
  ["folder_set"; "load_all_result"; "unload_all_result"].

End BackgroundVoc.

(** ** The response to a [load] request *)

Section LoadVocabulary.

Context {P : Platform}.

(** The response of the [catch] in the [load] case. *)
Definition load_failure (error : string) (path : jsval) : object :=
  obj_literal [("type"%string, str "load_result");
               ("success"%string, Some (JBool false));
               ("error"%string, str error);
               ("path"%string, path)].

(** [m] writes one frame, of which [Q] holds, if it returns and nothing if
    it throws. *)
Definition answers_with {A : Type} (Q : json -> Prop) (m : M A) : Prop :=
  forall st,
    match m st with
    | (inl _, st') => exists r, Q r /\ stdout st' = stdout st ++ frame r
    | (inr _, st') => stdout st' = stdout st
    end.

End LoadVocabulary.

(** ** A browser and messages for the examples *)

Definition sample_browser : Browser :=
  {| runtime_getURL := fun p => ("moz-extension://rapunzel/" ++ p)%string;
     err_null_property := fun k => ("can't access property " ++ k)%string;
     err_not_a_function := fun f => (f ++ " is not a function")%string;
     err_not_primitive := "can't convert to a primitive type"%string |}.

(** What the helper sends when it has loaded and unloaded [/ext/a]. *)
Definition load_a_result : json :=
  JObj [("type"%string, JStr "load_result"); ("success"%string, JBool true);
        ("extensionName"%string, JStr "Extension A"); ("path"%string, JStr "/ext/a");
        ("method"%string, JStr "web-ext")].

Definition unload_a_result : json :=
  JObj [("type"%string, JStr "unload_result"); ("success"%string, JBool true);
        ("path"%string, JStr "/ext/a")].

(** A list that holds the descriptor of [/ext/b]. *)
Definition b_listed : list Background.element :=
  [Background.Parsed (JObj [("name"%string, JStr "Extension B");
                            ("path"%string, JStr "/ext/b")])].

(* ================================================================== *)
(** * Facts about the [JSON] built-in *)
(* ================================================================== *)

Module JSONFacts.

(** Induction on JSON values, with the hypothesis for every element of an
    array and every member of an object. *)
Lemma json_ind (Q : json -> Prop)
      (Hnull : Q JNull)
      (Hbool : forall b, Q (JBool b))
      (Hnum : forall n, Q (JNum n))
      (Hstr : forall s, Q (JStr s))
      (Harr : forall items, Forall Q items -> Q (JArr items))
      (Hobj : forall props, Forall (fun kv => Q (snd kv)) props -> Q (JObj props))
  : forall v, Q v.
Proof.
  fix go 1. intros [|b|n|s|items|props].
  - exact Hnull.
  - apply Hbool.
  - apply Hnum.
  - apply Hstr.
  - apply Harr. induction items as [|x items IH]; constructor; [apply go|exact IH].
  - apply Hobj. induction props as [|kv props IH]; constructor; [apply go|exact IH].
Qed.

Ltac each_char c :=
  destruct c as [[] [] [] [] [] [] [] []].

Lemma compact_arr items :
  compact (JArr items) =
  match items with
  | [] => ["["%char; "]"%char]
  | _ => "["%char :: join [","%char] (map compact items) ++ ["]"%char]
  end.
Proof. destruct items; reflexivity. Qed.

Lemma compact_obj props :
  compact (JObj props) =
  match props with
  | [] => ["{"%char; "}"%char]
  | _ => "{"%char :: join [","%char] (map member_text props) ++ ["}"%char]
  end.
Proof. destruct props; reflexivity. Qed.

(** *** Strings *)

Lemma parse_chars_quote_char c rest :
  parse_chars (quote_char c ++ rest) =
  match parse_chars rest with
  | Some (cs, r) => Some (c :: cs, r)
  | None => None
  end.
Proof. each_char c; reflexivity. Qed.

Lemma parse_chars_quoted l rest :
  parse_chars (flat_map quote_char l ++ dquote :: rest) = Some (l, rest).
Proof.
  induction l as [|c l IH]; [reflexivity|].
  cbn [flat_map]. rewrite <- app_assoc, parse_chars_quote_char, IH.
  reflexivity.
Qed.

Lemma parse_string_quote s rest :
  parse_string (quote s ++ rest) = Some (s, rest).
Proof.
  unfold quote, parse_string. cbn [app].
  rewrite Ascii.eqb_refl, <- app_assoc. cbn [app].
  rewrite parse_chars_quoted, string_of_list_ascii_of_string. reflexivity.
Qed.

Lemma quote_head s : exists r, quote s = dquote :: r.
Proof. unfold quote. eauto. Qed.

(** *** Numbers *)

Lemma read_uint_chars u rest :
  no_digit_ahead rest -> read_uint (uint_chars u ++ rest) = (u, rest).
Proof.
  intros H. induction u; cbn [uint_chars app read_uint];
    try (cbn; cbn in IHu; rewrite IHu; reflexivity).
  destruct rest as [|c r]; [reflexivity|].
  cbn [read_uint]. cbn in H. rewrite H. reflexivity.
Qed.

Lemma follow_no_digit rest : follow_ok rest -> no_digit_ahead rest.
Proof.
  destruct rest as [|c r]; [trivial|].
  cbn. intros [-> | [-> | ->]]; reflexivity.
Qed.

Lemma follow_no_fraction rest : follow_ok rest -> starts_fraction rest = false.
Proof.
  destruct rest as [|c r]; [trivial|].
  cbn. intros [-> | [-> | ->]]; reflexivity.
Qed.

Lemma to_uint_no_leading_zero p u : Pos.to_uint p <> Decimal.D0 u.
Proof.
  intros E.
  assert (N : Decimal.unorm (Pos.to_uint p) = Pos.to_uint p).
  { rewrite <- (DecimalPos.Unsigned.to_of (Pos.to_uint p)).
    rewrite DecimalPos.Unsigned.of_to. reflexivity. }
  rewrite E in N. unfold Decimal.unorm in N. cbn [Decimal.nzhead] in N.
  destruct (Decimal.nzhead u) eqn:Hz;
    try (apply (DecimalFacts.nzhead_nonzero u u); congruence).
  injection N as <-.
  exact (DecimalPos.Unsigned.to_uint_nonzero p E).
Qed.

Lemma uint_chars_head u :
  u <> Decimal.Nil ->
  exists c r, uint_chars u = c :: r /\ (c =? "-")%char = false
              /\ value_start c = true.
Proof.
  destruct u; intros H; try congruence; cbn [uint_chars];
    eexists; eexists; repeat split; reflexivity.
Qed.

Lemma parse_number_chars n rest :
  follow_ok rest ->
  parse_number (number_chars n ++ rest) = Some (JNum n, rest).
Proof.
  intros H.
  pose proof (DecimalZ.of_to n) as Hn.
  unfold number_chars, parse_number.
  destruct n as [|p|p]; cbn [Z.to_int] in *.
  - cbn. destruct rest as [|c r]; [reflexivity|].
    cbn in H. destruct H as [-> | [-> | ->]]; reflexivity.
  - destruct (uint_chars_head (Pos.to_uint p)) as (c & r & E & Hm & _).
    { apply DecimalPos.Unsigned.to_uint_nonnil. }
    assert (Hs : match uint_chars (Pos.to_uint p) ++ rest with
                 | [] => (false, uint_chars (Pos.to_uint p) ++ rest)
                 | c0 :: r0 =>
                   if (c0 =? "-")%char then (true, r0)
                   else (false, uint_chars (Pos.to_uint p) ++ rest)
                 end = (false, uint_chars (Pos.to_uint p) ++ rest)).
    { rewrite E. cbn [app]. rewrite Hm. reflexivity. }
    rewrite Hs. clear Hs.
    rewrite read_uint_chars by (apply follow_no_digit; exact H).
    rewrite follow_no_fraction by exact H.
    pose proof (to_uint_no_leading_zero p) as Hz.
    destruct (Pos.to_uint p) eqn:Eu; try (rewrite <- Hn; reflexivity).
    + discriminate E.
    + exfalso. exact (Hz _ eq_refl).
  - cbn [app]. change ("-" =? "-")%char with true. cbv iota.
    rewrite read_uint_chars by (apply follow_no_digit; exact H).
    rewrite follow_no_fraction by exact H.
    pose proof (to_uint_no_leading_zero p) as Hz.
    destruct (Pos.to_uint p) eqn:Eu; try (rewrite <- Hn; reflexivity).
    + exfalso. exact (DecimalPos.Unsigned.to_uint_nonnil p Eu).
    + exfalso. exact (Hz _ eq_refl).
Qed.

(** *** Values *)

Lemma number_chars_head n :
  exists c r, number_chars n = c :: r /\ number_start c = true.
Proof.
  unfold number_chars. destruct n as [|p|p]; cbn [Z.to_int].
  - eexists; eexists; split; reflexivity.
  - destruct (Pos.to_uint p) eqn:E;
      try (cbn [uint_chars]; eexists; eexists; split; reflexivity).
    exfalso. exact (DecimalPos.Unsigned.to_uint_nonnil p E).
  - eexists; eexists; split; reflexivity.
Qed.

Lemma number_start_value_start c : number_start c = true -> value_start c = true.
Proof. each_char c; intros H; try discriminate H; reflexivity. Qed.

Lemma value_start_not_ws c : value_start c = true -> is_ws c = false.
Proof. each_char c; intros H; try discriminate H; reflexivity. Qed.

Lemma value_start_not_bracket c :
  value_start c = true -> ("]" =? c)%char = false.
Proof. each_char c; intros H; try discriminate H; reflexivity. Qed.

Lemma value_start_not_brace c :
  value_start c = true -> ("}" =? c)%char = false.
Proof. each_char c; intros H; try discriminate H; reflexivity. Qed.

Lemma parse_value_number fuel c r :
  number_start c = true ->
  parse_value (S fuel) (c :: r) = parse_number (c :: r).
Proof. each_char c; intros H; try discriminate H; reflexivity. Qed.

Lemma parse_value_string fuel r :
  parse_value (S fuel) (dquote :: r) =
  match parse_string (dquote :: r) with
  | Some (s, rest) => Some (JStr s, rest)
  | None => None
  end.
Proof. reflexivity. Qed.

Lemma parse_value_array fuel r :
  parse_value (S fuel) ("["%char :: r) =
  if head_is "]"%char (skip_ws r) then Some (JArr [], tl (skip_ws r))
  else match parse_elements fuel r with
       | Some (vs, rest) => Some (JArr vs, rest)
       | None => None
       end.
Proof. reflexivity. Qed.

Lemma parse_value_object fuel r :
  parse_value (S fuel) ("{"%char :: r) =
  if head_is "}"%char (skip_ws r) then Some (JObj [], tl (skip_ws r))
  else match parse_members fuel r with
       | Some (ps, rest) => Some (JObj ps, rest)
       | None => None
       end.
Proof. reflexivity. Qed.

Lemma parse_elements_S fuel s :
  parse_elements (S fuel) s =
  match parse_value fuel s with
  | Some (v, r) =>
    match skip_ws r with
    | c :: r' =>
      if (c =? ",")%char then
        match parse_elements fuel r' with
        | Some (vs, rest) => Some (v :: vs, rest)
        | None => None
        end
      else if (c =? "]")%char then Some ([v], r')
      else None
    | [] => None
    end
  | None => None
  end.
Proof. reflexivity. Qed.

Lemma parse_members_S fuel s :
  parse_members (S fuel) s =
  match parse_string (skip_ws s) with
  | Some (k, r) =>
    match skip_ws r with
    | c :: r1 =>
      if (c =? ":")%char then
        match parse_value fuel r1 with
        | Some (v, r2) =>
          match skip_ws r2 with
          | c' :: r3 =>
            if (c' =? ",")%char then
              match parse_members fuel r3 with
              | Some (ps, rest) => Some ((k, v) :: ps, rest)
              | None => None
              end
            else if (c' =? "}")%char then Some ([(k, v)], r3)
            else None
          | [] => None
          end
        | None => None
        end
      else None
    | [] => None
    end
  | None => None
  end.
Proof. reflexivity. Qed.

Lemma compact_head v :
  exists c r, compact v = c :: r /\ value_start c = true.
Proof.
  destruct v as [|[]|n|s|items|props].
  - eexists; eexists; split; reflexivity.
  - eexists; eexists; split; reflexivity.
  - eexists; eexists; split; reflexivity.
  - destruct (number_chars_head n) as (c & r & E & H).
    exists c, r. split; [exact E|]. apply number_start_value_start, H.
  - eexists; eexists; split; reflexivity.
  - rewrite compact_arr. destruct items; eexists; eexists; split; reflexivity.
  - rewrite compact_obj. destruct props; eexists; eexists; split; reflexivity.
Qed.

Lemma parse_elements_join items :
  items <> [] ->
  Forall parses_back items ->
  forall fuel rest,
    (need_elements items <= fuel)%nat ->
    parse_elements fuel (join [","%char] (map compact items) ++ "]"%char :: rest)
    = Some (items, rest).
Proof.
  intros Hne Hall. induction Hall as [|x xs Hx Hxs IH]; [congruence|].
  intros fuel rest Hfuel. cbn [need_elements fold_right] in Hfuel.
  fold (need_elements xs) in Hfuel.
  destruct fuel as [|fuel]; [lia|]. rewrite parse_elements_S.
  destruct xs as [|y ys].
  - cbn [map join]. rewrite Hx by (cbn; auto; lia). reflexivity.
  - change (join [","%char] (map compact (x :: y :: ys)))
      with (compact x ++ [","%char] ++ join [","%char] (map compact (y :: ys))).
    rewrite <- !app_assoc. cbn [app].
    rewrite Hx by (cbn; auto; lia). cbn [skip_ws is_ws].
    change (skip_ws (","%char :: ?l)) with (","%char :: l).
    cbn. rewrite IH by (congruence || lia). reflexivity.
Qed.

Lemma skip_ws_keep c l : is_ws c = false -> skip_ws (c :: l) = c :: l.
Proof. intros H. cbn [skip_ws]. rewrite H. reflexivity. Qed.

Lemma skip_ws_quote k l : skip_ws (quote k ++ l) = quote k ++ l.
Proof. reflexivity. Qed.

Lemma parse_members_join props :
  props <> [] ->
  Forall (fun kv => parses_back (snd kv)) props ->
  forall fuel rest,
    (need_members props <= fuel)%nat ->
    parse_members fuel (join [","%char] (map member_text props) ++ "}"%char :: rest)
    = Some (props, rest).
Proof.
  intros Hne Hall. induction Hall as [|[k x] xs Hx Hxs IH]; [congruence|].
  intros fuel rest Hfuel. cbn [need_members fold_right snd] in Hfuel.
  fold (need_members xs) in Hfuel. cbn [snd] in Hx.
  destruct fuel as [|fuel]; [lia|]. rewrite parse_members_S.
  destruct xs as [|y ys].
  - cbn [map join]. unfold member_text. cbn [fst snd].
    rewrite <- app_assoc, skip_ws_quote, parse_string_quote.
    cbn [app]. rewrite skip_ws_keep by reflexivity.
    change (":" =? ":")%char with true. cbv iota.
    rewrite Hx by (cbn; auto; lia).
    rewrite skip_ws_keep by reflexivity. reflexivity.
  - change (join [","%char] (map member_text ((k, x) :: y :: ys)))
      with (member_text (k, x) ++ [","%char]
            ++ join [","%char] (map member_text (y :: ys))).
    unfold member_text at 1. cbn [fst snd].
    rewrite <- !app_assoc, skip_ws_quote, parse_string_quote.
    cbn [app]. rewrite skip_ws_keep by reflexivity.
    change (":" =? ":")%char with true. cbv iota.
    rewrite Hx by (cbn; auto; lia).
    rewrite skip_ws_keep by reflexivity.
    change ("," =? ",")%char with true. cbv iota.
    rewrite IH by (congruence || lia). reflexivity.
Qed.

Lemma skip_ws_value v l : skip_ws (compact v ++ l) = compact v ++ l.
Proof.
  destruct (compact_head v) as (c & r & E & H). rewrite E. cbn [app].
  apply skip_ws_keep, value_start_not_ws, H.
Qed.

Lemma parse_compact v : parses_back v.
Proof.
  induction v as [|b|n|s|items IH|props IH] using json_ind;
    intros fuel rest Hfuel Hrest.
  - destruct fuel; [cbn in Hfuel; lia|]. reflexivity.
  - destruct fuel; [cbn in Hfuel; lia|]. destruct b; reflexivity.
  - destruct fuel; [cbn in Hfuel; lia|].
    change (compact (JNum n)) with (number_chars n).
    destruct (number_chars_head n) as (c & r & E & H).
    rewrite E. cbn [app]. rewrite parse_value_number by exact H.
    change (c :: r ++ rest) with ((c :: r) ++ rest).
    rewrite <- E. apply parse_number_chars, Hrest.
  - destruct fuel; [cbn in Hfuel; lia|].
    change (compact (JStr s)) with (quote s).
    destruct (quote_head s) as (q & E). rewrite E. cbn [app].
    rewrite parse_value_string.
    change (dquote :: q ++ rest) with ((dquote :: q) ++ rest).
    rewrite <- E, parse_string_quote. reflexivity.
  - destruct fuel; [cbn in Hfuel; lia|].
    rewrite compact_arr. destruct items as [|x xs]; [reflexivity|].
    cbn [app]. rewrite parse_value_array, <- app_assoc. cbn [app].
    destruct (compact_head x) as (c & r & E & H).
    assert (Hh : head_is "]"%char
                   (skip_ws (join [","%char] (map compact (x :: xs))
                             ++ "]"%char :: rest)) = false).
    { cbn [map]. destruct xs; cbn [join map]; rewrite <- ?app_assoc;
        rewrite skip_ws_value, E; cbn [app head_is];
        apply value_start_not_bracket, H. }
    rewrite Hh.
    rewrite (parse_elements_join (x :: xs)); [reflexivity|congruence|exact IH|].
    cbn [need] in Hfuel. unfold need_elements. lia.
  - destruct fuel; [cbn in Hfuel; lia|].
    rewrite compact_obj. destruct props as [|[k x] xs]; [reflexivity|].
    cbn [app]. rewrite parse_value_object, <- app_assoc. cbn [app].
    assert (Hh : head_is "}"%char
                   (skip_ws (join [","%char] (map member_text ((k, x) :: xs))
                             ++ "}"%char :: rest)) = false).
    { cbn [map]. unfold member_text at 1. cbn [fst snd].
      destruct xs; cbn [join map]; rewrite <- ?app_assoc;
        rewrite skip_ws_quote; reflexivity. }
    rewrite Hh.
    rewrite (parse_members_join ((k, x) :: xs)); [reflexivity|congruence|exact IH|].
    cbn [need] in Hfuel. unfold need_members. lia.
Qed.

(** The fuel [parse] gives is enough for the text of any value. *)
Lemma length_join parts :
  parts <> [] ->
  (List.length (join [","%char] parts) + 1
   = fold_right (fun p n => List.length p + 1 + n) 0 parts)%nat.
Proof.
  induction parts as [|p ps IH]; [congruence|]. intros _.
  destruct ps as [|p' ps].
  - cbn. lia.
  - change (join [","%char] (p :: p' :: ps))
      with (p ++ [","%char] ++ join [","%char] (p' :: ps)).
    rewrite !length_app. cbn [fold_right List.length] in *.
    assert (p' :: ps <> []) as Hne by congruence. specialize (IH Hne). lia.
Qed.

Lemma need_le_length v : (need v <= List.length (compact v))%nat.
Proof.
  induction v as [|b|n|s|items IH|props IH] using json_ind.
  - cbn. lia.
  - destruct b; cbn; lia.
  - destruct (number_chars_head n) as (c & r & E & _).
    change (compact (JNum n)) with (number_chars n). rewrite E. cbn. lia.
  - destruct (quote_head s) as (q & E).
    change (compact (JStr s)) with (quote s). rewrite E. cbn. lia.
  - rewrite compact_arr. destruct items as [|x xs]; [cbn; lia|].
    cbn [List.length]. rewrite length_app. cbn [List.length].
    pose proof (length_join (map compact (x :: xs))) as Hj.
    assert (map compact (x :: xs) <> []) as Hne by (cbn; congruence).
    specialize (Hj Hne). cbn [need].
    assert (fold_right (fun x n => S (need x + n)) 0 (x :: xs)
            <= fold_right (fun p n => List.length p + 1 + n) 0
                          (map compact (x :: xs)))%nat; [|lia].
    clear Hj Hne. induction IH as [|y ys Hy _ IHys]; cbn; lia.
  - rewrite compact_obj. destruct props as [|x xs]; [cbn; lia|].
    cbn [List.length]. rewrite length_app. cbn [List.length].
    pose proof (length_join (map member_text (x :: xs))) as Hj.
    assert (map member_text (x :: xs) <> []) as Hne by (cbn; congruence).
    specialize (Hj Hne). cbn [need].
    assert (fold_right (fun kv n => S (need (snd kv) + n)) 0 (x :: xs)
            <= fold_right (fun p n => List.length p + 1 + n) 0
                          (map member_text (x :: xs)))%nat; [|lia].
    clear Hj Hne. induction IH as [|y ys Hy _ IHys]; [cbn; lia|].
    cbn [fold_right map]. unfold member_text at 1.
    rewrite length_app. cbn [List.length]. lia.
Qed.

(** [JSON.parse] inverts [JSON.stringify]. *)
Lemma parse_stringify v : JSON.parse (JSON.stringify v) = Some v.
Proof.
  unfold JSON.parse, JSON.stringify.
  rewrite list_ascii_of_string_of_list_ascii.
  fold (compact v). rewrite <- (List.app_nil_r (compact v)) at 2.
  rewrite parse_compact; [reflexivity| |exact I].
  pose proof (need_le_length v). lia.
Qed.

(** The text of a value is never empty. *)
Lemma stringify_nonempty v : (0 < String.length (JSON.stringify v))%nat.
Proof.
  unfold JSON.stringify. fold (compact v).
  destruct (compact_head v) as (c & r & E & _). rewrite E. cbn. lia.
Qed.

End JSONFacts.

(* ================================================================== *)
(** * Facts about the framer *)
(* ================================================================== *)

Module FramerFacts.

Import JSONFacts.

Lemma Z_of_byte_of_Z z : Z_of_byte (byte_of_Z z) = z mod 256.
Proof.
  unfold Z_of_byte, byte_of_Z.
  pose proof (Z.mod_pos_bound z 256 ltac:(lia)) as Hb.
  set (m := Z.to_N (z mod 256)).
  assert (Hm : (m < 256)%N) by (subst m; lia).
  rewrite (@Byte.to_of_N _ _ (eq_sym (byte_of_ascii_via_N (ascii_of_N m)))).
  rewrite N_ascii_embedding by exact Hm. subst m. lia.
Qed.

Lemma lor_low_high x c k :
  0 <= k -> 0 <= x < 2 ^ k -> Z.lor x (c * 2 ^ k) = x + c * 2 ^ k.
Proof.
  intros Hk Hx.
  assert (Hland : Z.land x (c * 2 ^ k) = 0).
  { apply Z.bits_inj'. intros i Hi.
    rewrite Z.land_spec, Z.bits_0, <- Z.shiftl_mul_pow2 by lia.
    destruct (Z.lt_ge_cases i k) as [Hlt|Hge].
    - rewrite (Z.shiftl_spec_low c k i) by lia. apply andb_false_r.
    - destruct (Z.eq_dec x 0) as [->|Hnz]; [rewrite Z.bits_0; reflexivity|].
      rewrite (Z.bits_above_log2 x i); [reflexivity|lia|].
      apply Z.lt_le_trans with k; [apply Z.log2_lt_pow2; lia|lia]. }
  rewrite <- Z.lxor_lor by exact Hland.
  symmetry. apply Z.add_nocarry_lxor, Hland.
Qed.

Lemma read_write_UInt32LE n :
  0 <= n < 2 ^ 32 -> readUInt32LE (writeUInt32LE n) = n.
Proof.
  intros Hn. unfold readUInt32LE, writeUInt32LE.
  rewrite !Z_of_byte_of_Z, !Z.shiftr_div_pow2, !Z.shiftl_mul_pow2 by lia.
  set (b0 := n mod 256). set (b1 := (n / 2 ^ 8) mod 256).
  set (b2 := (n / 2 ^ 16) mod 256). set (b3 := (n / 2 ^ 24) mod 256).
  assert (H0 : 0 <= b0 < 256) by (apply Z.mod_pos_bound; lia).
  assert (H1 : 0 <= b1 < 256) by (apply Z.mod_pos_bound; lia).
  assert (H2 : 0 <= b2 < 256) by (apply Z.mod_pos_bound; lia).
  assert (H3 : 0 <= b3 < 256) by (apply Z.mod_pos_bound; lia).
  rewrite (lor_low_high (b2 * 2 ^ 16) b3 24) by lia.
  replace (b2 * 2 ^ 16 + b3 * 2 ^ 24) with ((b2 + b3 * 2 ^ 8) * 2 ^ 16) by lia.
  rewrite (lor_low_high (b1 * 2 ^ 8) _ 16) by lia.
  replace (b1 * 2 ^ 8 + (b2 + b3 * 2 ^ 8) * 2 ^ 16)
    with ((b1 + b2 * 2 ^ 8 + b3 * 2 ^ 16) * 2 ^ 8) by lia.
  rewrite (lor_low_high b0 _ 8) by lia.
  subst b0 b1 b2 b3.
  pose proof (Z.div_mod n 256 ltac:(lia)) as E0.
  pose proof (Z.div_mod (n / 2 ^ 8) 256 ltac:(lia)) as E1.
  pose proof (Z.div_mod (n / 2 ^ 16) 256 ltac:(lia)) as E2.
  assert (E3 : (n / 2 ^ 24) mod 256 = n / 2 ^ 24).
  { apply Z.mod_small. split; [apply Z.div_pos; lia|].
    apply Z.div_lt_upper_bound; lia. }
  replace (n / 2 ^ 8 / 256) with (n / 2 ^ 16) in E1
    by (rewrite Z.div_div by lia; reflexivity).
  replace (n / 2 ^ 16 / 256) with (n / 2 ^ 24) in E2
    by (rewrite Z.div_div by lia; reflexivity).
  change (2 ^ 8) with 256 in *. lia.
Qed.

Lemma Buffer_length_from s :
  Buffer_length (Buffer_from s) = Z.of_nat (String.length s).
Proof.
  unfold Buffer_length, Buffer_from, list_byte_of_string.
  rewrite length_map. f_equal.
  induction s as [|c s IH]; [reflexivity|]. cbn. rewrite IH. reflexivity.
Qed.

Lemma Buffer_toString_from s : Buffer_toString (Buffer_from s) = s.
Proof. apply string_of_list_byte_of_string. Qed.

(** A frame that is in the accepted range is read back, whatever follows
    it on the stream. *)
Lemma readMessage_frame v rest :
  Buffer_length (Buffer_from (JSON.stringify v)) < 1024 * 1024 ->
  readMessage (frame v ++ rest) = (Resolved v, rest).
Proof.
  intros Hlen. unfold frame, readMessage.
  set (body := Buffer_from (JSON.stringify v)) in *.
  assert (Hpos : 0 < Buffer_length body).
  { subst body. rewrite Buffer_length_from.
    pose proof (stringify_nonempty v). lia. }
  rewrite <- app_assoc.
  change (firstn 4 (writeUInt32LE (Buffer_length body) ++ body ++ rest))
    with (writeUInt32LE (Buffer_length body)).
  change (skipn 4 (writeUInt32LE (Buffer_length body) ++ body ++ rest))
    with (body ++ rest).
  change (Nat.eqb (List.length (writeUInt32LE (Buffer_length body))) 4) with true.
  cbv iota.
  rewrite read_write_UInt32LE by lia.
  replace (0 <? Buffer_length body) with true by (symmetry; apply Z.ltb_lt; lia).
  replace (Buffer_length body <? 1024 * 1024) with true
    by (symmetry; apply Z.ltb_lt; lia).
  cbn [andb].
  replace (Z.to_nat (Buffer_length body)) with (List.length body)
    by (unfold Buffer_length; rewrite Nat2Z.id; reflexivity).
  rewrite firstn_app, Nat.sub_diag, firstn_all, firstn_O, List.app_nil_r.
  rewrite skipn_app, Nat.sub_diag, skipn_all. cbn [skipn app].
  rewrite Z.eqb_refl.
  subst body. rewrite Buffer_toString_from, parse_stringify. reflexivity.
Qed.

(** The same as a call, when no listener is left on stdin. *)
Lemma readMessage_on_frame ended v rest :
  Buffer_length (Buffer_from (JSON.stringify v)) < 1048576 ->
  readMessage_on (Listening ended) (frame v ++ rest)
  = (Resolved v, Listening ended, rest).
Proof.
  intros H. unfold readMessage_on. rewrite readMessage_frame by exact H. reflexivity.
Qed.

End FramerFacts.

(* ================================================================== *)
(** * Reasoning about computations *)
(* ================================================================== *)

Section Effects.

Context {P : Platform}.

Local Open Scope host_scope.

Variable I : HostState -> Prop.

Lemma bind_ret {A B} (a : A) (k : A -> M B) : bind (ret a) k = k a.
Proof. reflexivity. Qed.

Lemma preserves_ret {A} (a : A) : preserves I (ret a).
Proof. intros st H. exact H. Qed.

Lemma preserves_throw {A} e : preserves I (@throw P A e).
Proof. intros st H. exact H. Qed.

Lemma preserves_get_state : preserves I get_state.
Proof. intros st H. exact H. Qed.

Lemma preserves_bind {A B} (m : M A) (k : A -> M B) :
  preserves I m -> (forall a, preserves I (k a)) -> preserves I (bind m k).
Proof.
  intros Hm Hk st H. unfold bind. specialize (Hm st H).
  destruct (m st) as [[a|e] st']; cbn in *; [apply Hk, Hm|exact Hm].
Qed.

Lemma preserves_try_catch {A} (m : M A) h :
  preserves I m -> (forall e, preserves I (h e)) -> preserves I (try_catch m h).
Proof.
  intros Hm Hh st H. unfold try_catch. specialize (Hm st H).
  destruct (m st) as [[a|e] st']; cbn in *; [exact Hm|apply Hh, Hm].
Qed.

Lemma preserves_for_of {A S} (l : list A) (body : A -> S -> M S) s :
  (forall a s', preserves I (body a s')) -> preserves I (for_of l body s).
Proof.
  intros Hb. revert s. induction l as [|a l IH]; intros s st H; [exact H|].
  cbn [for_of]. specialize (Hb a s st H).
  destruct (body a s st) as [[s'|e] st']; cbn in *; [apply IH, Hb|exact Hb].
Qed.

Lemma preserves_rethrow {S} (r : S * option string) : preserves I (rethrow r).
Proof. intros st H. unfold rethrow. destruct (snd r); exact H. Qed.

Lemma preserves_modify f :
  (forall st, I st -> I (f st)) -> preserves I (modify f).
Proof. intros Hf st H. apply Hf, H. Qed.

Lemma preserves_existsSync p : preserves I (existsSync p).
Proof. intros st H. exact H. Qed.

Lemma preserves_readdirSync p : preserves I (readdirSync p).
Proof. intros st H. exact H. Qed.

Lemma preserves_readFileSync p : preserves I (readFileSync p).
Proof. intros st H. exact H. Qed.

Lemma preserves_js_path_join args : preserves I (js_path_join args).
Proof. intros st H. unfold js_path_join. destruct (all_strings args); exact H. Qed.

Lemma preserves_JSON_parse text : preserves I (JSON_parse text).
Proof. intros st H. unfold JSON_parse. destruct (JSON.parse text); exact H. Qed.

Lemma preserves_prop v k : preserves I (prop v k).
Proof. intros st H. unfold prop. destruct (get_prop v k); exact H. Qed.

Hypothesis Henv : env_stable I.

Lemma preserves_may_throw f : preserves I (may_throw f).
Proof.
  intros st H. unfold may_throw.
  destruct (f (world st)) as [w [e|]]; apply Henv, H.
Qed.

Lemma preserves_returns {A} (f : World -> World * (A + string)) :
  preserves I (returns f).
Proof.
  intros st H. unfold returns. destruct (f (world st)) as [w r]. apply Henv, H.
Qed.

Lemma preserves_unref proc : preserves I (unref proc).
Proof. apply preserves_modify. intros st H. apply Henv, H. Qed.

Lemma preserves_logError label detail : preserves I (logError label detail).
Proof. apply preserves_modify. intros st H. apply Henv, H. Qed.

End Effects.

Create HintDb pres.

#[global] Hint Resolve preserves_ret preserves_throw preserves_get_state
  preserves_rethrow preserves_existsSync preserves_readdirSync
  preserves_readFileSync preserves_js_path_join preserves_JSON_parse
  preserves_prop preserves_may_throw preserves_returns preserves_unref
  preserves_logError : pres.

(** Walk down a computation: binds, handlers, loops and case analyses are
    taken apart, the leaves are closed from the hint database. *)
Ltac pres_step :=
  first
    [ solve [eauto 3 with pres]
    | apply preserves_bind; [|intros ?]
    | apply preserves_try_catch; [|intros ?]
    | apply preserves_for_of; intros ? ?
    | apply preserves_modify; intros ? ?; solve [eauto 3 with pres]
    | match goal with
      | |- preserves _ (if ?b then _ else _) => destruct b
      | |- preserves _ (match ?x with _ => _ end) => destruct x
      | |- preserves _ (let _ := _ in _) => cbv zeta
      end ].

Ltac pres := repeat pres_step.

(* ================================================================== *)
(** * What each function of the helper maintains *)
(* ================================================================== *)

Section Frames.

Context {P : Platform}.

Local Open Scope host_scope.

Variable I : HostState -> Prop.
Hypothesis Henv : env_stable I.

Lemma getFirefoxPath_pure st : exists v, getFirefoxPath st = (inl v, st).
Proof.
  unfold getFirefoxPath, bind, get_state.
  destruct (truthy _ && fs_existsSync _ _); eexists; reflexivity.
Qed.

Lemma preserves_getFirefoxPath : preserves I getFirefoxPath.
Proof.
  intros st H. destruct (getFirefoxPath_pure st) as [v E]. rewrite E. exact H.
Qed.

Lemma preserves_ensure_config_dir : preserves I ensure_config_dir.
Proof. unfold ensure_config_dir, mkdirSync. pres. Qed.

Local Hint Resolve preserves_getFirefoxPath preserves_ensure_config_dir : pres.

Lemma preserves_loadConfig : config_stable I -> preserves I loadConfig.
Proof. intros Hc. unfold loadConfig. pres. Qed.

Lemma preserves_scan_item folder item extensions :
  preserves I (scan_item folder item extensions).
Proof. unfold scan_item. pres. Qed.

Local Hint Resolve preserves_scan_item : pres.

Lemma preserves_scanExtensionsFolder : preserves I scanExtensionsFolder.
Proof. unfold scanExtensionsFolder. pres. Qed.

Lemma preserves_findWebExt : preserves I findWebExt.
Proof. unfold findWebExt, execSync. pres. Qed.

Lemma preserves_unloadExtension extensionPath :
  unload_stable I -> preserves I (unloadExtension extensionPath).
Proof. intros Hu. unfold unloadExtension, kill. pres. Qed.

Lemma preserves_sendMessage message :
  out_stable I -> preserves I (sendMessage message).
Proof. intros Ho. unfold sendMessage. pres. Qed.

Local Hint Resolve preserves_unloadExtension preserves_sendMessage : pres.

Lemma preserves_report error : out_stable I -> preserves I (report error).
Proof. intros Ho. unfold report. pres. Qed.

Lemma preserves_unload_one extPath results :
  unload_stable I -> preserves I (unload_one extPath results).
Proof. intros Hu. unfold unload_one. pres. Qed.

Lemma preserves_for_of_keys {S} (body : MapKey -> S -> M S) s :
  (forall k s', preserves I (body k s')) -> preserves I (for_of_keys body s).
Proof. intros Hb. unfold for_of_keys. pres. Qed.

(** A step of which something, [Q], is known of what it returns. *)
Lemma preserves_bind_knowing {A B} (Q : A -> Prop) (m : M A) (k : A -> M B) :
  preserves I m ->
  (forall st a st', m st = (inl a, st') -> Q a) ->
  (forall a, Q a -> preserves I (k a)) ->
  preserves I (bind m k).
Proof.
  intros Hm HQ Hk st H. unfold bind. specialize (Hm st H).
  destruct (m st) as [[a|e] st'] eqn:E; cbn in *; [|exact Hm].
  apply (Hk a (HQ st a st' E)), Hm.
Qed.

Lemma preserves_for_of_in {A S} (l : list A) (body : A -> S -> M S) s :
  (forall a s', In a l -> preserves I (body a s')) -> preserves I (for_of l body s).
Proof.
  revert s. induction l as [|a l IH]; intros s Hb st H; [exact H|].
  cbn [for_of]. pose proof (Hb a s (or_introl eq_refl) st H) as Ha.
  destruct (body a s st) as [[s'|e] st']; cbn in *; [|exact Ha].
  apply IH; [|exact Ha]. intros b s0 Hin. apply Hb. right. exact Hin.
Qed.

(** *** The functions that change files *)

(** [I] may depend on the files changed, as long as changes to the files
    of which [harmless] holds do not break it. *)
Variable harmless : string -> Prop.
Hypothesis Hfiles : file_stable harmless I.

Lemma changes_file_within c :
  harmless (changed_file c) -> preserves I (changes_file c).
Proof. intros Hc st H. apply Hfiles; assumption. Qed.

Lemma writeFileSync_within p data :
  harmless p -> preserves I (writeFileSync p data).
Proof.
  intros Hp. unfold writeFileSync.
  apply preserves_bind; [apply changes_file_within, Hp|intros _; pres].
Qed.

Lemma copyFileSync_within src dest :
  harmless dest -> preserves I (copyFileSync src dest).
Proof.
  intros Hp. unfold copyFileSync.
  apply preserves_bind; [apply changes_file_within, Hp|intros _; pres].
Qed.

Lemma saveConfig_within : harmless CONFIG_FILE -> preserves I saveConfig.
Proof.
  intros Hc. unfold saveConfig.
  apply preserves_try_catch; [|intros e; pres].
  apply preserves_bind; [pres|intros _].
  apply preserves_bind; [pres|intros st0]. apply writeFileSync_within, Hc.
Qed.

Lemma copy_dir_trans dest d d' : copy_dir dest d -> copy_dir d d' -> copy_dir dest d'.
Proof.
  intros Hd. induction 1 as [|d1 name H1 IH Hn]; [exact Hd|].
  apply copy_dir_sub; assumption.
Qed.

Lemma copyDirSync_within depth : forall src dest,
  (forall file, copied_below dest file -> harmless file) ->
  preserves I (copyDirSync depth src dest).
Proof.
  induction depth as [|depth IH]; intros src dest Hdest; cbn [copyDirSync]; [pres|].
  apply preserves_bind; [unfold mkdirSync; pres|intros _].
  apply (preserves_bind_knowing (Forall (fun entry => listed (d_name entry)))).
  - pres.
  - intros st entries st' E. unfold readdirSync in E.
    apply Forall_forall. intros entry Hin.
    exists (world st), src, entries. split.
    + injection E as E _. exact E.
    + apply in_map, Hin.
  - intros entries Hentries.
    apply preserves_bind; [|intros r; pres].
    apply preserves_for_of_in. intros entry [] Hin.
    rewrite Forall_forall in Hentries. specialize (Hentries entry Hin).
    unfold copy_entry. apply preserves_bind; [pres|intros srcPath].
    destruct (d_isDirectory entry).
    + apply IH. intros file (d & name & Hd & Hname & ->).
      apply Hdest. exists d, name. split; [|split; [exact Hname|reflexivity]].
      apply (copy_dir_trans dest (path_join [dest; d_name entry])); [|exact Hd].
      apply copy_dir_sub; [apply copy_dir_top|exact Hentries].
    + apply copyFileSync_within, Hdest.
      exists dest, (d_name entry). split; [apply copy_dir_top|].
      split; [exact Hentries|reflexivity].
Qed.

Hypothesis Hprofile : forall file, in_profile file -> harmless file.

(** It touches neither the map nor stdout nor the configuration, and
    changes only files of the temporary profile. *)
Lemma profile_branch_within extensionPath :
  preserves I (profile_branch extensionPath).
Proof.
  unfold profile_branch.
  apply preserves_bind; [pres|intros firefoxPath].
  destruct (negb (truthy firefoxPath)); [pres|].
  apply preserves_bind; [pres|intros st0]. cbv zeta.
  set (stamp := string_of_list_ascii (number_chars (Date_now (world st0)))).
  apply preserves_bind; [unfold mkdirSync; pres|intros _].
  apply preserves_bind; [|intros _].
  { apply writeFileSync_within, Hprofile. exists stamp. left. reflexivity. }
  apply preserves_bind; [|intros _; pres].
  apply copyDirSync_within. intros file Hfile.
  apply Hprofile. exists stamp. right. exact Hfile.
Qed.

Lemma loadExtensionViaRDP_within extensionPath :
  load_stable I -> preserves I (loadExtensionViaRDP extensionPath).
Proof.
  intros Hl. unfold loadExtensionViaRDP.
  apply preserves_bind; [apply preserves_findWebExt|intros webExtPath].
  destruct (truthy webExtPath); [|apply profile_branch_within].
  unfold spawn. pres.
Qed.

Local Hint Resolve loadExtensionViaRDP_within : pres.

Lemma load_one_within serial ext results :
  load_stable I -> preserves I (load_one serial ext results).
Proof. intros Hl. unfold load_one. pres. Qed.

Local Hint Resolve load_one_within preserves_unload_one saveConfig_within
  preserves_scanExtensionsFolder : pres.

(** The dispatcher maintains what all of its handlers maintain; only
    [set_folder] assigns to the configuration and saves it. *)
Lemma handleMessage_within serial message :
  load_stable I -> unload_stable I -> out_stable I ->
  (is_case (field message "action") "set_folder" = false
   \/ (harmless CONFIG_FILE /\ config_stable I)) ->
  preserves I (handleMessage serial message).
Proof.
  intros Hl Hu Ho Hset. unfold handleMessage, prop, field in *.
  destruct (get_prop message "action") as [action|]; [|pres].
  rewrite bind_ret. cbv beta zeta.
  destruct (is_case action "status"); [pres|].
  destruct (is_case action "scan"); [pres|].
  destruct (is_case action "set_folder").
  { destruct Hset as [Hset|[Hs Hc]]; [discriminate Hset|]. pres. }
  destruct (is_case action "load"); [pres|].
  destruct (is_case action "load_all"); [pres|].
  destruct (is_case action "unload"); [pres|].
  destruct (is_case action "unload_all"); [|pres].
  apply preserves_bind; [apply preserves_for_of_keys; intros; pres|intros ?].
  pres.
Qed.

Lemma turn_within serial message :
  load_stable I -> unload_stable I -> out_stable I ->
  (is_case (field message "action") "set_folder" = false
   \/ (harmless CONFIG_FILE /\ config_stable I)) ->
  preserves I (turn serial message).
Proof.
  intros Hl Hu Ho Hset. unfold turn.
  apply preserves_try_catch; [apply handleMessage_within; assumption|].
  intros e. apply preserves_report, Ho.
Qed.

End Frames.

(** The same for a property that no change to a file can break. *)
Section FramesWhateverTheFiles.

Context {P : Platform}.

Variable I : HostState -> Prop.
Hypothesis Henv : env_stable I.
Hypothesis Hsave : save_stable I.

Lemma file_stable_any : file_stable (fun _ => True) I.
Proof. intros c st _ H. apply Hsave, H. Qed.

Lemma preserves_saveConfig : preserves I saveConfig.
Proof. apply (saveConfig_within I Henv (fun _ => True) file_stable_any). trivial. Qed.

Lemma preserves_copyDirSync depth src dest :
  preserves I (copyDirSync depth src dest).
Proof.
  apply (copyDirSync_within I Henv (fun _ => True) file_stable_any). intros; trivial.
Qed.

Lemma preserves_profile_branch extensionPath :
  preserves I (profile_branch extensionPath).
Proof.
  apply (profile_branch_within I Henv (fun _ => True) file_stable_any). intros; trivial.
Qed.

Lemma preserves_loadExtensionViaRDP extensionPath :
  load_stable I -> preserves I (loadExtensionViaRDP extensionPath).
Proof.
  apply (loadExtensionViaRDP_within I Henv (fun _ => True) file_stable_any).
  intros; trivial.
Qed.

Lemma preserves_load_one serial ext results :
  load_stable I -> preserves I (load_one serial ext results).
Proof.
  apply (load_one_within I Henv (fun _ => True) file_stable_any). intros; trivial.
Qed.

Lemma preserves_handleMessage serial message :
  load_stable I -> unload_stable I -> out_stable I ->
  (is_case (field message "action") "set_folder" = false \/ config_stable I) ->
  preserves I (handleMessage serial message).
Proof.
  intros Hl Hu Ho Hset.
  apply (handleMessage_within I Henv (fun _ => True) file_stable_any); try assumption.
  - intros; trivial.
  - destruct Hset as [Hset|Hc]; [left; exact Hset|right; split; [trivial|exact Hc]].
Qed.

Lemma preserves_turn serial message :
  load_stable I -> unload_stable I -> out_stable I ->
  (is_case (field message "action") "set_folder" = false \/ config_stable I) ->
  preserves I (turn serial message).
Proof.
  intros Hl Hu Ho Hset. unfold turn.
  apply preserves_try_catch; [apply preserves_handleMessage; assumption|].
  intros e. apply preserves_report; assumption.
Qed.

End FramesWhateverTheFiles.

(* ================================================================== *)
(** * Response frames *)
(* ================================================================== *)

Section Responses.

Context {P : Platform}.

Local Open Scope host_scope.

Lemma quiet_stdout {A} (m : M A) st : quiet m -> stdout (snd (m st)) = stdout st.
Proof. intros H. apply (H (stdout st) st). reflexivity. Qed.

Lemma wrote_refl st : wrote 0 st st.
Proof. exists []. split; [reflexivity|]. cbn. rewrite List.app_nil_r. reflexivity. Qed.

Lemma wrote_same st st' : stdout st' = stdout st -> wrote 0 st st'.
Proof.
  intros E. exists []. split; [reflexivity|]. cbn.
  rewrite List.app_nil_r. exact E.
Qed.

Lemma wrote_trans a b st st1 st2 :
  wrote a st st1 -> wrote b st1 st2 -> wrote (a + b) st st2.
Proof.
  intros (r1 & L1 & E1) (r2 & L2 & E2). exists (r1 ++ r2)%list. split.
  - rewrite length_app. lia.
  - rewrite E2, E1, map_app, concat_app, <- app_assoc. reflexivity.
Qed.

Lemma sendMessage_spec message st :
  sendMessage message st =
  (inl tt, set_stdout (stdout st ++ frame (to_json message)) st).
Proof.
  unfold sendMessage, bind, modify, frame. cbn.
  unfold set_stdout. cbn. rewrite <- app_assoc. reflexivity.
Qed.

Lemma always_sendMessage message : always 1 (sendMessage message).
Proof.
  intros st. rewrite sendMessage_spec. eexists; eexists. split; [reflexivity|].
  exists [to_json message]. split; [reflexivity|]. cbn.
  rewrite List.app_nil_r. reflexivity.
Qed.

Lemma always_bind {A B} a b (m : M A) (k : A -> M B) :
  always a m -> (forall x, always b (k x)) -> always (a + b) (bind m k).
Proof.
  intros Hm Hk st. destruct (Hm st) as (x & st1 & E1 & W1).
  destruct (Hk x st1) as (y & st2 & E2 & W2).
  exists y, st2. unfold bind. rewrite E1. split; [exact E2|].
  eapply wrote_trans; eassumption.
Qed.

Lemma always_quiet {A} (m : M A) : total m -> quiet m -> always 0 m.
Proof.
  intros Ht Hq st. destruct (Ht st) as [a Ea].
  exists a, (snd (m st)). split.
  - destruct (m st) as [r st']. cbn in *. rewrite Ea. reflexivity.
  - apply wrote_same, quiet_stdout, Hq.
Qed.

Lemma always_answers {A} n (m : M A) : always n m -> answers n m.
Proof.
  intros H st. destruct (H st) as (a & st' & E & W). rewrite E. exact W.
Qed.

Lemma answers_throw {A} n e : answers n (@throw P A e).
Proof. intros st. reflexivity. Qed.

Lemma answers_bind {A B} n (m : M A) (k : A -> M B) :
  quiet m -> (forall x, answers n (k x)) -> answers n (bind m k).
Proof.
  intros Hq Hk st. unfold bind. pose proof (quiet_stdout m st Hq) as E.
  destruct (m st) as [[x|e] st1]; cbn in E; [|exact E].
  specialize (Hk x st1). destruct (k x st1) as [[y|e] st2].
  - destruct Hk as (rs & L & E2). exists rs. split; [exact L|].
    rewrite E2, E. reflexivity.
  - rewrite Hk. exact E.
Qed.

Lemma always_try_catch {A} n (m : M A) h :
  answers n m -> (forall e, always n (h e)) -> always n (try_catch m h).
Proof.
  intros Hm Hh st. unfold try_catch. specialize (Hm st).
  destruct (m st) as [[a|e] st1].
  - exists a, st1. split; [reflexivity|exact Hm].
  - destruct (Hh e st1) as (a & st2 & E & (rs & L & W)).
    exists a, st2. split; [exact E|]. exists rs. split; [exact L|].
    rewrite W, Hm. reflexivity.
Qed.

Lemma always_try {A} n (m : M A) h : always n m -> always n (try_catch m h).
Proof.
  intros Hm st. destruct (Hm st) as (a & st' & E & W).
  exists a, st'. unfold try_catch. rewrite E. split; [reflexivity|exact W].
Qed.

(** *** Functions that always return *)

Lemma total_ret {A} (a : A) : total (ret a).
Proof. intros st. exists a. reflexivity. Qed.

Lemma total_modify f : total (modify f).
Proof. intros st. exists tt. reflexivity. Qed.

Lemma total_get_state : total get_state.
Proof. intros st. exists st. reflexivity. Qed.

Lemma total_bind {A B} (m : M A) (k : A -> M B) :
  total m -> (forall a, total (k a)) -> total (bind m k).
Proof.
  intros Hm Hk st. unfold bind. destruct (Hm st) as [a Ea].
  destruct (m st) as [r st']. cbn in Ea. subst r. apply Hk.
Qed.

Lemma total_try_catch {A} (m : M A) h :
  (forall e, total (h e)) -> total (try_catch m h).
Proof.
  intros Hh st. unfold try_catch. destruct (m st) as [[a|e] st'].
  - exists a. reflexivity.
  - apply Hh.
Qed.

Lemma total_for_of {A S} (l : list A) (body : A -> S -> M S) s :
  total (for_of l body s).
Proof.
  revert s. induction l as [|a l IH]; intros s st; cbn [for_of].
  - eexists. reflexivity.
  - destruct (body a s st) as [[s'|e] st']; [apply IH|eexists; reflexivity].
Qed.

Lemma total_logError label detail : total (logError label detail).
Proof. apply total_modify. Qed.

Lemma total_saveConfig : total saveConfig.
Proof. apply total_try_catch. intros e. apply total_logError. Qed.

Lemma total_scanExtensionsFolder : total scanExtensionsFolder.
Proof.
  unfold scanExtensionsFolder. apply total_bind; [apply total_get_state|].
  intros st. destruct (_ || _); [apply total_ret|].
  apply total_try_catch. intros e.
  apply total_bind; [apply total_logError|intros _; apply total_ret].
Qed.

Lemma total_unloadExtension k : total (unloadExtension k).
Proof.
  unfold unloadExtension. apply total_bind; [apply total_get_state|].
  intros st. destruct (Map_get k (loadedExtensions st)); [|apply total_ret].
  apply total_bind.
  - apply total_try_catch. intros e. apply total_ret.
  - intros _. apply total_bind; [apply total_modify|intros _; apply total_ret].
Qed.

End Responses.

#[global] Hint Resolve preserves_getFirefoxPath preserves_ensure_config_dir
  preserves_saveConfig preserves_loadConfig preserves_scan_item
  preserves_scanExtensionsFolder preserves_findWebExt preserves_copyDirSync
  preserves_profile_branch preserves_loadExtensionViaRDP
  preserves_unloadExtension preserves_sendMessage preserves_report
  preserves_load_one preserves_unload_one : pres.

(** A property that only reads some fields is stable under assignments to
    the others. *)
Ltac stable :=
  unfold env_stable, load_stable, unload_stable, out_stable, save_stable,
    config_stable;
  repeat split; intros; cbv beta in *;
  repeat match goal with H : _ /\ _ |- _ => destruct H end;
  assumption.

#[global] Hint Extern 1 (env_stable _) => solve [stable] : pres.
#[global] Hint Extern 1 (load_stable _) => solve [stable] : pres.
#[global] Hint Extern 1 (unload_stable _) => solve [stable] : pres.
#[global] Hint Extern 1 (out_stable _) => solve [stable] : pres.
#[global] Hint Extern 1 (save_stable _) => solve [stable] : pres.
#[global] Hint Extern 1 (config_stable _) => solve [stable] : pres.

Ltac quiet_tac :=
  let o := fresh "o" in
  intros o;
  first [ solve [eauto 4 with pres]
        | apply preserves_for_of_keys; intros; solve [eauto 4 with pres]
        | pres ].

Ltac answers_step :=
  lazymatch goal with
  | |- answers _ (sendMessage _) => apply always_answers, always_sendMessage
  | |- answers _ (throw _) => apply answers_throw
  | |- answers _ (bind _ _) => apply answers_bind; [solve [quiet_tac]|intros ?]
  | |- answers _ (if ?b then _ else _) => destruct b
  | |- answers _ (match ?x with _ => _ end) => destruct x
  | |- answers _ (let _ := _ in _) => cbv zeta
  end.

(* ================================================================== *)
(** * The dispatcher: one response for a request, two for [set_folder] *)
(* ================================================================== *)

Section Dispatcher.

Context {P : Platform}.

Local Open Scope host_scope.

Lemma always_report error : always 1 (report error).
Proof.
  unfold report. apply (always_bind 0 1).
  - apply always_quiet; [apply total_logError|quiet_tac].
  - intros _. apply always_sendMessage.
Qed.

Lemma answers_other_actions serial message :
  is_case (field message "action") "set_folder" = false ->
  answers 1 (handleMessage serial message).
Proof.
  intros Hset. unfold handleMessage, prop, field in *.
  destruct (get_prop message "action") as [action|]; [|apply answers_throw].
  rewrite bind_ret. cbv beta zeta. rewrite Hset.
  destruct (is_case action "status"); [repeat answers_step|].
  destruct (is_case action "scan"); [repeat answers_step|].
  destruct (is_case action "load").
  { apply always_answers, always_try_catch; [repeat answers_step|].
    intros e. apply always_sendMessage. }
  destruct (is_case action "load_all"); [repeat answers_step|].
  destruct (is_case action "unload"); [repeat answers_step|].
  destruct (is_case action "unload_all"); repeat answers_step.
Qed.

Lemma always_set_folder serial message :
  is_case (field message "action") "set_folder" = true ->
  always 2 (handleMessage serial message).
Proof.
  intros Hset. unfold handleMessage, prop, field in *.
  destruct (get_prop message "action") as [action|]; [|discriminate Hset].
  rewrite bind_ret. cbv beta zeta. rewrite Hset.
  assert (Hstatus : is_case action "status" = false).
  { destruct action as [[]|]; try discriminate Hset. cbn in *.
    destruct (String.eqb_spec s "set_folder"); [subst s; reflexivity|discriminate Hset]. }
  assert (Hscan : is_case action "scan" = false).
  { destruct action as [[]|]; try discriminate Hset. cbn in *.
    destruct (String.eqb_spec s "set_folder"); [subst s; reflexivity|discriminate Hset]. }
  rewrite Hstatus, Hscan.
  apply (always_bind 0 2); [apply always_quiet; [apply total_modify|quiet_tac]|intros _].
  apply (always_bind 0 2); [apply always_quiet; [apply total_saveConfig|quiet_tac]|intros _].
  apply (always_bind 1 1); [apply always_sendMessage|intros _].
  apply (always_bind 0 1);
    [apply always_quiet; [apply total_scanExtensionsFolder|quiet_tac]|intros ?].
  apply (always_bind 0 1); [apply always_quiet; [apply total_get_state|quiet_tac]|intros ?].
  apply always_sendMessage.
Qed.

Lemma always_turn serial message :
  always (if is_case (field message "action") "set_folder" then 2 else 1)
         (turn serial message).
Proof.
  unfold turn. destruct (is_case (field message "action") "set_folder") eqn:Hset.
  - apply always_try, always_set_folder, Hset.
  - apply always_try_catch; [apply answers_other_actions, Hset|].
    intros e. apply always_report.
Qed.

End Dispatcher.

(* ================================================================== *)
(** * Properties of the framer *)
(* ================================================================== *)

Section FramerProperties.

Import JSONFacts FramerFacts.

Lemma flat_map_quote_letters n :
  flat_map quote_char (repeat "a"%char n) = repeat "a"%char n.
Proof. induction n as [|n IH]; [reflexivity|]. cbn [repeat flat_map]. rewrite IH. reflexivity. Qed.

Lemma length_string_of_list_ascii l :
  String.length (string_of_list_ascii l) = List.length l.
Proof. induction l as [|c l IH]; [reflexivity|]. cbn. rewrite IH. reflexivity. Qed.

Lemma length_stringify_letters n :
  String.length (JSON.stringify (JStr (letters n))) = S (S n).
Proof.
  unfold JSON.stringify, letters. cbn [serialize]. unfold quote.
  rewrite list_ascii_of_string_of_list_ascii, flat_map_quote_letters.
  rewrite length_string_of_list_ascii. cbn [List.length].
  rewrite length_app, repeat_length. cbn. lia.
Qed.

Lemma one_MiB_length :
  Buffer_length (Buffer_from (JSON.stringify one_MiB_value)) = 1048576.
Proof.
  rewrite Buffer_length_from. unfold one_MiB_value.
  rewrite length_stringify_letters. lia.
Qed.

(** C3, as stated, fails at the boundary: a value whose text is exactly
    1 MiB long is within the claimed range, yet the frame that carries it
    is not read back; the reader settles on [null] as at the end of the
    input. *)
Lemma one_MiB_frame_not_read_back :
  Buffer_length (Buffer_from (JSON.stringify one_MiB_value)) <= 1048576
  /\ readMessage (frame one_MiB_value) = (Resolved JNull, [])
  /\ fst (readMessage (frame one_MiB_value)) <> Resolved one_MiB_value.
Proof.
  assert (E : readMessage (frame one_MiB_value) = (Resolved JNull, [])).
  { unfold frame, readMessage.
    generalize one_MiB_length.
    generalize (Buffer_from (JSON.stringify one_MiB_value)). intros body Hlen.
    rewrite Hlen.
    change (firstn 4 (writeUInt32LE 1048576 ++ body)) with (writeUInt32LE 1048576).
    reflexivity. }
  split; [rewrite one_MiB_length; lia|]. split; [exact E|].
  rewrite E. cbn [fst]. unfold one_MiB_value. discriminate.
Qed.

(** C3 (amended): decoding the frame of a JSON value whose text is
    shorter than 1 MiB yields the value again, and consumes exactly that
    frame. *)
Theorem decode_encode_below_one_MiB (v : json) (rest : list byte) :
  Buffer_length (Buffer_from (JSON.stringify v)) < 1048576 ->
  frame v =
    writeUInt32LE (Buffer_length (Buffer_from (JSON.stringify v)))
    ++ Buffer_from (JSON.stringify v)
  /\ readMessage (frame v ++ rest) = (Resolved v, rest).
Proof.
  intros H. split; [reflexivity|]. apply readMessage_frame. exact H.
Qed.

Lemma decode_encode_below_one_MiB_witness :
  readMessage (frame (JObj [("action"%string, JStr "status")]) ++ [])
  = (Resolved (JObj [("action"%string, JStr "status")]), []).
Proof.
  apply (decode_encode_below_one_MiB (JObj [("action"%string, JStr "status")]) []).
  vm_compute. reflexivity.
Defined.

End FramerProperties.

(* ================================================================== *)
(** * Properties of the main loop and of the dispatcher *)
(* ================================================================== *)

Section LoopProperties.

Context {P : Platform}.

Import FramerFacts.

Local Open Scope host_scope.

(** C4, evaluated on the code: when the four length bytes announce 0, or
    1 MiB or more, the loop writes no error frame and reads no further
    frame; it ends as at the end of the input, with the state untouched. *)
Theorem out_of_range_length_ends_the_loop
        (fuel serial : nat) (input : list byte) (st : HostState) :
  readUInt32LE (firstn 4 input) = 0
  \/ 1024 * 1024 <= readUInt32LE (firstn 4 input) ->
  readMessage input = (Resolved JNull, [])
  /\ main_loop fuel serial (Listening false) input st = (inl tt, st).
Proof.
  intros Hlen.
  assert (E : readMessage input = (Resolved JNull, [])).
  { unfold readMessage. destruct (Nat.eqb _ 4); [|reflexivity].
    destruct Hlen as [-> | Hbig]; [reflexivity|].
    replace (readUInt32LE (firstn 4 input) <? 1024 * 1024) with false
      by (symmetry; apply Z.ltb_ge; exact Hbig).
    rewrite andb_false_r. reflexivity. }
  split; [exact E|]. destruct fuel; [reflexivity|].
  cbn [main_loop readMessage_on]. rewrite E. reflexivity.
Qed.

(** A frame that settles the promise otherwise than by [null] is taken off
    the input. *)
Lemma readMessage_consumes input r rest :
  readMessage input = (r, rest) -> r <> Resolved JNull ->
  (List.length rest < List.length input)%nat.
Proof.
  unfold readMessage. intros E Hr.
  destruct (Nat.eqb (List.length (firstn 4 input)) 4) eqn:E4;
    [|injection E as <- <-; congruence].
  apply Nat.eqb_eq in E4. rewrite length_firstn in E4.
  destruct (_ && _); [|injection E as <- <-; congruence].
  destruct (_ =? _); [|injection E as <- <-; congruence].
  assert (Hrest : rest = skipn (Z.to_nat (readUInt32LE (firstn 4 input)))
                               (skipn 4 input)).
  { destruct (JSON.parse _); injection E as <- <-; reflexivity. }
  rewrite Hrest, !length_skipn. lia.
Qed.

(** The listener left on stdin only ever takes bytes off the stream. *)
Lemma listener_left_behind_shrinks messageLength input :
  (List.length (snd (listener_left_behind messageLength input)) <= List.length input)%nat.
Proof.
  unfold listener_left_behind. destruct (_ && _); [|cbn; lia].
  destruct (_ =? _); [destruct (JSON.parse _)|];
    cbn [snd]; rewrite length_skipn; lia.
Qed.

Lemma readMessage_on_consumes stdin input r stdin' rest :
  readMessage_on stdin input = (r, stdin', rest) -> r <> Resolved JNull ->
  (List.length rest < List.length input)%nat.
Proof.
  unfold readMessage_on. intros E Hr. destruct stdin as [ended|messageLength|].
  - destruct (readMessage input) as [r0 rest0] eqn:E0.
    assert (Hr0 : r0 = r /\ rest0 = rest)
      by (destruct r0; injection E as <- _ <-; auto).
    destruct Hr0 as [-> ->]. exact (readMessage_consumes input r rest E0 Hr).
  - pose proof (listener_left_behind_shrinks messageLength input) as Hs.
    destruct (listener_left_behind messageLength input) as [stays input'].
    cbn [snd] in Hs. destruct (readMessage input') as [r0 rest0] eqn:E0.
    assert (Hr0 : r0 = r /\ rest0 = rest)
      by (destruct r0; injection E as <- _ <-; auto).
    destruct Hr0 as [-> ->].
    pose proof (readMessage_consumes input' r rest E0 Hr). lia.
  - injection E as <- _ _. congruence.
Qed.

(** The fuel [main] gives its loop is never used up: any amount above the
    length of the input gives the same run. *)
Lemma main_loop_enough_fuel fuel fuel' serial stdin input :
  (List.length input < fuel)%nat -> (List.length input < fuel')%nat ->
  main_loop fuel serial stdin input = main_loop fuel' serial stdin input.
Proof.
  revert fuel' serial stdin input.
  induction fuel as [|fuel IH]; intros fuel' serial stdin input H H'; [lia|].
  destruct fuel' as [|fuel']; [lia|]. cbn [main_loop].
  destruct (readMessage_on stdin input) as [[r stdin'] rest] eqn:E.
  destruct r as [message|body].
  - destruct message; try reflexivity;
      (rewrite (IH fuel' (S serial) stdin' rest);
       [reflexivity| |];
       pose proof (readMessage_on_consumes stdin input _ stdin' rest E
                     ltac:(discriminate)); lia).
  - rewrite (IH fuel' (S serial) stdin' rest); [reflexivity| |];
      pose proof (readMessage_on_consumes stdin input _ stdin' rest E
                    ltac:(discriminate)); lia.
Qed.

(** On a silent stdin the loop is over. *)
Lemma main_loop_silent fuel serial input st :
  main_loop fuel serial Silent input st = (inl tt, st).
Proof. destruct fuel; reflexivity. Qed.

(** The loop only ever appends to stdout. *)
Lemma main_loop_appends fuel serial stdin input st :
  exists more,
    stdout (snd (main_loop fuel serial stdin input st)) = stdout st ++ more.
Proof.
  revert serial stdin input st.
  induction fuel as [|fuel IH]; intros serial stdin input st.
  - exists []. cbn. rewrite List.app_nil_r. reflexivity.
  - cbn [main_loop].
    destruct (readMessage_on stdin input) as [[[message|body] stdin'] rest].
    + assert (Hstep : exists more,
                 stdout (snd ((turn serial message ;;
                               main_loop fuel (S serial) stdin' rest) st))
                 = stdout st ++ more).
      { destruct (always_turn serial message st) as (a & st1 & E & (rs & _ & W)).
        unfold bind. rewrite E. destruct (IH (S serial) stdin' rest st1) as [more Hm].
        eexists. rewrite Hm, W, <- app_assoc. reflexivity. }
      destruct message; try exact Hstep.
      exists []. cbn. rewrite List.app_nil_r. reflexivity.
    + destruct (always_report ("Invalid JSON: " ++ msg_syntax_error body) st)
        as (a & st1 & E & (rs & _ & W)).
      unfold bind. rewrite E. destruct (IH (S serial) stdin' rest st1) as [more Hm].
      eexists. rewrite Hm, W, <- app_assoc. reflexivity.
Qed.

Lemma changed_profiles_only_refl st : changed_profiles_only st st.
Proof. exists []. split; [rewrite List.app_nil_r; reflexivity|constructor]. Qed.

(** With the configuration file outside the temporary profiles, changes
    to profiles alone are no changes to it. *)
Lemma profiles_only_spares_the_config_file st st' :
  (forall file, in_profile file -> file <> CONFIG_FILE) ->
  changed_profiles_only st st' -> config_writes st' = config_writes st.
Proof.
  intros Hout (changes & E & Hall). unfold config_writes. rewrite E, filter_app.
  clear E.
  assert (Hnone : filter (fun c => String.eqb (changed_file c) CONFIG_FILE) changes = []).
  { induction Hall as [|c changes Hc _ IH]; [reflexivity|]. cbn [filter].
    destruct (String.eqb_spec (changed_file c) CONFIG_FILE) as [Heq|_]; [|exact IH].
    exfalso. exact (Hout _ Hc Heq). }
  rewrite Hnone, List.app_nil_r. reflexivity.
Qed.

(** C8: a request other than [set_folder] leaves the configuration
    object as it was, and the only files the helper changes for it are
    those of a temporary profile that a [load] prepares; so does the
    report of a failure.  Hence, as long as no request the loop hands to
    the dispatcher is [set_folder], the configuration object stays as it
    was and, the configuration file not being a file of a temporary
    profile, the helper never writes to it. *)
Theorem config_changes_only_by_set_folder
        (fuel serial : nat) (stdin : Stdin) (input : list byte)
        (st : HostState) :
  (forall message,
      not_set_folder message ->
      config (snd (turn serial message st)) = config st
      /\ changed_profiles_only st (snd (turn serial message st)))
  /\ (Forall not_set_folder (requests fuel stdin input) ->
      let st' := snd (main_loop fuel serial stdin input st) in
      config st' = config st
      /\ changed_profiles_only st st'
      /\ ((forall file, in_profile file -> file <> CONFIG_FILE) ->
          config_writes st' = config_writes st)).
Proof.
  set (I := fun s : HostState =>
              config s = config st /\ changed_profiles_only st s).
  assert (Henv : env_stable I) by (unfold I; stable).
  assert (Hout : out_stable I) by (unfold I; stable).
  assert (Hload : load_stable I) by (unfold I; stable).
  assert (Hunload : unload_stable I) by (unfold I; stable).
  assert (Hfiles : file_stable in_profile I).
  { intros c s Hc [Hcfg (changes & E & Hall)]. split; [exact Hcfg|].
    exists (changes ++ [c]). cbn [file_changes set_file_changes].
    split; [rewrite E, <- app_assoc; reflexivity|].
    apply Forall_app. split; [exact Hall|]. constructor; [exact Hc|constructor]. }
  assert (Hst : I st) by (split; [reflexivity|apply changed_profiles_only_refl]).
  assert (Hturn : forall serial message,
             not_set_folder message -> preserves I (turn serial message)).
  { intros n message Hm.
    apply (turn_within I Henv in_profile Hfiles); try assumption.
    - intros file Hfile. exact Hfile.
    - left. exact Hm. }
  split.
  - intros message Hm. apply (Hturn serial message Hm st Hst).
  - assert (Hgen : forall fuel serial stdin input s,
               Forall not_set_folder (requests fuel stdin input) ->
               I s -> I (snd (main_loop fuel serial stdin input s))).
    { clear fuel serial stdin input. induction fuel as [|fuel IH];
        intros serial stdin input s Hreq Hs; [exact Hs|].
      cbn [main_loop requests] in *.
      destruct (readMessage_on stdin input) as [[[message|body] ls] rest].
      - assert (Hstep : Forall not_set_folder (message :: requests fuel ls rest) ->
                        I (snd ((turn serial message ;; main_loop fuel (S serial) ls rest) s))).
        { intros Hall. inversion Hall as [|? ? Hm Hrest]; subst.
          apply preserves_bind; [|intros ?; intros s' Hs'; apply IH; assumption|exact Hs].
          apply Hturn, Hm. }
        destruct message; try (apply Hstep; exact Hreq). exact Hs.
      - apply preserves_bind; [|intros ?; intros s' Hs'; apply IH; assumption|exact Hs].
        apply preserves_report; assumption. }
    intros Hreq. cbv zeta.
    destruct (Hgen fuel serial stdin input st Hreq Hst) as [Hcfg Hchanges].
    split; [exact Hcfg|]. split; [exact Hchanges|].
    intros Houtside. apply profiles_only_spares_the_config_file; assumption.
Qed.

End LoopProperties.

(* ================================================================== *)
(** * The helper on the concrete machine *)
(* ================================================================== *)

Section OnPosix.

Import FramerFacts Posix.

(** Two frames in a row are not one frame. *)
Lemma two_frames_are_not_one (a b r : json) :
  Buffer_length (Buffer_from (JSON.stringify a))
  + Buffer_length (Buffer_from (JSON.stringify b)) + 4 < 2 ^ 32 ->
  frame a ++ frame b <> frame r.
Proof.
  unfold frame. intros Hsmall E.
  set (la := Buffer_length (Buffer_from (JSON.stringify a))) in *.
  set (lb := Buffer_length (Buffer_from (JSON.stringify b))) in *.
  set (lr := Buffer_length (Buffer_from (JSON.stringify r))) in *.
  assert (Hla : 0 <= la) by (unfold la, Buffer_length; lia).
  assert (Hlb : 0 <= lb) by (unfold lb, Buffer_length; lia).
  assert (Hlen : 4 + la + (4 + lb) = 4 + lr).
  { apply (f_equal (fun l => Z.of_nat (List.length l))) in E.
    rewrite !length_app in E. cbn [List.length writeUInt32LE] in E.
    unfold la, lb, lr, Buffer_length. lia. }
  apply (f_equal (fun l => readUInt32LE (firstn 4 l))) in E.
  rewrite <- app_assoc in E.
  change (firstn 4 (writeUInt32LE la ++ ?l)) with (writeUInt32LE la) in E.
  change (firstn 4 (writeUInt32LE lr ++ ?l)) with (writeUInt32LE lr) in E.
  rewrite !read_write_UInt32LE in E by lia. lia.
Qed.

(** C1, as stated, fails for [set_folder]: the request is answered with
    a [folder_set] frame followed by an [extensions_list] frame, which is
    not one frame. *)
Lemma set_folder_is_answered_twice :
  let st := boot without_web_ext in
  let st' := snd (turn 0 (request "set_folder" (str "/ext")) st) in
  stdout st' = frame folder_set_response ++ frame extensions_list_response
  /\ ~ (exists response : json, stdout st' = stdout st ++ frame response).
Proof.
  cbv zeta.
  assert (E : stdout (snd (turn 0 (request "set_folder" (str "/ext"))
                                (boot without_web_ext)))
              = frame folder_set_response ++ frame extensions_list_response)
    by (vm_compute; reflexivity).
  split; [exact E|]. intros [r Hr]. rewrite E in Hr. cbn [stdout boot initial_state app] in Hr.
  revert Hr. apply two_frames_are_not_one. vm_compute. reflexivity.
Qed.

(** On this machine the configuration file is no file of a temporary
    profile: those are all below [/tmp]. *)
Lemma config_file_outside_profiles (file : string) :
  @in_profile platform file -> file <> @CONFIG_FILE platform.
Proof.
  assert (Hjoin : forall d name, join_with_slash [d; name] = (d ++ "/" ++ name)%string)
    by reflexivity.
  assert (Hdir : forall dest d,
             @copy_dir platform dest d ->
             (exists r, dest = String "/" (String "t" r)) ->
             exists r, d = String "/" (String "t" r)).
  { intros dest d Hd Hdest. induction Hd as [|d name Hd IH Hname]; [exact Hdest|].
    destruct IH as [r ->]. cbn [path_join platform]. rewrite Hjoin. cbn. eexists. reflexivity. }
  intros [stamp [-> | (d & name & Hd & _ & ->)]]; [discriminate|].
  destruct (Hdir _ d Hd) as [r ->]; [cbn; eexists; reflexivity|].
  cbn [path_join platform]. rewrite Hjoin. discriminate.
Qed.

Lemma config_changes_only_by_set_folder_witness :
  let st := boot with_web_ext in
  let st' := snd (main_loop (S (List.length sample_input)) 0 (Listening false)
                            sample_input st) in
  config st' = config st
  /\ changed_profiles_only st st'
  /\ config_writes st' = config_writes st.
Proof.
  cbv zeta.
  destruct (proj2 (config_changes_only_by_set_folder
                     (S (List.length sample_input)) 0 (Listening false) sample_input
                     (boot with_web_ext)))
    as (Hcfg & Hprofiles & Hfile).
  - vm_compute. repeat constructor.
  - split; [exact Hcfg|]. split; [exact Hprofiles|].
    apply Hfile. exact config_file_outside_profiles.
Defined.

Lemma out_of_range_length_ends_the_loop_witness :
  readMessage empty_frame_then_status = (Resolved JNull, [])
  /\ main_loop (S (List.length empty_frame_then_status)) 0 (Listening false)
               empty_frame_then_status (boot with_web_ext)
     = (inl tt, boot with_web_ext).
Proof.
  apply (out_of_range_length_ends_the_loop
           (S (List.length empty_frame_then_status)) 0 empty_frame_then_status
           (boot with_web_ext)).
  left. vm_compute. reflexivity.
Defined.

(** The sibling path: a body that is not JSON is answered with an error
    frame.  But the listener of the rejected call stays on stdin: at the
    end of the stream it takes the first byte of the [status] request
    behind the frame, the listener of the next call finds no frame in what
    is left, and the request is never answered. *)
Lemma request_behind_a_malformed_body_is_lost :
  readMessage_on (Listening false) malformed_frame_then_status
  = (Rejected "{", LeftBehind 1, frame (request "status" undefined))
  /\ fst (fst (readMessage_on (LeftBehind 1) (frame (request "status" undefined))))
     = Resolved JNull
  /\ stdout (snd (main malformed_frame_then_status (boot with_web_ext)))
     = frame invalid_JSON_response.
Proof. vm_compute. repeat split; reflexivity. Qed.

(** Whereas after an empty frame nothing is written at all. *)
Lemma empty_frame_is_not_reported :
  stdout (snd (main empty_frame_then_status (boot with_web_ext))) = [].
Proof. vm_compute. reflexivity. Qed.

(** C2, evaluated on the code: with the loader tool installed, loading a
    directory that has no manifest is answered with [success: false], and
    yet the process has been started and its record is in the map. *)
Theorem failed_load_leaves_a_record :
  let st := boot with_web_ext in
  let st' := snd (turn 0 (request "load" (str "/ext/b")) st) in
  stdout st' = frame failed_load_response
  /\ loadedExtensions st = []
  /\ loadedExtensions st' =
       [(str_key "/ext/b", {| process := 0%nat; method := "web-ext" |})]
  /\ spawned (world st') = 1%nat.
Proof. vm_compute. repeat split; reflexivity. Qed.

End OnPosix.

(* ================================================================== *)
(** * The registry *)
(* ================================================================== *)

Section Registry.

Context {P : Platform}.

Local Open Scope host_scope.

Lemma prim_eqb_refl v : is_ref v = false -> prim_eqb v v = true.
Proof.
  destruct v as [[| b | n | s | l | l]|]; cbn; intros H; try discriminate H;
    auto using Z.eqb_refl, String.eqb_refl, Bool.eqb_reflx.
Qed.

Lemma prim_eqb_eq a b : prim_eqb a b = true -> a = b.
Proof.
  destruct a as [[| x | x | x | x | x]|], b as [[| y | y | y | y | y]|];
    cbn; intros H; try discriminate H; try reflexivity.
  - apply Bool.eqb_prop in H. congruence.
  - apply Z.eqb_eq in H. congruence.
  - apply String.eqb_eq in H. congruence.
Qed.

Lemma sameValueZero_refl k : sameValueZero k k = true.
Proof.
  unfold sameValueZero. destruct (is_ref (k_val k)) eqn:E.
  - rewrite Nat.eqb_refl. reflexivity.
  - apply prim_eqb_refl, E.
Qed.

Lemma sameValueZero_trans a b c :
  sameValueZero a b = true -> sameValueZero b c = true ->
  sameValueZero a c = true.
Proof.
  unfold sameValueZero.
  destruct (is_ref (k_val a)) eqn:Ea.
  - intros Hab. apply andb_prop in Hab as [Hb Hid]. rewrite Hb.
    intros Hbc. apply andb_prop in Hbc as [Hc Hid']. rewrite Hc.
    apply Nat.eqb_eq in Hid, Hid'. cbn. apply Nat.eqb_eq. congruence.
  - intros Hab. apply prim_eqb_eq in Hab. rewrite <- Hab, Ea. auto.
Qed.

Lemma sameValueZero_sym a b : sameValueZero a b = sameValueZero b a.
Proof.
  assert (H : forall x y, sameValueZero x y = true -> sameValueZero y x = true).
  { intros x y. unfold sameValueZero. destruct (is_ref (k_val x)) eqn:Ex.
    - intros Hxy. apply andb_prop in Hxy as [Hy Hid]. rewrite Hy.
      cbn [andb]. rewrite Nat.eqb_sym. exact Hid.
    - intros Hxy. apply prim_eqb_eq in Hxy. rewrite <- Hxy, Ex.
      apply prim_eqb_refl, Ex. }
  destruct (sameValueZero a b) eqn:Eab.
  - symmetry. apply H, Eab.
  - destruct (sameValueZero b a) eqn:Eba; [|reflexivity].
    apply H in Eba. congruence.
Qed.

Lemma Map_get_delete_same k m : Map_get k (Map_delete k m) = None.
Proof.
  induction m as [|[k' v] m IH]; [reflexivity|].
  cbn [Map_delete filter fst]. destruct (sameValueZero k k') eqn:E; cbn [negb].
  - exact IH.
  - cbn [Map_get]. rewrite E. exact IH.
Qed.

Lemma Map_get_delete_other k k' m :
  sameValueZero k k' = false ->
  Map_get k' (Map_delete k m) = Map_get k' m.
Proof.
  intros Hne. induction m as [|[k0 v] m IH]; [reflexivity|].
  cbn [Map_delete filter fst Map_get].
  destruct (sameValueZero k k0) eqn:E; cbn [negb].
  - destruct (sameValueZero k' k0) eqn:E'; [|exact IH].
    exfalso. rewrite sameValueZero_sym in E'.
    rewrite (sameValueZero_trans k k0 k' E E') in Hne. discriminate Hne.
  - cbn [Map_get]. destruct (sameValueZero k' k0); [reflexivity|exact IH].
Qed.

Lemma unloadExtension_present k st loaded :
  Map_get k (loadedExtensions st) = Some loaded ->
  unloadExtension k st =
  (inl unload_ok,
   set_loadedExtensions
     (Map_delete k (loadedExtensions st))
     (set_world (fst (proc_kill (world st) (process loaded))) st)).
Proof.
  intros H. unfold unloadExtension, bind, get_state. rewrite H.
  unfold try_catch, kill, may_throw, modify, ret.
  destruct (proc_kill (world st) (process loaded)) as [w [e|]]; reflexivity.
Qed.

Lemma unloadExtension_absent k st :
  Map_get k (loadedExtensions st) = None ->
  unloadExtension k st = (inl unload_not_loaded, st).
Proof.
  intros H. unfold unloadExtension, bind, get_state. rewrite H. reflexivity.
Qed.

(** C5: [unloadExtension] never throws.  When the map holds a record for
    the key, it signals the recorded process (whether or not [kill]
    throws), removes the record and no other, and returns
    [{success: true}]; a second call right after returns
    [{success: false}] with the reason.  When the map holds no record, it
    returns [{success: false}] with the reason and changes nothing. *)
Theorem unload_removes_the_record_and_succeeds_once
        (k : MapKey) (st : HostState) :
  match Map_get k (loadedExtensions st) with
  | Some loaded =>
    let st1 := snd (unloadExtension k st) in
    fst (unloadExtension k st) = inl unload_ok
    /\ world st1 = fst (proc_kill (world st) (process loaded))
    /\ Map_get k (loadedExtensions st1) = None
    /\ (forall k', sameValueZero k k' = false ->
                   Map_get k' (loadedExtensions st1)
                   = Map_get k' (loadedExtensions st))
    /\ unloadExtension k st1 = (inl unload_not_loaded, st1)
  | None => unloadExtension k st = (inl unload_not_loaded, st)
  end.
Proof.
  destruct (Map_get k (loadedExtensions st)) as [loaded|] eqn:E.
  - rewrite (unloadExtension_present k st loaded E). cbn [fst snd].
    repeat split.
    + apply Map_get_delete_same.
    + intros k' Hk. apply Map_get_delete_other, Hk.
    + apply unloadExtension_absent. apply Map_get_delete_same.
  - apply unloadExtension_absent, E.
Qed.

End Registry.

(* ================================================================== *)
(** * Loading without the loader tool, and what the registry holds *)
(* ================================================================== *)

Section ProfileLoads.

Context {P : Platform}.

Local Open Scope host_scope.

Lemma is_case_eq action name : is_case action name = true -> action = str name.
Proof. apply prim_eqb_eq. Qed.

Lemma load_without_tool k st :
  tool_absent st ->
  loadedExtensions (snd (loadExtensionViaRDP k st)) = loadedExtensions st.
Proof.
  intros Habs. unfold loadExtensionViaRDP, bind.
  pose proof (preserves_findWebExt
                (fun s => loadedExtensions s = loadedExtensions st)
                ltac:(stable) st eq_refl) as Hfind.
  specialize (Habs). unfold tool_absent in Habs.
  destruct (findWebExt st) as [[v|e] st1] eqn:E; cbn [fst snd] in *; [|exact Hfind].
  rewrite (Habs v eq_refl).
  apply (preserves_profile_branch
           (fun s => loadedExtensions s = loadedExtensions st)
           ltac:(stable) ltac:(stable) k st1).
  exact Hfind.
Qed.

Lemma bind_from {A B} (I : HostState -> Prop) (m : M A) (k : A -> M B) st :
  I (snd (m st)) -> (forall a, preserves I (k a)) -> I (snd (bind m k st)).
Proof.
  intros Hm Hk. unfold bind. destruct (m st) as [[a|e] st1]; cbn [snd] in *;
    [apply Hk, Hm|exact Hm].
Qed.

Lemma try_catch_from {A} (I : HostState -> Prop) (m : M A) h st :
  I (snd (m st)) -> (forall e, preserves I (h e)) -> I (snd (try_catch m h st)).
Proof.
  intros Hm Hh. unfold try_catch. destruct (m st) as [[a|e] st1]; cbn [snd] in *;
    [exact Hm|apply Hh, Hm].
Qed.

(** When [loadExtensionViaRDP] itself rejects, the map is as it was: the
    record is entered after the last step of the [web-ext] strategy that
    can throw, and the fallback never enters one. *)
Lemma rejected_load_leaves_no_record k st :
  match loadExtensionViaRDP k st with
  | (inl _, _) => True
  | (inr _, st') => loadedExtensions st' = loadedExtensions st
  end.
Proof.
  pose proof (preserves_findWebExt
                (fun s => loadedExtensions s = loadedExtensions st)
                ltac:(stable) st eq_refl) as Hfind.
  assert (Hp : forall st1,
             loadedExtensions st1 = loadedExtensions st ->
             match profile_branch k st1 with
             | (inl _, _) => True
             | (inr _, st') => loadedExtensions st' = loadedExtensions st
             end).
  { intros st1 H1.
    pose proof (preserves_profile_branch
                  (fun s => loadedExtensions s = loadedExtensions st)
                  ltac:(stable) ltac:(stable) k st1 H1) as Hb.
    destruct (profile_branch k st1) as [[res|e] st2]; [exact I|exact Hb]. }
  unfold loadExtensionViaRDP, bind at 1.
  destruct (findWebExt st) as [[v|e] st1]; cbn [fst snd] in *; [|exact Hfind].
  destruct (truthy v); [|apply Hp, Hfind].
  destruct v as [[| | |file| |]|]; try exact Hfind.
  unfold bind at 1, spawn, returns.
  destruct (child_spawn (world st1) file _) as [w [proc|e]]; [exact I|exact Hfind].
Qed.

Lemma load_turn_without_tool serial message st :
  is_case (field message "action") "load" = true ->
  tool_absent st ->
  loadedExtensions (snd (turn serial message st)) = loadedExtensions st.
Proof.
  intros Hload Habs.
  set (I := fun s : HostState => loadedExtensions s = loadedExtensions st).
  assert (Henv : env_stable I) by (unfold I; stable).
  assert (Hout : out_stable I) by (unfold I; stable).
  change (I (snd (turn serial message st))).
  unfold turn, handleMessage, prop, field in *.
  destruct (get_prop message "action") as [action|]; [|discriminate Hload].
  rewrite bind_ret. cbv beta zeta.
  apply is_case_eq in Hload. subst action.
  change (is_case (str "load") "status") with false.
  change (is_case (str "load") "scan") with false.
  change (is_case (str "load") "set_folder") with false.
  change (is_case (str "load") "load") with true.
  cbv iota.
  apply try_catch_from; [|intros e; apply preserves_report; assumption].
  apply try_catch_from; [|intros e; apply preserves_sendMessage; assumption].
  apply bind_from; [apply load_without_tool, Habs|intros result].
  pres.
Qed.

Lemma all_web_ext_set k proc m :
  all_web_ext m ->
  all_web_ext (Map_set k {| process := proc; method := "web-ext" |} m).
Proof.
  unfold all_web_ext. induction 1 as [|[k' v] m Hv Hm IH]; cbn [Map_set].
  - constructor; [reflexivity|constructor].
  - destruct (sameValueZero k k'); constructor; auto.
Qed.

Lemma all_web_ext_delete k m : all_web_ext m -> all_web_ext (Map_delete k m).
Proof.
  unfold all_web_ext, Map_delete. intros H. apply Forall_forall.
  intros e He. apply filter_In in He as [He _].
  rewrite Forall_forall in H. apply H, He.
Qed.

(** What every operation maintains, the whole program maintains. *)
Lemma preserves_main (I : HostState -> Prop) input :
  env_stable I -> out_stable I -> config_stable I -> save_stable I ->
  load_stable I -> unload_stable I ->
  preserves I (main input).
Proof.
  intros Henv Hout Hcfg Hsave Hload Hunload.
  assert (Hloop : forall fuel serial stdin input,
             preserves I (main_loop fuel serial stdin input)).
  { induction fuel as [|fuel IH]; intros serial stdin inp; [apply preserves_ret|].
    cbn [main_loop].
    destruct (readMessage_on stdin inp) as [[[message|body] ls] rest].
    - assert (Hstep : preserves I (turn serial message ;;
                                   main_loop fuel (S serial) ls rest)).
      { apply preserves_bind; [|intros ?; apply IH].
        apply preserves_turn; auto. }
      destruct message; try exact Hstep. apply preserves_ret.
    - apply preserves_bind; [|intros ?; apply IH].
      apply preserves_report; assumption. }
  unfold main. apply preserves_bind; [|intros ?; apply Hloop].
  apply preserves_loadConfig; assumption.
Qed.

Lemma main_keeps_all_web_ext input st :
  all_web_ext (loadedExtensions st) ->
  all_web_ext (loadedExtensions (snd (main input st))).
Proof.
  apply (preserves_main (fun s => all_web_ext (loadedExtensions s)));
    try solve [stable].
  - intros k proc s Hs. apply all_web_ext_set, Hs.
  - intros k s Hs. apply all_web_ext_delete, Hs.
Qed.

Lemma Map_get_set_absent k0 k v m :
  Map_get k0 m = None -> sameValueZero k0 k = false ->
  Map_get k0 (Map_set k v m) = None.
Proof.
  intros Hm Hk. induction m as [|[k1 v1] m IH]; cbn [Map_set Map_get] in *.
  - rewrite Hk. reflexivity.
  - destruct (sameValueZero k0 k1) eqn:E1; [discriminate Hm|].
    destruct (sameValueZero k k1); cbn [Map_get]; rewrite E1; auto.
Qed.

Lemma Map_get_delete_absent k0 k m :
  Map_get k0 m = None -> Map_get k0 (Map_delete k m) = None.
Proof.
  induction m as [|[k1 v1] m IH]; [reflexivity|].
  cbn [Map_get Map_delete filter fst].
  destruct (sameValueZero k0 k1) eqn:E1; [discriminate|]. intros Hm.
  destruct (sameValueZero k k1); cbn [negb Map_get]; [|rewrite E1]; auto.
Qed.

Lemma Map_wf_set k v m : Map_wf m -> Map_wf (Map_set k v m).
Proof.
  induction m as [|[k1 v1] m IH]; cbn [Map_set Map_wf]; [auto|].
  intros [Hk Hm]. destruct (sameValueZero k k1) eqn:E; cbn [Map_wf].
  - auto.
  - split; [|auto]. apply Map_get_set_absent; [exact Hk|].
    rewrite sameValueZero_sym. exact E.
Qed.

Lemma Map_wf_delete k m : Map_wf m -> Map_wf (Map_delete k m).
Proof.
  induction m as [|[k1 v1] m IH]; [auto|]. cbn [Map_wf Map_delete filter fst].
  intros [Hk Hm]. destruct (sameValueZero k k1); cbn [negb Map_wf]; [auto|].
  split; [apply Map_get_delete_absent, Hk|auto].
Qed.

(** The keys of the map are pairwise different in every state the program
    reaches. *)
Lemma main_keeps_Map_wf input st :
  Map_wf (loadedExtensions st) -> Map_wf (loadedExtensions (snd (main input st))).
Proof.
  apply (preserves_main (fun s => Map_wf (loadedExtensions s)));
    try solve [stable].
  - intros k proc s Hs. apply Map_wf_set, Hs.
  - intros k s Hs. apply Map_wf_delete, Hs.
Qed.

(** C10: without the loader tool, [loadExtensionViaRDP] leaves the map as
    it is, whether the profile preparation succeeds or not, so that a
    [load] request leaves its size, which [status] reports as
    [loadedCount], as it is.  That every record has the method [web-ext]
    is kept by every turn of the loop, and so holds of the map whenever
    the helper, started with an empty map, has run on some input. *)
Theorem profile_loads_are_not_recorded :
  (forall k st,
      tool_absent st ->
      loadedExtensions (snd (loadExtensionViaRDP k st)) = loadedExtensions st)
  /\ (forall serial message st,
         is_case (field message "action") "load" = true ->
         tool_absent st ->
         loadedExtensions (snd (turn serial message st)) = loadedExtensions st
         /\ Map_size (loadedExtensions (snd (turn serial message st)))
            = Map_size (loadedExtensions st))
  /\ (forall serial message st,
         all_web_ext (loadedExtensions st) ->
         all_web_ext (loadedExtensions (snd (turn serial message st))))
  /\ (forall input w,
         all_web_ext (loadedExtensions (snd (main input (initial_state w))))).
Proof.
  split; [exact load_without_tool|]. split; [|split].
  - intros serial message st Hload Habs.
    rewrite (load_turn_without_tool serial message st Hload Habs). auto.
  - intros serial message.
    apply (preserves_turn (fun s => all_web_ext (loadedExtensions s)));
      try solve [stable].
    + intros k proc s Hs. apply all_web_ext_set, Hs.
    + intros k s Hs. apply all_web_ext_delete, Hs.
    + right. stable.
  - intros input w. apply main_keeps_all_web_ext. constructor.
Qed.

End ProfileLoads.

(* ================================================================== *)
(** * Start-up *)
(* ================================================================== *)

Section Startup.

Context {P : Platform}.

Import FramerFacts.

Local Open Scope host_scope.

Lemma loadConfig_without_file w :
  config_file_absent w -> fresh (snd (loadConfig (initial_state w))).
Proof.
  intros Habs. unfold loadConfig.
  assert (Henv : env_stable fresh) by (unfold fresh; stable).
  apply try_catch_from; [|intros e; apply preserves_logError, Henv].
  pose proof (preserves_ensure_config_dir fresh Henv (initial_state w)) as Hdir.
  unfold config_file_absent in Habs.
  unfold bind at 1.
  destruct (ensure_config_dir (initial_state w)) as [[[]|e] st0]; cbn [snd] in *.
  - unfold bind, existsSync. rewrite Habs. cbn. apply Hdir. repeat split.
  - apply Hdir. repeat split.
Qed.

Lemma status_turn serial message st :
  is_case (field message "action") "status" = true ->
  exists firefoxPath,
    turn serial message st =
    (inl tt,
     set_stdout
       (stdout st ++
        frame (to_json (obj_literal
          [("type"%string, str "status");
           ("version"%string, str VERSION);
           ("firefoxPath"%string, firefoxPath);
           ("extensionFolder"%string, obj_get "extensionFolder" (config st));
           ("loadedCount"%string, Some (JNum (Map_size (loadedExtensions st))))])))
       st).
Proof.
  intros Hstatus. unfold turn, handleMessage, prop, field in *.
  destruct (get_prop message "action") as [action|]; [|discriminate Hstatus].
  rewrite bind_ret. cbv beta zeta. rewrite Hstatus.
  destruct (getFirefoxPath_pure st) as [v Ev]. exists v.
  unfold try_catch, bind at 1. rewrite Ev.
  unfold bind, get_state. rewrite sendMessage_spec. reflexivity.
Qed.


End Startup.

(* ================================================================== *)
(** * The extension scanner *)
(* ================================================================== *)

Section Scanner.

Context {P : Platform}.

Local Open Scope host_scope.

Lemma length_describe w folder items :
  List.length (flat_map (describe w folder) items)
  = List.length (filter (usable_manifest w folder) items).
Proof.
  induction items as [|item items IH]; [reflexivity|].
  cbn [flat_map filter]. rewrite length_app, IH.
  unfold describe, usable_manifest.
  destruct folder as [[| | | f | |]|]; try reflexivity;
  destruct (manifest_of w _ item) as [[]|]; reflexivity.
Qed.

Lemma describe_without_folder_name w folder items :
  (forall f, folder <> Some (JStr f)) ->
  flat_map (describe w folder) items = [].
Proof.
  intros H. induction items as [|item items IH]; [reflexivity|].
  cbn [flat_map]. rewrite IH.
  unfold describe. destruct folder as [[| | | f | |]|]; try reflexivity.
  exfalso. exact (H f eq_refl).
Qed.

Lemma same_but_stderr_refl st : same_but_stderr st st.
Proof. repeat split. Qed.

Lemma same_but_stderr_log st st' label detail :
  same_but_stderr st st' ->
  same_but_stderr st (snd (logError label detail st')).
Proof. intros H. exact H. Qed.

Lemma scan_item_spec folder item extensions st :
  match scan_item folder item extensions st with
  | (inl extensions', st') =>
    extensions' = (extensions ++ describe (world st) folder item)%list
    /\ same_but_stderr st st'
  | (inr _, st') =>
    (forall f, folder <> Some (JStr f)) /\ same_but_stderr st st'
  end.
Proof.
  unfold scan_item, describe, manifest_of.
  destruct (d_isDirectory item).
  2:{ cbn. destruct folder as [[| | | f | |]|];
        rewrite List.app_nil_r; split; auto using same_but_stderr_refl. }
  destruct folder as [[| | | f | |]|];
    try (cbn; split; [intros f; discriminate|apply same_but_stderr_refl]).
  unfold js_path_join. cbn [all_strings str]. rewrite bind_ret. cbv beta zeta.
  unfold bind at 1, existsSync at 1.
  destruct (fs_existsSync (world st) _).
  2:{ cbn. rewrite List.app_nil_r. split; auto using same_but_stderr_refl. }
  unfold try_catch, bind at 1, readFileSync at 1.
  destruct (fs_readFileSync (world st) _) as [text|e].
  2:{ cbn. rewrite List.app_nil_r. split; [reflexivity|repeat split]. }
  unfold bind at 1, JSON_parse.
  destruct (JSON.parse text) as [manifest|].
  2:{ cbn. rewrite List.app_nil_r. split; [reflexivity|repeat split]. }
  destruct manifest; cbn; try rewrite List.app_nil_r;
    (split; [reflexivity|repeat split]).
Qed.

Lemma scan_loop_spec folder items :
  forall extensions st,
  exists thrown st',
    for_of items (scan_item folder) extensions st
    = (inl ((extensions ++ flat_map (describe (world st) folder) items)%list, thrown),
       st')
    /\ same_but_stderr st st'.
Proof.
  induction items as [|item items IH]; intros extensions st.
  - exists None, st. cbn. rewrite List.app_nil_r. split; [reflexivity|repeat split].
  - cbn [for_of flat_map]. pose proof (scan_item_spec folder item extensions st) as Hi.
    destruct (scan_item folder item extensions st) as [[extensions'|e] st1].
    + destruct Hi as [-> Hs]. destruct (IH (extensions ++ describe (world st) folder item)%list st1)
        as (thrown & st' & E & Hs').
      exists thrown, st'. rewrite E.
      destruct Hs as (H1 & H2 & H3 & H4 & H5).
      destruct Hs' as (H1' & H2' & H3' & H4' & H5').
      rewrite H3, <- app_assoc. split; [reflexivity|].
      repeat split; congruence.
    + destruct Hi as [Hf Hs]. exists (Some e), st1.
      rewrite (describe_without_folder_name (world st) folder items Hf).
      assert (Hd : describe (world st) folder item = []).
      { unfold describe. destruct folder as [[| | | f | |]|]; try reflexivity.
        exfalso. exact (Hf f eq_refl). }
      rewrite Hd. cbn [app]. rewrite List.app_nil_r. split; [reflexivity|exact Hs].
Qed.

(** C7 (amended): with no folder configured, or one that does not
    exist, the scan is empty and changes nothing.  Otherwise, when the
    folder can be listed, the scan returns, in listing order, one
    descriptor for every subdirectory whose manifest exists, can be read
    and parses as JSON to a value other than [null], and none for any
    other entry; at most stderr changes. *)
Theorem scan_returns_a_descriptor_per_usable_manifest (st : HostState) :
  let folder := obj_get "extensionFolder" (config st) in
  (truthy folder = false \/ fs_existsSync (world st) folder = false ->
   scanExtensionsFolder st = (inl [], st))
  /\ (forall items,
         truthy folder = true ->
         fs_existsSync (world st) folder = true ->
         fs_readdirSync (world st) folder = inl items ->
         exists st',
           scanExtensionsFolder st
           = (inl (flat_map (describe (world st) folder) items), st')
           /\ List.length (flat_map (describe (world st) folder) items)
              = List.length (filter (usable_manifest (world st) folder) items)
           /\ same_but_stderr st st')
  /\ (forall error,
         truthy folder = true ->
         fs_existsSync (world st) folder = true ->
         fs_readdirSync (world st) folder = inr error ->
         exists st',
           scanExtensionsFolder st = (inl [], st') /\ same_but_stderr st st').
Proof.
  cbv zeta. split; [|split].
  - intros H. unfold scanExtensionsFolder, bind, get_state.
    destruct H as [-> | ->]; [reflexivity|]. rewrite orb_true_r. reflexivity.
  - intros items Ht He Hr. unfold scanExtensionsFolder, bind at 1, get_state.
    rewrite Ht, He. cbn [negb orb].
    unfold try_catch, bind at 1, readdirSync. rewrite Hr.
    destruct (scan_loop_spec (obj_get "extensionFolder" (config st)) items [] st)
      as (thrown & st' & E & Hs).
    unfold bind at 1. rewrite E. cbn [app fst snd].
    destruct thrown as [e|].
    + eexists. split; [reflexivity|]. split; [apply length_describe|exact Hs].
    + eexists. split; [reflexivity|]. split; [apply length_describe|exact Hs].
  - intros error Ht He Hr. unfold scanExtensionsFolder, bind at 1, get_state.
    rewrite Ht, He. cbn [negb orb].
    unfold try_catch, bind at 1, readdirSync. rewrite Hr.
    eexists. split; [reflexivity|repeat split].
Qed.

End Scanner.

(* ================================================================== *)
(** * [load_all] and [unload_all] *)
(* ================================================================== *)

Section Batches.

Context {P : Platform}.

Local Open Scope host_scope.

Lemma load_one_spec serial ext results st :
  load_one serial ext results st
  = (inl (results
          ++ [load_all_entry ext
                (fst (loadExtensionViaRDP {| k_val := field ext "path"; k_id := serial |}
                                          st))])%list,
     snd (loadExtensionViaRDP {| k_val := field ext "path"; k_id := serial |} st)).
Proof.
  unfold load_one, try_catch, bind at 1.
  destruct (loadExtensionViaRDP _ st) as [[res|e] st1]; reflexivity.
Qed.

Lemma load_loop_spec serial exts :
  forall results st,
    for_of exts (load_one serial) results st
    = (inl ((results
             ++ load_all_entries exts (fst (load_in_turn serial exts st)))%list, None),
       snd (load_in_turn serial exts st)).
Proof.
  induction exts as [|ext exts IH]; intros results st.
  - cbn. rewrite List.app_nil_r. reflexivity.
  - cbn [for_of load_in_turn]. rewrite load_one_spec.
    destruct (loadExtensionViaRDP _ st) as [outcome st1]. cbn [fst snd].
    rewrite IH. destruct (load_in_turn serial exts st1) as [outcomes st2].
    cbn [fst snd load_all_entries combine map]. rewrite <- app_assoc. reflexivity.
Qed.

Lemma length_load_in_turn serial exts :
  forall st, List.length (fst (load_in_turn serial exts st)) = List.length exts.
Proof.
  induction exts as [|ext exts IH]; intros st; [reflexivity|].
  cbn [load_in_turn]. destruct (loadExtensionViaRDP _ st) as [outcome st1].
  specialize (IH st1). destruct (load_in_turn serial exts st1) as [outcomes st2].
  cbn [fst List.length] in *. congruence.
Qed.

Lemma load_in_turn_quiet serial exts :
  forall st, stdout (snd (load_in_turn serial exts st)) = stdout st.
Proof.
  induction exts as [|ext exts IH]; intros st; [reflexivity|].
  cbn [load_in_turn].
  pose proof (preserves_loadExtensionViaRDP
                (fun s => stdout s = stdout st) ltac:(stable) ltac:(stable)
                {| k_val := field ext "path"; k_id := serial |}
                ltac:(stable) st eq_refl) as Hq.
  destruct (loadExtensionViaRDP _ st) as [outcome st1]. cbn [snd] in Hq.
  specialize (IH st1). destruct (load_in_turn serial exts st1) as [outcomes st2].
  cbn [snd] in *. congruence.
Qed.

Lemma load_all_entries_facts exts : forall outcomes,
  List.length outcomes = List.length exts ->
  List.length (load_all_entries exts outcomes) = List.length exts
  /\ map (obj_get "name") (load_all_entries exts outcomes)
     = map (fun ext => field ext "name") exts
  /\ map succeeded (load_all_entries exts outcomes) = map resolved outcomes.
Proof.
  induction exts as [|ext exts IH]; intros [|outcome outcomes] Hlen;
    try discriminate Hlen; [repeat split|].
  injection Hlen as Hlen. destruct (IH outcomes Hlen) as (Hl & Hn & Hs).
  unfold load_all_entries in *. cbn [combine map List.length fst snd].
  rewrite Hl, Hn, Hs. destruct outcome; repeat split.
Qed.

Lemma Map_delete_absent k m : Map_get k m = None -> Map_delete k m = m.
Proof.
  induction m as [|[k' v] m IH]; [reflexivity|]. cbn [Map_get Map_delete filter fst].
  destruct (sameValueZero k k'); [discriminate|]. intros H. cbn [negb].
  f_equal. apply IH, H.
Qed.

Lemma unload_loop_spec (m : ExtMap) :
  Map_wf m ->
  forall results st,
    loadedExtensions st = m ->
    for_of (map fst m)
           (fun k s =>
              st' <- get_state ;;
              if Map_has k (loadedExtensions st') then unload_one k s else ret s)
           results st
    = (inl ((results ++ map unload_all_entry (map fst m))%list, None),
       unload_in_turn (map fst m) st)
    /\ loadedExtensions (unload_in_turn (map fst m) st) = []
    /\ stdout (unload_in_turn (map fst m) st) = stdout st.
Proof.
  induction m as [|[k v] m IH]; intros Hwf results st Hm.
  - cbn. rewrite List.app_nil_r. repeat split; auto.
  - destruct Hwf as [Hk Hwf]. cbn [map fst for_of].
    change (unload_in_turn (k :: map fst m) st)
      with (unload_in_turn (map fst m) (snd (unloadExtension k st))).
    unfold bind at 1, get_state at 1, Map_has. rewrite Hm. cbn [Map_get].
    rewrite sameValueZero_refl. unfold unload_one, bind at 1.
    rewrite (unloadExtension_present k st v)
      by (rewrite Hm; cbn [Map_get]; rewrite sameValueZero_refl; reflexivity).
    cbn [ret snd].
    match goal with
    | |- context [for_of _ _ ?acc ?st1] =>
      destruct (IH Hwf acc st1) as (E & He & Ho)
    end.
    { cbn [loadedExtensions set_loadedExtensions]. rewrite Hm.
      cbn [Map_delete filter fst]. rewrite sameValueZero_refl. cbn [negb].
      apply Map_delete_absent, Hk. }
    split; [etransitivity; [exact E|rewrite <- app_assoc; reflexivity]|].
    split; [exact He|rewrite Ho; reflexivity].
Qed.

Lemma unload_all_entries_facts keys :
  Forall (fun r => succeeded r = true) (map unload_all_entry keys)
  /\ map (obj_get "path") (map unload_all_entry keys) = map k_val keys.
Proof.
  induction keys as [|k keys [IH1 IH2]]; [split; [constructor|reflexivity]|].
  cbn [map]. split; [constructor; [reflexivity|exact IH1]|].
  rewrite IH2. reflexivity.
Qed.

(** C6 (amended): [load_all] scans and then calls the loader once for
    every descriptor of the scan, in order, each call in the state the
    call before has left and whatever came of that call; the state after
    the last call is the one it leaves.  It sends one result per
    descriptor, with the descriptor's name and [success] telling whether
    that call resolved, together with the numbers of successes and of
    failures, which add up to the number of results.  [unload_all] calls
    [unloadExtension] for every key of the map, in order, and leaves the
    state after the last call, in which the map is empty; it sends one
    result per key, each a success with the path, and no counts. *)
Theorem load_all_and_unload_all_cover_every_item
        (serial : nat) (message : json) (st : HostState) :
  (is_case (field message "action") "load_all" = true ->
   exists extensions st0,
     scanExtensionsFolder st = (inl extensions, st0)
     /\ let outcomes := fst (load_in_turn serial extensions st0) in
        let results := load_all_entries extensions outcomes in
        handleMessage serial message st
        = (inl tt,
           set_stdout (stdout st ++ frame (to_json (load_all_response results)))
                      (snd (load_in_turn serial extensions st0)))
        /\ List.length results = List.length extensions
        /\ map (obj_get "name") results = map (fun ext => field ext "name") extensions
        /\ map succeeded results = map resolved outcomes
        /\ (List.length (filter succeeded results)
            + List.length (filter (fun r => negb (succeeded r)) results)
            = List.length results)%nat)
  /\ (is_case (field message "action") "unload_all" = true ->
      Map_wf (loadedExtensions st) ->
      let keys := map fst (loadedExtensions st) in
      let unloadResults := map unload_all_entry keys in
      handleMessage serial message st
      = (inl tt,
         set_stdout (stdout st ++ frame (to_json (unload_all_response unloadResults)))
                    (unload_in_turn keys st))
      /\ List.length unloadResults = List.length (loadedExtensions st)
      /\ Forall (fun r => succeeded r = true) unloadResults
      /\ map (obj_get "path") unloadResults
         = map (fun e => k_val (fst e)) (loadedExtensions st)
      /\ loadedExtensions (unload_in_turn keys st) = []).
Proof.
  split.
  - intros Hact. unfold handleMessage, prop, field in *.
    destruct (get_prop message "action") as [action|]; [|discriminate Hact].
    rewrite bind_ret. cbv beta zeta.
    apply is_case_eq in Hact. subst action.
    change (is_case (str "load_all") "status") with false.
    change (is_case (str "load_all") "scan") with false.
    change (is_case (str "load_all") "set_folder") with false.
    change (is_case (str "load_all") "load") with false.
    change (is_case (str "load_all") "load_all") with true.
    cbv iota.
    destruct (total_scanExtensionsFolder st) as [extensions Es].
    pose proof (preserves_scanExtensionsFolder
                  (fun s => stdout s = stdout st) ltac:(stable) st eq_refl) as Hq.
    assert (Escan : exists st0, scanExtensionsFolder st = (inl extensions, st0)
                                /\ stdout st0 = stdout st).
    { destruct (scanExtensionsFolder st) as [r st0]. cbn [fst snd] in *. subst r.
      exists st0. auto. }
    destruct Escan as (st0 & Escan & Hq0).
    exists extensions, st0. split; [exact Escan|].
    unfold bind at 1. rewrite Escan. unfold bind at 1.
    rewrite load_loop_spec. cbn [app fst].
    rewrite sendMessage_spec, load_in_turn_quiet, Hq0.
    destruct (load_all_entries_facts extensions (fst (load_in_turn serial extensions st0))
                (length_load_in_turn serial extensions st0)) as (Hl & Hn & Hs).
    split; [reflexivity|]. repeat split; auto. apply filter_length.
  - intros Hact Hwf. unfold handleMessage, prop, field in *.
    destruct (get_prop message "action") as [action|]; [|discriminate Hact].
    rewrite bind_ret. cbv beta zeta.
    apply is_case_eq in Hact. subst action.
    change (is_case (str "unload_all") "status") with false.
    change (is_case (str "unload_all") "scan") with false.
    change (is_case (str "unload_all") "set_folder") with false.
    change (is_case (str "unload_all") "load") with false.
    change (is_case (str "unload_all") "load_all") with false.
    change (is_case (str "unload_all") "unload") with false.
    change (is_case (str "unload_all") "unload_all") with true.
    cbv iota.
    destruct (unload_loop_spec (loadedExtensions st) Hwf [] st eq_refl)
      as (E & He & Ho).
    destruct (unload_all_entries_facts (map fst (loadedExtensions st))) as (Hs & Hp).
    unfold bind at 1, for_of_keys, bind at 1, get_state at 1. rewrite E.
    cbn [app fst]. rewrite sendMessage_spec, Ho. split; [reflexivity|].
    rewrite !length_map. split; [reflexivity|]. split; [exact Hs|].
    split; [rewrite Hp, map_map; reflexivity|exact He].
Qed.

End Batches.

(* ================================================================== *)
(** * Scanning, loading and unloading on the concrete machine *)
(* ================================================================== *)

Section BatchesOnPosix.

Import Posix.

(** C7, as stated, fails on a manifest that is the JSON text [null]: of
    the four subdirectories of [/ext], two have a manifest that parses as
    JSON ([a] and [c]), and the scan returns one descriptor. *)
Lemma null_manifest_is_skipped :
  let st := pointed_at_ext without_web_ext in
  let folder := obj_get "extensionFolder" (config st) in
  fs_readdirSync (world st) folder = inl listing_of_ext
  /\ JSON.parse "null" = Some JNull
  /\ List.length (filter (parses_as_JSON (world st) folder) listing_of_ext) = 2%nat
  /\ fst (scanExtensionsFolder st) = inl [descriptor_a]
  /\ List.length [descriptor_a]
     <> List.length (filter (parses_as_JSON (world st) folder) listing_of_ext).
Proof. vm_compute. repeat split; try reflexivity. discriminate. Qed.

Lemma scan_returns_a_descriptor_per_usable_manifest_witness :
  exists st',
    scanExtensionsFolder (pointed_at_ext without_web_ext)
    = (inl (flat_map (@describe platform without_web_ext (str "/ext")) listing_of_ext), st')
    /\ List.length (flat_map (@describe platform without_web_ext (str "/ext")) listing_of_ext)
       = List.length (filter (@usable_manifest platform without_web_ext (str "/ext")) listing_of_ext)
    /\ same_but_stderr (pointed_at_ext without_web_ext) st'.
Proof.
  apply (proj1 (proj2 (scan_returns_a_descriptor_per_usable_manifest
                         (pointed_at_ext without_web_ext))) listing_of_ext);
    vm_compute; reflexivity.
Defined.

(** C6, as stated, fails for [unload_all]: its response has the results
    and nothing else, so no counts of successes and failures. *)
Lemma unload_all_sends_no_counts :
  stdout (snd (turn 1 (request "unload_all" undefined) a_loaded))
  = stdout a_loaded ++ frame unload_all_answer
  /\ (forall k : string,
         k <> "type"%string -> k <> "results"%string ->
         field unload_all_answer k = undefined).
Proof.
  split; [vm_compute; reflexivity|].
  intros k Ht Hr. unfold field, get_prop, unload_all_answer.
  cbn [map fst snd obj_literal fold_left obj_set].
  change (String.eqb "results" "type") with false. cbv iota.
  cbn [obj_get].
  apply String.eqb_neq in Ht, Hr. rewrite Ht, Hr. reflexivity.
Qed.

Lemma load_all_and_unload_all_cover_every_item_witness :
  (exists extensions st0,
      scanExtensionsFolder (pointed_at_ext with_web_ext) = (inl extensions, st0)
      /\ let outcomes := fst (load_in_turn 0 extensions st0) in
         let results := load_all_entries extensions outcomes in
         handleMessage 0 (request "load_all" undefined) (pointed_at_ext with_web_ext)
         = (inl tt,
            set_stdout (stdout (pointed_at_ext with_web_ext)
                        ++ frame (to_json (load_all_response results)))
                       (snd (load_in_turn 0 extensions st0)))
         /\ List.length results = List.length extensions
         /\ map (obj_get "name") results = map (fun ext => field ext "name") extensions
         /\ map succeeded results = map resolved outcomes
         /\ (List.length (filter succeeded results)
             + List.length (filter (fun r => negb (succeeded r)) results)
             = List.length results)%nat)
  /\ (let keys := map fst (loadedExtensions a_loaded) in
      let unloadResults := map unload_all_entry keys in
      handleMessage 1 (request "unload_all" undefined) a_loaded
      = (inl tt,
         set_stdout (stdout a_loaded
                     ++ frame (to_json (unload_all_response unloadResults)))
                    (unload_in_turn keys a_loaded))
      /\ List.length unloadResults = List.length (loadedExtensions a_loaded)
      /\ Forall (fun r => succeeded r = true) unloadResults
      /\ map (obj_get "path") unloadResults
         = map (fun e => k_val (fst e)) (loadedExtensions a_loaded)
      /\ loadedExtensions (unload_in_turn keys a_loaded) = []).
Proof.
  split.
  - apply (proj1 (load_all_and_unload_all_cover_every_item
                    0 (request "load_all" undefined) (pointed_at_ext with_web_ext))).
    vm_compute. reflexivity.
  - apply (proj2 (load_all_and_unload_all_cover_every_item
                    1 (request "unload_all" undefined) a_loaded)).
    + vm_compute. reflexivity.
    + vm_compute. auto.
Defined.


Lemma profile_loads_are_not_recorded_witness :
  loadedExtensions (snd (turn 0 (request "load" (str "/ext/a")) (boot without_web_ext)))
  = loadedExtensions (boot without_web_ext)
  /\ Map_size (loadedExtensions
                 (snd (turn 0 (request "load" (str "/ext/a")) (boot without_web_ext))))
     = Map_size (loadedExtensions (boot without_web_ext)).
Proof.
  apply (proj1 (proj2 profile_loads_are_not_recorded)
               0%nat (request "load" (str "/ext/a")) (boot without_web_ext)).
  - vm_compute. reflexivity.
  - intros v. vm_compute. intros H. injection H as <-. reflexivity.
Defined.

End BatchesOnPosix.

(* ================================================================== *)
(** * Indented texts of JSON values *)
(* ================================================================== *)

Module JSONIndentFacts.

Import JSONFacts.

Lemma skip_ws_blank ws l : blank ws -> skip_ws (ws ++ l) = skip_ws l.
Proof.
  induction 1 as [|c ws Hc _ IH]; [reflexivity|]. cbn [app skip_ws]. rewrite Hc. exact IH.
Qed.

Lemma parse_value_blank fuel ws s :
  blank ws -> parse_value fuel (ws ++ s) = parse_value fuel s.
Proof.
  intros H. destruct fuel; [reflexivity|]. cbn [parse_value].
  rewrite skip_ws_blank by exact H. reflexivity.
Qed.

Lemma parse_elements_blank fuel ws s :
  blank ws -> parse_elements fuel (ws ++ s) = parse_elements fuel s.
Proof.
  intros H. destruct fuel; [reflexivity|]. rewrite !parse_elements_S.
  rewrite parse_value_blank by exact H. reflexivity.
Qed.

Lemma parse_members_blank fuel ws s :
  blank ws -> parse_members fuel (ws ++ s) = parse_members fuel s.
Proof.
  intros H. destruct fuel; [reflexivity|]. rewrite !parse_members_S.
  rewrite skip_ws_blank by exact H. reflexivity.
Qed.

Lemma blank_app a b : blank a -> blank b -> blank (a ++ b).
Proof. intros Ha Hb. apply Forall_app. split; assumption. Qed.

Lemma blank_nl l : blank l -> blank (LF :: l).
Proof. intros H. constructor; [reflexivity|exact H]. Qed.

Lemma blank_spaces n : blank (repeat " "%char n).
Proof. induction n; constructor; [reflexivity|assumption]. Qed.

Section Gap.

Variable gap : list ascii.
Hypothesis gap_blank : blank gap.
Hypothesis gap_nonempty : gap <> [].

Lemma indented_arr ind items :
  serialize gap ind (JArr items) =
  match items with
  | [] => ["["%char; "]"%char]
  | _ => "["%char :: LF :: (ind ++ gap)
         ++ join (","%char :: LF :: ind ++ gap) (map (serialize gap (ind ++ gap)) items)
         ++ LF :: ind ++ ["]"%char]
  end.
Proof.
  destruct items; [reflexivity|]. cbn [serialize].
  destruct gap; [congruence|reflexivity].
Qed.

Lemma indented_obj ind props :
  serialize gap ind (JObj props) =
  match props with
  | [] => ["{"%char; "}"%char]
  | _ => "{"%char :: LF :: (ind ++ gap)
         ++ join (","%char :: LF :: ind ++ gap) (map (member_indented gap (ind ++ gap)) props)
         ++ LF :: ind ++ ["}"%char]
  end.
Proof.
  destruct props; [reflexivity|]. cbn [serialize].
  destruct gap; [congruence|reflexivity].
Qed.

Lemma indented_head ind v :
  exists c r, serialize gap ind v = c :: r /\ value_start c = true.
Proof.
  destruct v as [|[]|n|s|items|props].
  - eexists; eexists; split; reflexivity.
  - eexists; eexists; split; reflexivity.
  - eexists; eexists; split; reflexivity.
  - destruct (number_chars_head n) as (c & r & E & H).
    exists c, r. split; [exact E|]. apply number_start_value_start, H.
  - eexists; eexists; split; reflexivity.
  - rewrite indented_arr. destruct items; eexists; eexists; split; reflexivity.
  - rewrite indented_obj. destruct props; eexists; eexists; split; reflexivity.
Qed.

Lemma skip_ws_indented ind v l :
  skip_ws (serialize gap ind v ++ l) = serialize gap ind v ++ l.
Proof.
  destruct (indented_head ind v) as (c & r & E & H). rewrite E. cbn [app].
  apply skip_ws_keep, value_start_not_ws, H.
Qed.

Lemma ends_after_comma l : ends_a_number (","%char :: l).
Proof. split; reflexivity. Qed.

Lemma ends_after_nl l : ends_a_number (LF :: l).
Proof. split; reflexivity. Qed.

Lemma parse_elements_indented ind' ind items :
  blank ind' -> blank ind ->
  items <> [] ->
  Forall (parses_back_indented gap ind') items ->
  forall fuel rest,
    (need_elements items <= fuel)%nat ->
    parse_elements fuel
      (join (","%char :: LF :: ind') (map (serialize gap ind') items)
       ++ LF :: ind ++ "]"%char :: rest)
    = Some (items, rest).
Proof.
  intros Hind' Hind Hne Hall. induction Hall as [|x xs Hx Hxs IH]; [congruence|].
  intros fuel rest Hfuel. cbn [need_elements fold_right] in Hfuel.
  fold (need_elements xs) in Hfuel.
  destruct fuel as [|fuel]; [lia|]. rewrite parse_elements_S.
  destruct xs as [|y ys].
  - cbn [map join]. rewrite Hx by (try apply ends_after_nl; lia).
    change (LF :: ind ++ "]"%char :: rest) with ((LF :: ind) ++ "]"%char :: rest).
    rewrite skip_ws_blank by (apply blank_nl, Hind).
    rewrite skip_ws_keep by reflexivity. reflexivity.
  - change (join (","%char :: LF :: ind') (map (serialize gap ind') (x :: y :: ys)))
      with (serialize gap ind' x ++ (","%char :: LF :: ind')
            ++ join (","%char :: LF :: ind') (map (serialize gap ind') (y :: ys))).
    rewrite <- !app_assoc. cbn [app].
    rewrite Hx by (try apply ends_after_comma; lia).
    rewrite skip_ws_keep by reflexivity.
    change ("," =? ",")%char with true. cbv iota.
    change (LF :: ind' ++ ?l) with ((LF :: ind') ++ l).
    rewrite parse_elements_blank by (apply blank_nl, Hind').
    rewrite IH by (congruence || lia). reflexivity.
Qed.

Lemma parse_members_indented ind' ind props :
  blank ind' -> blank ind ->
  props <> [] ->
  Forall (fun kv => parses_back_indented gap ind' (snd kv)) props ->
  forall fuel rest,
    (need_members props <= fuel)%nat ->
    parse_members fuel
      (join (","%char :: LF :: ind') (map (member_indented gap ind') props)
       ++ LF :: ind ++ "}"%char :: rest)
    = Some (props, rest).
Proof.
  intros Hind' Hind Hne Hall. induction Hall as [|[k x] xs Hx Hxs IH]; [congruence|].
  intros fuel rest Hfuel. cbn [need_members fold_right snd] in Hfuel.
  fold (need_members xs) in Hfuel. cbn [snd] in Hx.
  destruct fuel as [|fuel]; [lia|]. rewrite parse_members_S.
  destruct xs as [|y ys].
  - cbn [map join]. unfold member_indented. cbn [fst snd].
    rewrite <- app_assoc, skip_ws_quote, parse_string_quote.
    cbn [app]. rewrite skip_ws_keep by reflexivity.
    change (":" =? ":")%char with true. cbv iota.
    change (" "%char :: ?l) with ([" "%char] ++ l).
    rewrite parse_value_blank by (repeat constructor).
    rewrite <- ?app_assoc.
    rewrite Hx by (try apply ends_after_nl; lia).
    change (LF :: ind ++ "}"%char :: rest) with ((LF :: ind) ++ "}"%char :: rest).
    rewrite skip_ws_blank by (apply blank_nl, Hind).
    rewrite skip_ws_keep by reflexivity. reflexivity.
  - change (join (","%char :: LF :: ind') (map (member_indented gap ind') ((k, x) :: y :: ys)))
      with (member_indented gap ind' (k, x) ++ (","%char :: LF :: ind')
            ++ join (","%char :: LF :: ind') (map (member_indented gap ind') (y :: ys))).
    unfold member_indented at 1. cbn [fst snd].
    rewrite <- !app_assoc, skip_ws_quote, parse_string_quote.
    cbn [app]. rewrite skip_ws_keep by reflexivity.
    change (":" =? ":")%char with true. cbv iota.
    change (" "%char :: ?l) with ([" "%char] ++ l).
    rewrite parse_value_blank by (repeat constructor).
    rewrite <- ?app_assoc. cbn [app].
    rewrite Hx by (try apply ends_after_comma; lia).
    rewrite skip_ws_keep by reflexivity.
    change ("," =? ",")%char with true. cbv iota.
    change (LF :: ind' ++ ?l) with ((LF :: ind') ++ l).
    rewrite parse_members_blank by (apply blank_nl, Hind').
    rewrite IH by (congruence || lia). reflexivity.
Qed.

Lemma parse_number_before n rest :
  ends_a_number rest -> parse_number (number_chars n ++ rest) = Some (JNum n, rest).
Proof.
  intros [Hd Hf].
  pose proof (DecimalZ.of_to n) as Hn.
  unfold number_chars, parse_number.
  destruct n as [|p|p]; cbn [Z.to_int] in *.
  - cbn [uint_chars app]. change (digit_char 0 =? "-")%char with false. cbv iota.
    change (digit_char 0 :: rest) with (uint_chars (Decimal.D0 Decimal.Nil) ++ rest).
    rewrite read_uint_chars by exact Hd. rewrite Hf. reflexivity.
  - destruct (uint_chars_head (Pos.to_uint p)) as (c & r & E & Hm & _).
    { apply DecimalPos.Unsigned.to_uint_nonnil. }
    assert (Hs : match uint_chars (Pos.to_uint p) ++ rest with
                 | [] => (false, uint_chars (Pos.to_uint p) ++ rest)
                 | c0 :: r0 =>
                   if (c0 =? "-")%char then (true, r0)
                   else (false, uint_chars (Pos.to_uint p) ++ rest)
                 end = (false, uint_chars (Pos.to_uint p) ++ rest)).
    { rewrite E. cbn [app]. rewrite Hm. reflexivity. }
    rewrite Hs. clear Hs.
    rewrite read_uint_chars by exact Hd. rewrite Hf.
    pose proof (to_uint_no_leading_zero p) as Hz.
    destruct (Pos.to_uint p) eqn:Eu; try (rewrite <- Hn; reflexivity).
    + discriminate E.
    + exfalso. exact (Hz _ eq_refl).
  - cbn [app]. change ("-" =? "-")%char with true. cbv iota.
    rewrite read_uint_chars by exact Hd. rewrite Hf.
    pose proof (to_uint_no_leading_zero p) as Hz.
    destruct (Pos.to_uint p) eqn:Eu; try (rewrite <- Hn; reflexivity).
    + exfalso. exact (DecimalPos.Unsigned.to_uint_nonnil p Eu).
    + exfalso. exact (Hz _ eq_refl).
Qed.

Lemma bracketed_text (opening closing : ascii) (a J ind rest : list ascii) :
  (opening :: LF :: a ++ J ++ LF :: ind ++ [closing]) ++ rest
  = opening :: (LF :: a) ++ (J ++ LF :: ind ++ closing :: rest).
Proof.
  cbn [app]. do 2 f_equal. rewrite <- !app_assoc. do 2 f_equal.
  cbn [app]. rewrite <- app_assoc. reflexivity.
Qed.

Lemma parse_indented v : forall ind, blank ind -> parses_back_indented gap ind v.
Proof.
  induction v as [|b|n|s|items IH|props IH] using json_ind;
    intros ind Hind fuel rest Hfuel Hrest.
  - destruct fuel; [cbn in Hfuel; lia|]. reflexivity.
  - destruct fuel; [cbn in Hfuel; lia|]. destruct b; reflexivity.
  - destruct fuel; [cbn in Hfuel; lia|].
    change (serialize gap ind (JNum n)) with (number_chars n).
    destruct (number_chars_head n) as (c & r & E & H).
    rewrite E. cbn [app]. rewrite parse_value_number by exact H.
    change (c :: r ++ rest) with ((c :: r) ++ rest).
    rewrite <- E. apply parse_number_before, Hrest.
  - destruct fuel; [cbn in Hfuel; lia|].
    change (serialize gap ind (JStr s)) with (quote s).
    destruct (quote_head s) as (q & E). rewrite E. cbn [app].
    rewrite parse_value_string.
    change (dquote :: q ++ rest) with ((dquote :: q) ++ rest).
    rewrite <- E, parse_string_quote. reflexivity.
  - destruct fuel; [cbn in Hfuel; lia|].
    rewrite indented_arr. destruct items as [|x xs]; [reflexivity|].
    rewrite bracketed_text, parse_value_array.
    assert (Hblank : blank (LF :: ind ++ gap))
      by (apply blank_nl, blank_app; assumption).
    rewrite skip_ws_blank by exact Hblank.
    rewrite parse_elements_blank by exact Hblank.
    destruct (indented_head (ind ++ gap) x) as (c & r & E & H).
    assert (Hh : head_is "]"%char
                   (skip_ws (join (","%char :: LF :: ind ++ gap)
                                  (map (serialize gap (ind ++ gap)) (x :: xs))
                             ++ LF :: ind ++ "]"%char :: rest)) = false).
    { cbn [map]. destruct xs; cbn [join map]; rewrite <- ?app_assoc;
        rewrite skip_ws_indented, E; cbn [app head_is];
        apply value_start_not_bracket, H. }
    rewrite Hh.
    rewrite (parse_elements_indented (ind ++ gap) ind (x :: xs));
      [reflexivity|apply blank_app; assumption|exact Hind|congruence| |].
    + eapply Forall_impl; [|exact IH]. intros a Ha. apply Ha, blank_app; assumption.
    + cbn [need] in Hfuel. unfold need_elements. lia.
  - destruct fuel; [cbn in Hfuel; lia|].
    rewrite indented_obj. destruct props as [|[k x] xs]; [reflexivity|].
    rewrite bracketed_text, parse_value_object.
    assert (Hblank : blank (LF :: ind ++ gap))
      by (apply blank_nl, blank_app; assumption).
    rewrite skip_ws_blank by exact Hblank.
    rewrite parse_members_blank by exact Hblank.
    assert (Hh : head_is "}"%char
                   (skip_ws (join (","%char :: LF :: ind ++ gap)
                                  (map (member_indented gap (ind ++ gap)) ((k, x) :: xs))
                             ++ LF :: ind ++ "}"%char :: rest)) = false).
    { cbn [map]. unfold member_indented at 1. cbn [fst snd].
      destruct xs; cbn [join map]; rewrite <- ?app_assoc;
        rewrite skip_ws_quote; reflexivity. }
    rewrite Hh.
    rewrite (parse_members_indented (ind ++ gap) ind ((k, x) :: xs));
      [reflexivity|apply blank_app; assumption|exact Hind|congruence| |].
    + eapply Forall_impl; [|exact IH]. intros a Ha. apply Ha, blank_app; assumption.
    + cbn [need] in Hfuel. unfold need_members. lia.
Qed.

Lemma need_le_join {A} (f : A -> list ascii) (w : A -> nat) sep items :
  (1 <= List.length sep)%nat ->
  Forall (fun x => (w x <= List.length (f x))%nat) items ->
  (fold_right (fun x n => S (w x + n)) 0 items
   <= List.length (join sep (map f items)) + 1)%nat.
Proof.
  intros Hsep. induction 1 as [|x xs Hx _ IH]; [cbn; lia|].
  destruct xs as [|y ys].
  - cbn. lia.
  - change (join sep (map f (x :: y :: ys)))
      with (f x ++ sep ++ join sep (map f (y :: ys))).
    rewrite !length_app. cbn [fold_right] in *. lia.
Qed.

Lemma need_le_indented v : forall ind, (need v <= List.length (serialize gap ind v))%nat.
Proof.
  induction v as [|b|n|s|items IH|props IH] using json_ind; intros ind.
  - cbn. lia.
  - destruct b; cbn; lia.
  - destruct (number_chars_head n) as (c & r & E & _).
    change (serialize gap ind (JNum n)) with (number_chars n). rewrite E. cbn. lia.
  - destruct (quote_head s) as (q & E).
    change (serialize gap ind (JStr s)) with (quote s). rewrite E. cbn. lia.
  - rewrite indented_arr. destruct items as [|x xs]; [cbn; lia|].
    cbn [List.length need]. rewrite !length_app. cbn [List.length].
    pose proof (need_le_join (serialize gap (ind ++ gap)) need
                             (","%char :: LF :: ind ++ gap) (x :: xs)) as Hsum.
    cbn [List.length] in Hsum. specialize (Hsum ltac:(lia)).
    rewrite ?length_app in Hsum |- *.
    assert (Hall : Forall (fun y => (need y <= List.length (serialize gap (ind ++ gap) y))%nat)
                          (x :: xs))
      by (eapply Forall_impl; [|exact IH]; intros a Ha; apply Ha).
    specialize (Hsum Hall). lia.
  - rewrite indented_obj. destruct props as [|x xs]; [cbn; lia|].
    cbn [List.length need]. rewrite !length_app. cbn [List.length].
    pose proof (need_le_join (member_indented gap (ind ++ gap)) (fun kv => need (snd kv))
                             (","%char :: LF :: ind ++ gap) (x :: xs)) as Hsum.
    cbn [List.length] in Hsum. specialize (Hsum ltac:(lia)).
    rewrite ?length_app in Hsum |- *.
    assert (Hall : Forall (fun kv => (need (snd kv)
                                      <= List.length (member_indented gap (ind ++ gap) kv))%nat)
                          (x :: xs)).
    { eapply Forall_impl; [|exact IH]. intros a Ha. unfold member_indented.
      rewrite length_app. cbn [List.length]. specialize (Ha (ind ++ gap)). lia. }
    specialize (Hsum Hall). lia.
Qed.

End Gap.

(** [JSON.parse] inverts [JSON.stringify] with an indentation too. *)
Lemma parse_stringify_indent n v : JSON.parse (JSON.stringify_indent n v) = Some v.
Proof.
  destruct n as [|n]; [apply parse_stringify|].
  unfold JSON.parse, JSON.stringify_indent.
  rewrite list_ascii_of_string_of_list_ascii.
  set (gap := repeat " "%char (S n)).
  assert (Hgap : gap <> []) by (subst gap; cbn; congruence).
  rewrite <- (List.app_nil_r (serialize gap [] v)) at 2.
  rewrite (parse_indented gap (blank_spaces (S n)) Hgap v []);
    [reflexivity|constructor| |split; reflexivity].
  pose proof (need_le_indented gap (blank_spaces (S n)) Hgap v []). lia.
Qed.

End JSONIndentFacts.

(* ================================================================== *)
(** * Facts about objects *)
(* ================================================================== *)

Section ObjectFacts.

Lemma obj_get_set k k' v o :
  obj_get k (obj_set k' v o) = if String.eqb k k' then v else obj_get k o.
Proof.
  induction o as [|[k1 v1] o IH]; cbn [obj_set obj_get].
  - destruct (String.eqb k k'); reflexivity.
  - destruct (String.eqb_spec k' k1) as [->|Hne]; cbn [obj_get].
    + destruct (String.eqb k k1); reflexivity.
    + destruct (String.eqb_spec k k1) as [->|Hne'].
      * destruct (String.eqb_spec k1 k'); [congruence|reflexivity].
      * exact IH.
Qed.

Lemma keys_obj_set_in k v o : In k (keys o) -> keys (obj_set k v o) = keys o.
Proof.
  induction o as [|[k1 v1] o IH]; [intros []|]. cbn [obj_set keys map fst].
  destruct (String.eqb_spec k k1) as [->|Hne]; [reflexivity|].
  intros [E|Hin]; [congruence|]. cbn [map fst]. f_equal. apply IH, Hin.
Qed.

Lemma keys_obj_set_notin k v o :
  ~ In k (keys o) -> keys (obj_set k v o) = (keys o ++ [k])%list.
Proof.
  induction o as [|[k1 v1] o IH]; [reflexivity|]. cbn [obj_set keys map fst].
  destruct (String.eqb_spec k k1) as [->|Hne]; [intros H; exfalso; apply H; left; reflexivity|].
  intros H. cbn [map fst app]. f_equal. apply IH. intros Hin. apply H. right. exact Hin.
Qed.

Lemma NoDup_keys_obj_set k v o : NoDup (keys o) -> NoDup (keys (obj_set k v o)).
Proof.
  intros Hn. destruct (in_dec string_dec k (keys o)) as [Hin|Hnin].
  - rewrite keys_obj_set_in by exact Hin. exact Hn.
  - rewrite keys_obj_set_notin by exact Hnin.
    apply NoDup_app; [exact Hn|repeat constructor; intros []|].
    intros x Hx [<-|[]]. exact (Hnin Hx).
Qed.

Lemma NoDup_keys_fold l : forall acc,
  NoDup (keys acc) ->
  NoDup (keys (fold_left (fun o kv => obj_set (fst kv) (snd kv) o) l acc)).
Proof.
  induction l as [|[k v] l IH]; intros acc Hacc; [exact Hacc|].
  cbn [fold_left fst snd]. apply IH, NoDup_keys_obj_set, Hacc.
Qed.

Lemma NoDup_keys_obj_literal l : NoDup (keys (obj_literal l)).
Proof. apply NoDup_keys_fold. constructor. Qed.

Lemma find_over_app {A} (f : A -> bool) l1 l2 :
  find f (l1 ++ l2) = match find f l1 with Some x => Some x | None => find f l2 end.
Proof.
  induction l1 as [|a l1 IH]; [reflexivity|]. cbn [app find].
  destruct (f a); [reflexivity|exact IH].
Qed.

Lemma find_nowhere {A} (f : A -> bool) l :
  (forall x, In x l -> f x = false) -> find f l = None.
Proof.
  induction l as [|a l IH]; intros H; [reflexivity|]. cbn [find].
  rewrite (H a (or_introl eq_refl)). apply IH. intros x Hx. apply H. right. exact Hx.
Qed.

(** Later definitions of a key win. *)
Lemma obj_get_fold k l : forall acc,
  obj_get k (fold_left (fun o kv => obj_set (fst kv) (snd kv) o) l acc)
  = match find (fun kv => String.eqb k (fst kv)) (rev l) with
    | Some kv => snd kv
    | None => obj_get k acc
    end.
Proof.
  induction l as [|[k1 v1] l IH]; intros acc; [reflexivity|].
  cbn [fold_left fst snd rev]. rewrite IH, find_over_app.
  destruct (find _ (rev l)); [reflexivity|]. cbn [find fst snd].
  rewrite obj_get_set. destruct (String.eqb k k1); reflexivity.
Qed.

Lemma obj_get_literal k l :
  obj_get k (obj_literal l)
  = match find (fun kv => String.eqb k (fst kv)) (rev l) with
    | Some kv => snd kv
    | None => undefined
    end.
Proof. unfold obj_literal. rewrite obj_get_fold. reflexivity. Qed.

Lemma obj_literal_NoDup o : NoDup (keys o) -> obj_literal o = o.
Proof.
  unfold obj_literal.
  assert (H : forall acc, NoDup (keys (acc ++ o)) ->
                fold_left (fun o kv => obj_set (fst kv) (snd kv) o) o acc = (acc ++ o)%list).
  { induction o as [|[k v] o IH]; intros acc Hn; [cbn; rewrite List.app_nil_r; reflexivity|].
    cbn [fold_left fst snd].
    assert (Hk : ~ In k (keys acc)).
    { unfold keys in *. rewrite map_app in Hn. cbn [map fst] in Hn.
      apply NoDup_remove_2 in Hn. intros Hin. apply Hn, in_or_app. left. exact Hin. }
    assert (Hset : obj_set k v acc = (acc ++ [(k, v)])%list).
    { clear - Hk. induction acc as [|[k1 v1] acc IHa]; [reflexivity|].
      cbn [obj_set]. destruct (String.eqb_spec k k1) as [->|Hne].
      - exfalso. apply Hk. left. reflexivity.
      - cbn [app]. f_equal. apply IHa. intros Hin. apply Hk. right. exact Hin. }
    rewrite Hset, IH; rewrite <- app_assoc; [reflexivity|exact Hn]. }
  intros Hn. apply (H [] Hn).
Qed.

Lemma keys_to_json_props_incl o k : In k (keys (lift (to_json_props o))) -> In k (keys o).
Proof.
  induction o as [|[k1 [v|]] o IH]; cbn; [intros []| |]; intuition.
Qed.

Lemma NoDup_keys_to_json_props o :
  NoDup (keys o) -> NoDup (keys (lift (to_json_props o))).
Proof.
  induction o as [|[k1 [v|]] o IH]; cbn; intros Hn; [constructor| |];
    inversion Hn as [|? ? Hk Hn']; subst.
  - constructor; [|apply IH, Hn']. intros Hin. apply Hk.
    apply keys_to_json_props_incl. exact Hin.
  - apply IH, Hn'.
Qed.

Lemma obj_get_to_json_props k o :
  NoDup (keys o) -> obj_get k (lift (to_json_props o)) = obj_get k o.
Proof.
  induction o as [|[k1 [v|]] o IH]; cbn; intros Hn; [reflexivity| |];
    inversion Hn as [|? ? Hk Hn']; subst.
  - destruct (String.eqb k k1); [reflexivity|apply IH, Hn'].
  - destruct (String.eqb_spec k k1) as [->|Hne]; [|apply IH, Hn'].
    etransitivity; [exact (IH Hn')|].
    clear - Hk. induction o as [|[k2 v2] o IHo]; [reflexivity|].
    cbn [obj_get]. destruct (String.eqb_spec k1 k2) as [->|Hne].
    + exfalso. apply Hk. left. reflexivity.
    + apply IHo. intros Hin. apply Hk. right. exact Hin.
Qed.

(** Reading a property of what [JSON.stringify] sees of an object. *)
Lemma field_to_json k o : NoDup (keys o) -> field (to_json o) k = obj_get k o.
Proof.
  intros Hn. unfold field, to_json, get_prop. fold (lift (to_json_props o)).
  rewrite obj_literal_NoDup by (apply NoDup_keys_to_json_props, Hn).
  apply obj_get_to_json_props, Hn.
Qed.

Lemma field_to_json_literal k l :
  field (to_json (obj_literal l)) k = obj_get k (obj_literal l).
Proof. apply field_to_json, NoDup_keys_obj_literal. Qed.

End ObjectFacts.

(* ================================================================== *)
(** * Further properties of the framer *)
(* ================================================================== *)

Section FramerMore.

Import FramerFacts.

Lemma byte_of_Z_of_byte b : byte_of_Z (Z_of_byte b) = b.
Proof. destruct b; reflexivity. Qed.

Lemma byte_of_Z_mod z : byte_of_Z (z mod 256) = byte_of_Z z.
Proof. unfold byte_of_Z. rewrite Z.mod_mod by lia. reflexivity. Qed.

Lemma Z_of_byte_range b : 0 <= Z_of_byte b < 256.
Proof. destruct b; vm_compute; split; congruence. Qed.

Lemma readUInt32LE_sum b0 b1 b2 b3 :
  readUInt32LE [b0; b1; b2; b3]
  = Z_of_byte b0 + 256 * (Z_of_byte b1 + 256 * (Z_of_byte b2 + 256 * Z_of_byte b3)).
Proof.
  pose proof (Z_of_byte_range b0). pose proof (Z_of_byte_range b1).
  pose proof (Z_of_byte_range b2). pose proof (Z_of_byte_range b3).
  unfold readUInt32LE. rewrite !Z.shiftl_mul_pow2 by lia.
  rewrite (lor_low_high (Z_of_byte b2 * 2 ^ 16) (Z_of_byte b3) 24) by lia.
  replace (Z_of_byte b2 * 2 ^ 16 + Z_of_byte b3 * 2 ^ 24)
    with ((Z_of_byte b2 + 256 * Z_of_byte b3) * 2 ^ 16) by lia.
  rewrite (lor_low_high (Z_of_byte b1 * 2 ^ 8) _ 16) by lia.
  replace (Z_of_byte b1 * 2 ^ 8 + (Z_of_byte b2 + 256 * Z_of_byte b3) * 2 ^ 16)
    with ((Z_of_byte b1 + 256 * (Z_of_byte b2 + 256 * Z_of_byte b3)) * 2 ^ 8) by lia.
  rewrite (lor_low_high (Z_of_byte b0) _ 8) by lia.
  lia.
Qed.

(** X1: the length prefix is a faithful encoding: reading what was
    written for a number below 2^32 gives the number back, four bytes
    always read as a number below 2^32, and writing that number gives the
    four bytes back. *)
Theorem length_prefix_round_trip (n : Z) (b0 b1 b2 b3 : byte) :
  0 <= n < 2 ^ 32 ->
  List.length (writeUInt32LE n) = 4%nat
  /\ readUInt32LE (writeUInt32LE n) = n
  /\ 0 <= readUInt32LE [b0; b1; b2; b3] < 2 ^ 32
  /\ writeUInt32LE (readUInt32LE [b0; b1; b2; b3]) = [b0; b1; b2; b3].
Proof.
  intros Hn. split; [reflexivity|]. split; [apply read_write_UInt32LE, Hn|].
  pose proof (Z_of_byte_range b0). pose proof (Z_of_byte_range b1).
  pose proof (Z_of_byte_range b2). pose proof (Z_of_byte_range b3).
  rewrite readUInt32LE_sum. split; [lia|].
  unfold writeUInt32LE. rewrite !Z.shiftr_div_pow2 by lia.
  set (v := Z_of_byte b0 + 256 * (Z_of_byte b1 + 256 * (Z_of_byte b2 + 256 * Z_of_byte b3))).
  rewrite <- (byte_of_Z_of_byte b0) at 1. rewrite <- (byte_of_Z_of_byte b1) at 1.
  rewrite <- (byte_of_Z_of_byte b2) at 1. rewrite <- (byte_of_Z_of_byte b3) at 1.
  rewrite <- (byte_of_Z_mod v), <- (byte_of_Z_mod (v / 2 ^ 8)),
    <- (byte_of_Z_mod (v / 2 ^ 16)), <- (byte_of_Z_mod (v / 2 ^ 24)).
  replace (v mod 256) with (Z_of_byte b0) by (subst v; Z.to_euclidean_division_equations; lia).
  replace ((v / 2 ^ 8) mod 256) with (Z_of_byte b1)
    by (subst v; Z.to_euclidean_division_equations; lia).
  replace ((v / 2 ^ 16) mod 256) with (Z_of_byte b2)
    by (subst v; Z.to_euclidean_division_equations; lia).
  replace ((v / 2 ^ 24) mod 256) with (Z_of_byte b3)
    by (subst v; Z.to_euclidean_division_equations; lia).
  reflexivity.
Qed.

Lemma length_prefix_round_trip_witness :
  List.length (writeUInt32LE 1000) = 4%nat
  /\ readUInt32LE (writeUInt32LE 1000) = 1000
  /\ 0 <= readUInt32LE [Byte.xe8; Byte.x03; Byte.x00; Byte.x00] < 2 ^ 32
  /\ writeUInt32LE (readUInt32LE [Byte.xe8; Byte.x03; Byte.x00; Byte.x00])
     = [Byte.xe8; Byte.x03; Byte.x00; Byte.x00].
Proof.
  apply (length_prefix_round_trip 1000 Byte.xe8 Byte.x03 Byte.x00 Byte.x00).
  lia.
Defined.

End FramerMore.

(* ================================================================== *)
(** * Further properties of the main loop *)
(* ================================================================== *)

Section LoopMore.

Context {P : Platform}.

Import FramerFacts.

Local Open Scope host_scope.

Lemma length_frame v : (4 <= List.length (frame v))%nat.
Proof. unfold frame. rewrite length_app. cbn. lia. Qed.

Lemma main_loop_frame fuel serial v rest :
  deliverable v ->
  main_loop (S fuel) serial (Listening false) (frame v ++ rest)
  = (turn serial v ;; main_loop fuel (S serial) (Listening false) rest).
Proof.
  intros [Hv Hlen]. cbn [main_loop]. rewrite readMessage_on_frame by exact Hlen.
  destruct v; try reflexivity. congruence.
Qed.

Lemma main_loop_frames vs :
  forall fuel serial,
    Forall deliverable vs -> (List.length vs < fuel)%nat ->
    main_loop fuel serial (Listening false) (List.concat (map frame vs)) = turns serial vs.
Proof.
  induction vs as [|v vs IH]; intros fuel serial Hall Hfuel.
  - destruct fuel; [lia|]. reflexivity.
  - inversion Hall as [|? ? Hv Hvs]; subst. destruct fuel as [|fuel]; [cbn in Hfuel; lia|].
    cbn [map List.concat turns]. rewrite main_loop_frame by exact Hv.
    rewrite IH; [reflexivity|exact Hvs|cbn in Hfuel; lia].
Qed.

Lemma length_concat_frames vs :
  (List.length vs <= List.length (List.concat (map frame vs)))%nat.
Proof.
  induction vs as [|v vs IH]; [reflexivity|]. cbn [map List.concat List.length].
  rewrite length_app. pose proof (length_frame v). lia.
Qed.

(** X2: given a stream of frames, each carrying a message other than
    [null] in less than 1 MiB, the helper loads its configuration and then
    hands the messages to the dispatcher one after the other, in the order
    of the frames, and stops at the end of the stream. *)
Theorem main_handles_the_framed_messages_in_order (vs : list json) :
  Forall deliverable vs ->
  main (List.concat (map frame vs)) = (loadConfig ;; turns 0 vs).
Proof.
  intros Hall. unfold main. rewrite main_loop_frames; [reflexivity|exact Hall|].
  pose proof (length_concat_frames vs). lia.
Qed.

(** X3: a frame whose body is the JSON text [null] is taken for the end
    of the input: the loop stops there, writes nothing, and the frames
    behind it are never handled. *)
Theorem null_frame_ends_the_loop
        (fuel serial : nat) (rest : list byte) (st : HostState) :
  readMessage (frame JNull ++ rest) = (Resolved JNull, rest)
  /\ readMessage [] = (Resolved JNull, [])
  /\ main_loop fuel serial (Listening false) (frame JNull ++ rest) st = (inl tt, st).
Proof.
  assert (E : readMessage (frame JNull ++ rest) = (Resolved JNull, rest))
    by (apply readMessage_frame; vm_compute; reflexivity).
  split; [exact E|]. split; [reflexivity|].
  destruct fuel; [reflexivity|].
  cbn [main_loop readMessage_on]. rewrite E. reflexivity.
Qed.

(** X4: when the input ends before the four length bytes, or before the
    body they announce, are complete, the reader settles on [null]: the
    loop ends without a response and without a trace. *)
Theorem truncated_input_ends_the_loop
        (fuel serial : nat) (input : list byte) (st : HostState) :
  (List.length input < 4)%nat
  \/ Z.of_nat (List.length input) - 4 < readUInt32LE (firstn 4 input) ->
  readMessage input = (Resolved JNull, [])
  /\ main_loop fuel serial (Listening false) input st = (inl tt, st).
Proof.
  intros Hshort.
  assert (E : readMessage input = (Resolved JNull, [])).
  { unfold readMessage.
    destruct (Nat.eqb (List.length (firstn 4 input)) 4) eqn:E4; [|reflexivity].
    apply Nat.eqb_eq in E4. rewrite length_firstn in E4.
    destruct Hshort as [Hshort|Hshort]; [lia|].
    destruct (_ && _); [|reflexivity].
    replace (Buffer_length _ =? _) with false; [reflexivity|].
    symmetry. apply Z.eqb_neq. unfold Buffer_length.
    rewrite length_firstn, length_skipn. lia. }
  split; [exact E|]. destruct fuel; [reflexivity|].
  cbn [main_loop readMessage_on]. rewrite E. reflexivity.
Qed.

(** What the listener of a rejected call takes at the end of the stream:
    as many bytes as the rejected body had, or all that are left; it stays
    on stdin unless it got that many and they are JSON. *)
Lemma listener_left_behind_takes (body rest : list byte) :
  0 < Buffer_length body < 1024 * 1024 ->
  snd (listener_left_behind (Buffer_length body) rest) = skipn (List.length body) rest
  /\ ((List.length rest < List.length body)%nat
      \/ JSON.parse (Buffer_toString (firstn (List.length body) rest)) = None ->
      fst (listener_left_behind (Buffer_length body) rest) = true).
Proof.
  intros Hlen. unfold listener_left_behind.
  replace (0 <? Buffer_length body) with true by (symmetry; apply Z.ltb_lt; lia).
  replace (Buffer_length body <? 1024 * 1024) with true
    by (symmetry; apply Z.ltb_lt; lia).
  cbn [andb].
  replace (Z.to_nat (Buffer_length body)) with (List.length body)
    by (unfold Buffer_length; lia).
  destruct (Buffer_length (firstn (List.length body) rest) =? Buffer_length body) eqn:E.
  - apply Z.eqb_eq in E. unfold Buffer_length in E. rewrite length_firstn in E.
    destruct (JSON.parse (Buffer_toString (firstn (List.length body) rest))) eqn:Ep;
      (split; [reflexivity|]); intros [Hshort|Hbad];
      try reflexivity; try lia; discriminate.
  - split; reflexivity.
Qed.

(** X5: a complete frame whose body is not JSON is answered with an
    [error] frame that says so, after a line on stderr, and nothing else
    changes.  The loop goes on, but with the listener of the rejected call
    left on stdin.  With the rest of the input in the buffer of stdin,
    that listener runs first at the end of the stream and takes as many
    bytes as the rejected body had: the next call reads behind them, not
    at the start of what follows the frame.  And unless the bytes taken
    are that many and are JSON, stdin is silent afterwards: the loop
    handles nothing behind that call. *)
Theorem body_that_is_not_JSON_is_reported
        (fuel serial : nat) (body rest : list byte) (st : HostState) :
  0 < Buffer_length body < 1024 * 1024 ->
  JSON.parse (Buffer_toString body) = None ->
  let text := ("Invalid JSON: " ++ msg_syntax_error (Buffer_toString body))%string in
  let n := List.length body in
  let next := readMessage_on (LeftBehind (Buffer_length body)) rest in
  main_loop (S fuel) serial (Listening false)
            (writeUInt32LE (Buffer_length body) ++ body ++ rest) st
  = main_loop fuel (S serial) (LeftBehind (Buffer_length body)) rest
      (set_stdout (stdout st ++ frame (to_json (error_response text)))
         (set_stderr (stderr st ++ [error_line "Error processing message:" text]) st))
  /\ fst (fst next) = fst (readMessage (skipn n rest))
  /\ snd next = snd (readMessage (skipn n rest))
  /\ ((List.length rest < n)%nat
      \/ JSON.parse (Buffer_toString (firstn n rest)) = None ->
      forall (fuel' serial' : nat) (input' : list byte) (st' : HostState),
        main_loop fuel' serial' (snd (fst next)) input' st' = (inl tt, st')).
Proof.
  intros Hlen Hbad text n next. split.
  - cbn [main_loop readMessage_on].
    assert (E : readMessage (writeUInt32LE (Buffer_length body) ++ body ++ rest)
                = (Rejected (Buffer_toString body), rest)).
    { unfold readMessage.
      change (firstn 4 (writeUInt32LE ?n ++ ?l)) with (writeUInt32LE n).
      change (skipn 4 (writeUInt32LE ?n ++ ?l)) with l.
      cbn [List.length writeUInt32LE Nat.eqb].
      rewrite read_write_UInt32LE by lia.
      replace (0 <? Buffer_length body) with true by (symmetry; apply Z.ltb_lt; lia).
      replace (Buffer_length body <? 1024 * 1024) with true
        by (symmetry; apply Z.ltb_lt; lia).
      cbn [andb].
      replace (Z.to_nat (Buffer_length body)) with (List.length body)
        by (unfold Buffer_length; lia).
      replace (firstn (List.length body) (body ++ rest)) with body
        by (rewrite firstn_app, Nat.sub_diag, firstn_all; cbn [firstn];
            rewrite List.app_nil_r; reflexivity).
      replace (skipn (List.length body) (body ++ rest)) with rest
        by (rewrite skipn_app, Nat.sub_diag, skipn_all; reflexivity).
      rewrite Z.eqb_refl, Hbad. reflexivity. }
    rewrite E.
    change (firstn 4 (writeUInt32LE ?n ++ ?l)) with (writeUInt32LE n).
    rewrite read_write_UInt32LE by lia.
    unfold bind at 1. unfold report, bind at 1, logError, modify.
    rewrite sendMessage_spec. reflexivity.
  - destruct (listener_left_behind_takes body rest Hlen) as [Htakes Hstays].
    fold n in Htakes, Hstays. unfold next, readMessage_on.
    destruct (listener_left_behind (Buffer_length body) rest) as [stays input'].
    cbn [fst snd] in Htakes, Hstays. subst input'.
    destruct (readMessage (skipn n rest)) as [[message|text'] rest'];
      (split; [reflexivity|]); (split; [reflexivity|]);
      intros Hcond fuel' serial' input' st'; cbn [fst snd];
      try rewrite (Hstays Hcond); destruct fuel'; reflexivity.
Qed.

End LoopMore.

(* ================================================================== *)
(** * Response frames by type *)
(* ================================================================== *)

Section Typed.

Context {P : Platform}.

Local Open Scope host_scope.

Lemma wrote_types_nil st st' : stdout st' = stdout st -> wrote_types [] st st'.
Proof.
  intros E. exists []. split; [reflexivity|]. cbn. rewrite List.app_nil_r. exact E.
Qed.

Lemma wrote_types_app a b st st1 st2 :
  wrote_types a st st1 -> wrote_types b st1 st2 -> wrote_types (a ++ b) st st2.
Proof.
  intros (r1 & T1 & E1) (r2 & T2 & E2). exists (r1 ++ r2)%list. split.
  - rewrite !map_app, T1, T2. reflexivity.
  - rewrite E2, E1, map_app, concat_app, <- app_assoc. reflexivity.
Qed.

Lemma type_of_literal t rest :
  Forall not_type rest ->
  field (to_json (obj_literal (("type"%string, str t) :: rest))) "type" = str t.
Proof.
  intros Hrest. rewrite field_to_json_literal, obj_get_literal.
  cbn [rev]. rewrite find_over_app.
  assert (Hnone : find (fun kv : string * jsval => String.eqb "type" (fst kv)) (rev rest)
                  = None).
  { apply find_nowhere. intros kv Hin. apply in_rev in Hin.
    rewrite Forall_forall in Hrest. specialize (Hrest kv Hin).
    apply String.eqb_neq. intros E. apply Hrest. symmetry. exact E. }
  rewrite Hnone. reflexivity.
Qed.

Lemma sends_sendMessage t rest :
  Forall not_type rest ->
  sends [t] (sendMessage (obj_literal (("type"%string, str t) :: rest))).
Proof.
  intros Hrest st. rewrite sendMessage_spec. eexists; eexists. split; [reflexivity|].
  eexists [_]. cbn [map List.concat stdout set_stdout]. rewrite List.app_nil_r.
  split; [|reflexivity]. rewrite type_of_literal by exact Hrest. reflexivity.
Qed.

Lemma sends_bind {A B} a b (m : M A) (k : A -> M B) :
  sends a m -> (forall x, sends b (k x)) -> sends (a ++ b) (bind m k).
Proof.
  intros Hm Hk st. destruct (Hm st) as (x & st1 & E1 & W1).
  destruct (Hk x st1) as (y & st2 & E2 & W2).
  exists y, st2. unfold bind. rewrite E1. split; [exact E2|].
  eapply wrote_types_app; eassumption.
Qed.

Lemma sends_quiet {A} (m : M A) : total m -> quiet m -> sends [] m.
Proof.
  intros Ht Hq st. destruct (Ht st) as [a Ea].
  exists a, (snd (m st)). split.
  - destruct (m st) as [r st']. cbn in *. rewrite Ea. reflexivity.
  - apply wrote_types_nil, quiet_stdout, Hq.
Qed.

Lemma sends_then {A B} types (m : M A) (k : A -> M B) :
  total m -> quiet m -> (forall x, sends types (k x)) -> sends types (bind m k).
Proof. intros Ht Hq Hk. apply (sends_bind [] types); [apply sends_quiet; assumption|exact Hk]. Qed.

(** The same when something, [Q], is known of what the quiet step
    returns. *)
Lemma sends_then_knowing {A B} types (Q : A -> Prop) (m : M A) (k : A -> M B) :
  total m -> quiet m ->
  (forall st x st', m st = (inl x, st') -> Q x) ->
  (forall x, Q x -> sends types (k x)) ->
  sends types (bind m k).
Proof.
  intros Ht Hq HQ Hk st. unfold bind.
  destruct (Ht st) as [a Ea]. pose proof (quiet_stdout m st Hq) as E.
  destruct (m st) as [r st1] eqn:Em. cbn in Ea, E. subst r.
  destruct (Hk a (HQ st a st1 Em) st1) as (y & st2 & E2 & (rs & T & W)).
  exists y, st2. split; [exact E2|]. exists rs. split; [exact T|].
  rewrite W, E. reflexivity.
Qed.

Lemma sends_may_throw {A} types (m : M A) : sends types m -> sends_or_throws types m.
Proof.
  intros H st. destruct (H st) as (a & st' & E & W). rewrite E. exact W.
Qed.

(** A quiet step, of whose results [Q] holds, before the sending. *)
Lemma sends_or_throws_bind {A B} types (Q : A -> Prop) (m : M A) (k : A -> M B) :
  quiet m ->
  (forall st x st', m st = (inl x, st') -> Q x) ->
  (forall x, Q x -> sends_or_throws types (k x)) ->
  sends_or_throws types (bind m k).
Proof.
  intros Hq HQ Hk st. unfold bind. pose proof (quiet_stdout m st Hq) as E.
  destruct (m st) as [[x|e] st1] eqn:Em; cbn in E; [|exact E].
  specialize (Hk x (HQ st x st1 Em) st1). destruct (k x st1) as [[y|e] st2].
  - destruct Hk as (rs & L & E2). exists rs. split; [exact L|].
    rewrite E2, E. reflexivity.
  - rewrite Hk. exact E.
Qed.

Lemma sends_try_catch {A} types (m : M A) h :
  sends_or_throws types m -> (forall e, sends types (h e)) ->
  sends types (try_catch m h).
Proof.
  intros Hm Hh st. unfold try_catch. specialize (Hm st).
  destruct (m st) as [[a|e] st1].
  - exists a, st1. split; [reflexivity|exact Hm].
  - destruct (Hh e st1) as (a & st2 & E & (rs & L & W)).
    exists a, st2. split; [exact E|]. exists rs. split; [exact L|].
    rewrite W, Hm. reflexivity.
Qed.

Lemma sends_try {A} types (m : M A) h : sends types m -> sends types (try_catch m h).
Proof.
  intros Hm st. destruct (Hm st) as (a & st' & E & W).
  exists a, st'. unfold try_catch. rewrite E. split; [reflexivity|exact W].
Qed.

(** What the loader resolves to. *)
Lemma loadExtensionViaRDP_result k st r st' :
  loadExtensionViaRDP k st = (inl r, st') ->
  r = web_ext_result \/ exists tempProfile, r = profile_result tempProfile.
Proof.
  unfold loadExtensionViaRDP. unfold bind at 1.
  destruct (findWebExt st) as [[webExtPath|e] st1]; [|discriminate].
  destruct (truthy webExtPath).
  - destruct webExtPath as [[| | |file| |]|]; try discriminate.
    unfold bind at 1. destruct (spawn _ _ st1) as [[proc|e] st2]; [|discriminate].
    unfold bind, unref, modify, ret. intros E. injection E as <- _. left. reflexivity.
  - unfold bind at 1. destruct (getFirefoxPath st1) as [[firefoxPath|e] st2]; [|discriminate].
    destruct (negb (truthy firefoxPath)); [discriminate|].
    unfold bind at 1, get_state at 1. unfold bind at 1.
    destruct (mkdirSync _ st2) as [[[]|e] st3]; [|discriminate].
    unfold bind at 1. destruct (writeFileSync _ _ st3) as [[[]|e] st4]; [|discriminate].
    unfold bind at 1. destruct (copyDirSync _ _ _ st4) as [[[]|e] st5]; [|discriminate].
    unfold ret. intros E. injection E as <- _. right. eexists. reflexivity.
Qed.

Lemma unloadExtension_result k st r st' :
  unloadExtension k st = (inl r, st') -> r = unload_ok \/ r = unload_not_loaded.
Proof.
  destruct (Map_get k (loadedExtensions st)) as [loaded|] eqn:E.
  - rewrite (unloadExtension_present k st loaded E). intros H. injection H as <- _. left. reflexivity.
  - rewrite (unloadExtension_absent k st E). intros H. injection H as <- _. right. reflexivity.
Qed.

End Typed.

(* ================================================================== *)
(** * The types of the responses *)
(* ================================================================== *)

Section Table.

Context {P : Platform}.

Local Open Scope host_scope.

Ltac no_type :=
  repeat first
    [ apply Forall_nil
    | apply Forall_cons; [unfold not_type; cbn [fst]; discriminate|]
    | apply Forall_app; split ].

Lemma total_getFirefoxPath : total getFirefoxPath.
Proof. intros st. destruct (getFirefoxPath_pure st) as [v E]. exists v. rewrite E. reflexivity. Qed.

Lemma sends_report error : sends ["error"%string] (report error).
Proof.
  unfold report. apply sends_then; [apply total_logError|quiet_tac|intros _].
  apply sends_sendMessage. no_type.
Qed.

Lemma no_type_in_result r :
  r = web_ext_result \/ (exists tempProfile, r = profile_result tempProfile) ->
  Forall not_type r.
Proof. intros [->|[p ->]]; vm_compute; no_type. Qed.

Lemma no_type_in_unload_result r :
  r = unload_ok \/ r = unload_not_loaded -> Forall not_type r.
Proof. intros [->| ->]; vm_compute; no_type. Qed.

Ltac quiet_step :=
  apply (sends_or_throws_bind _ (fun _ => True));
  [solve [quiet_tac]|intros; exact I|intros ? _].

Lemma sends_load serial message :
  let path := field message "path" in
  let key := {| k_val := path; k_id := serial |} in
  sends ["load_result"%string]
    (try_catch
      (result <- loadExtensionViaRDP key ;;
       manifestFile <- js_path_join [path; str "manifest.json"] ;;
       text <- readFileSync manifestFile ;;
       manifest <- JSON_parse text ;;
       name <- prop manifest "name" ;;
       extensionName <-
         (if truthy name then ret name
          else match path with
               | Some (JStr p) => ret (str (path_basename p))
               | other => throw (msg_not_a_string other)
               end) ;;
       sendMessage (obj_literal
         ([("type"%string, str "load_result");
           ("success"%string, Some (JBool true));
           ("extensionName"%string, extensionName);
           ("path"%string, path)] ++ result)))
      (fun error =>
         sendMessage (obj_literal
           [("type"%string, str "load_result");
            ("success"%string, Some (JBool false));
            ("error"%string, str error);
            ("path"%string, path)]))).
Proof.
  cbv zeta. apply sends_try_catch; [|intros e; apply sends_sendMessage; no_type].
  apply (sends_or_throws_bind _ (fun r => r = web_ext_result
                                         \/ exists p, r = profile_result p)).
  - quiet_tac.
  - intros st r st'. apply loadExtensionViaRDP_result.
  - intros result Hres. do 4 quiet_step.
    apply (sends_or_throws_bind _ (fun _ => True)); [|intros; exact I|intros ? _].
    + intros o. destruct (truthy _); [pres|]. destruct (field message "path") as [[]|]; pres.
    + apply sends_may_throw, sends_sendMessage. cbn [app]. no_type.
      apply no_type_in_result, Hres.
Qed.

Lemma sends_unload_all :
  sends ["unload_all_result"%string]
    (r <- for_of_keys unload_one [] ;;
     sendMessage (obj_literal
       [("type"%string, str "unload_all_result");
        ("results"%string, array_of (fst r))])).
Proof.
  apply sends_then.
  - unfold for_of_keys. apply total_bind; [apply total_get_state|intros ?].
    apply total_for_of.
  - quiet_tac.
  - intros r. apply sends_sendMessage. no_type.
Qed.

(** The frames of a turn, by the action of the request. *)
Lemma sends_turn serial message :
  sends (response_types (field message "action")) (turn serial message).
Proof.
  unfold turn, handleMessage, prop, field.
  destruct (get_prop message "action") as [action|].
  2:{ apply sends_try_catch; [intros s; reflexivity|intros e; apply sends_report]. }
  rewrite bind_ret. cbv beta zeta. unfold response_types.
  destruct (is_case action "status").
  { apply sends_try.
    apply sends_then; [apply total_getFirefoxPath|quiet_tac|intros ?].
    apply sends_then; [apply total_get_state|quiet_tac|intros ?].
    apply sends_sendMessage. no_type. }
  destruct (is_case action "scan").
  { apply sends_try.
    apply sends_then; [apply total_scanExtensionsFolder|quiet_tac|intros ?].
    apply sends_then; [apply total_get_state|quiet_tac|intros ?].
    apply sends_sendMessage. no_type. }
  destruct (is_case action "set_folder").
  { apply sends_try.
    apply sends_then; [apply total_modify|quiet_tac|intros _].
    apply sends_then; [apply total_saveConfig|quiet_tac|intros _].
    apply (sends_bind ["folder_set"%string] ["extensions_list"%string]);
      [apply sends_sendMessage; no_type|intros _].
    apply sends_then; [apply total_scanExtensionsFolder|quiet_tac|intros ?].
    apply sends_then; [apply total_get_state|quiet_tac|intros ?].
    apply sends_sendMessage. no_type. }
  destruct (is_case action "load").
  { apply sends_try. apply sends_load. }
  destruct (is_case action "load_all").
  { apply sends_try.
    apply sends_then; [apply total_scanExtensionsFolder|quiet_tac|intros ?].
    apply sends_then; [apply total_for_of|quiet_tac|intros ?].
    apply sends_sendMessage. no_type. }
  destruct (is_case action "unload").
  { apply sends_try.
    apply (sends_then_knowing _ (fun r => r = unload_ok \/ r = unload_not_loaded)).
    - apply total_unloadExtension.
    - quiet_tac.
    - intros s r s'. apply unloadExtension_result.
    - intros r Hr. apply sends_sendMessage. no_type.
      apply no_type_in_unload_result, Hr. }
  destruct (is_case action "unload_all").
  { apply sends_try. apply sends_unload_all. }
  destruct (js_toString action) as [text|].
  - apply sends_try. apply sends_sendMessage. no_type.
  - apply sends_try_catch; [intros s; reflexivity|intros e; apply sends_report].
Qed.

Lemma length_response_types action :
  List.length (response_types action)
  = (if is_case action "set_folder" then 2 else 1)%nat.
Proof.
  unfold response_types.
  destruct (is_case action "status") eqn:Estatus.
  { apply is_case_eq in Estatus. subst action. reflexivity. }
  destruct (is_case action "scan") eqn:Escan.
  { apply is_case_eq in Escan. subst action. reflexivity. }
  destruct (is_case action "set_folder"); [reflexivity|].
  repeat match goal with |- context [if ?b then _ else _] => destruct b end;
    reflexivity.
Qed.

(** C1 (amended): a turn of the loop always returns, and what it writes
    is exactly one frame, of the type that answers the action of the
    request ([error] for an action that is none of the seven), or exactly
    two for [set_folder]: [folder_set], then [extensions_list].  A
    failure inside a handler changes neither the number nor the type.
    In the loop, the frames of a request are on stdout before the frame
    behind it is read. *)
Theorem turn_writes_one_frame_two_for_set_folder
        (serial : nat) (message : json) (st : HostState) :
  exists (responses : list json) (st' : HostState),
    turn serial message st = (inl tt, st')
    /\ stdout st' = stdout st ++ List.concat (map frame responses)
    /\ map (fun r => field r "type") responses
       = map str (response_types (field message "action"))
    /\ List.length responses
       = (if is_case (field message "action") "set_folder" then 2 else 1)%nat
    /\ forall fuel rest,
         deliverable message ->
         main_loop (S fuel) serial (Listening false) (frame message ++ rest) st
         = main_loop fuel (S serial) (Listening false) rest st'.
Proof.
  destruct (sends_turn serial message st) as ([] & st' & E & (rs & T & W)).
  exists rs, st'. split; [exact E|]. split; [exact W|]. split; [exact T|]. split.
  - rewrite <- length_response_types.
    rewrite <- (length_map (fun r => field r "type") rs), T. apply length_map.
  - intros fuel rest Hm. rewrite (main_loop_frame fuel serial message rest Hm).
    unfold bind. rewrite E. reflexivity.
Qed.

(** X7: every request is answered, and the [type]s of the frames written
    for it are those of its [action]: one response of the matching type,
    [folder_set] then [extensions_list] for [set_folder], and [error] for
    anything else; a failure inside a handler never changes the type. *)
Theorem responses_have_the_type_of_the_request
        (serial : nat) (message : json) (st : HostState) :
  exists (responses : list json) (st' : HostState),
    turn serial message st = (inl tt, st')
    /\ stdout st' = stdout st ++ List.concat (map frame responses)
    /\ map (fun r => field r "type") responses
       = map str (response_types (field message "action")).
Proof.
  destruct (sends_turn serial message st) as ([] & st' & E & (rs & T & W)).
  exists rs, st'. auto.
Qed.

End Table.

(* ================================================================== *)
(** * Loading and unloading through the registry *)
(* ================================================================== *)

Section RegistryMore.

Context {P : Platform}.

Local Open Scope host_scope.

Lemma Map_get_set_same k v m : Map_get k (Map_set k v m) = Some v.
Proof.
  induction m as [|[k' v'] m IH]; cbn [Map_set Map_get].
  - rewrite sameValueZero_refl. reflexivity.
  - destruct (sameValueZero k k') eqn:E; cbn [Map_get]; rewrite E; [reflexivity|exact IH].
Qed.

Lemma Map_get_set_other k k' v m :
  sameValueZero k k' = false -> Map_get k' (Map_set k v m) = Map_get k' m.
Proof.
  intros Hne. induction m as [|[k1 v1] m IH]; cbn [Map_set Map_get].
  - rewrite sameValueZero_sym, Hne. reflexivity.
  - destruct (sameValueZero k k1) eqn:E; cbn [Map_get].
    + destruct (sameValueZero k' k1) eqn:E'; [|reflexivity].
      exfalso. rewrite sameValueZero_sym in E'.
      rewrite (sameValueZero_trans k k1 k' E E') in Hne. discriminate Hne.
    + destruct (sameValueZero k' k1); [reflexivity|exact IH].
Qed.

Lemma Map_delete_set_absent k v m :
  Map_get k m = None -> Map_delete k (Map_set k v m) = m.
Proof.
  induction m as [|[k' v'] m IH]; cbn [Map_get Map_set].
  - intros _. cbn [Map_delete filter fst]. rewrite sameValueZero_refl. reflexivity.
  - destruct (sameValueZero k k') eqn:E; [discriminate|]. intros H.
    cbn [Map_delete filter fst]. rewrite E. cbn [negb]. f_equal. apply IH, H.
Qed.

Lemma length_Map_set_absent k v m :
  Map_get k m = None -> List.length (Map_set k v m) = S (List.length m).
Proof.
  induction m as [|[k' v'] m IH]; cbn [Map_get Map_set]; [reflexivity|].
  destruct (sameValueZero k k'); [discriminate|].
  intros H. cbn [List.length]. f_equal. apply IH, H.
Qed.

Lemma keys_Map_set_present k v m old :
  Map_get k m = Some old -> map fst (Map_set k v m) = map fst m.
Proof.
  induction m as [|[k' v'] m IH]; cbn [Map_get Map_set]; [discriminate|].
  destruct (sameValueZero k k'); [reflexivity|].
  intros H. cbn [map fst]. f_equal. apply IH, H.
Qed.

(** The loader on its first branch. *)
Lemma loadExtensionViaRDP_web_ext k st proc :
  starts_web_ext k st proc ->
  let st1 := snd (findWebExt st) in
  exists file,
    fst (findWebExt st) = inl (str file)
    /\ loadExtensionViaRDP k st
       = (inl web_ext_result,
          set_loadedExtensions
            (Map_set k (web_ext_record proc) (loadedExtensions st1))
            (set_world
               (proc_unref (fst (child_spawn (world st1) file (web_ext_args k))) proc)
               st1)).
Proof.
  intros (file & Hfind & Hfile & Hspawn). cbv zeta. exists file. split; [exact Hfind|].
  unfold loadExtensionViaRDP, bind at 1.
  destruct (findWebExt st) as [r st1]. cbn [fst snd] in *. subst r.
  assert (Ht : truthy (str file) = true).
  { cbn. destruct (String.eqb_spec file EmptyString); [contradiction|reflexivity]. }
  rewrite Ht. cbn [str]. unfold bind at 1, spawn, returns. fold (web_ext_args k).
  destruct (child_spawn (world st1) file (web_ext_args k)) as [w2 r2].
  cbn [fst snd] in *. subst r2. reflexivity.
Qed.

Lemma loadedExtensions_findWebExt st :
  loadedExtensions (snd (findWebExt st)) = loadedExtensions st.
Proof.
  apply (preserves_findWebExt (fun s => loadedExtensions s = loadedExtensions st));
    [stable|reflexivity].
Qed.

(** X8: when the loader tool starts, [loadExtensionViaRDP] records the
    new process under the path and under no other key, and
    [unloadExtension] with the same path then signals that process and
    removes the record: if the path was not recorded before the load, the
    load makes the map one record larger and the unload puts it back to
    what it was. *)
Theorem load_then_unload_restores_the_map
        (k : MapKey) (st : HostState) (proc : Proc) :
  starts_web_ext k st proc ->
  let st1 := snd (loadExtensionViaRDP k st) in
  let st2 := snd (unloadExtension k st1) in
  fst (loadExtensionViaRDP k st) = inl web_ext_result
  /\ Map_get k (loadedExtensions st1) = Some (web_ext_record proc)
  /\ (forall k', sameValueZero k k' = false ->
                 Map_get k' (loadedExtensions st1) = Map_get k' (loadedExtensions st))
  /\ fst (unloadExtension k st1) = inl unload_ok
  /\ world st2 = fst (proc_kill (world st1) proc)
  /\ (Map_get k (loadedExtensions st) = None ->
      Map_size (loadedExtensions st1) = Map_size (loadedExtensions st) + 1
      /\ loadedExtensions st2 = loadedExtensions st).
Proof.
  intros Hstart. destruct (loadExtensionViaRDP_web_ext k st proc Hstart) as (file & _ & E).
  cbv zeta. rewrite E. cbn [fst snd loadedExtensions set_loadedExtensions].
  rewrite loadedExtensions_findWebExt.
  split; [reflexivity|]. split; [apply Map_get_set_same|].
  split; [intros k' Hk; apply Map_get_set_other, Hk|].
  match goal with
  | |- context [unloadExtension k ?s] =>
    rewrite (unloadExtension_present k s (web_ext_record proc))
      by (cbn [loadedExtensions set_loadedExtensions]; apply Map_get_set_same)
  end.
  cbn [fst snd world set_world set_loadedExtensions loadedExtensions process web_ext_record].
  split; [reflexivity|]. split; [reflexivity|].
  intros Habs. split; [|apply Map_delete_set_absent, Habs].
  unfold Map_size. rewrite length_Map_set_absent by exact Habs. lia.
Qed.

(** X9: loading a path that is already recorded starts a second
    process and puts it in the place of the first: the map keeps its keys,
    their order and its size, the earlier process is not signalled, and a
    later unload signals the new process only. *)
Theorem loading_again_replaces_the_record
        (k : MapKey) (st : HostState) (old : Loaded) (proc : Proc) :
  Map_get k (loadedExtensions st) = Some old ->
  starts_web_ext k st proc ->
  let st0 := snd (findWebExt st) in
  let st1 := snd (loadExtensionViaRDP k st) in
  map fst (loadedExtensions st1) = map fst (loadedExtensions st)
  /\ Map_size (loadedExtensions st1) = Map_size (loadedExtensions st)
  /\ Map_get k (loadedExtensions st1) = Some (web_ext_record proc)
  /\ (exists file,
        world st1
        = proc_unref (fst (child_spawn (world st0) file (web_ext_args k))) proc)
  /\ world (snd (unloadExtension k st1)) = fst (proc_kill (world st1) proc).
Proof.
  intros Hold Hstart.
  destruct (loadExtensionViaRDP_web_ext k st proc Hstart) as (file & _ & E).
  cbv zeta. rewrite E. cbn [fst snd loadedExtensions set_loadedExtensions].
  rewrite loadedExtensions_findWebExt.
  assert (Hkeys : map fst (Map_set k (web_ext_record proc) (loadedExtensions st))
                  = map fst (loadedExtensions st))
    by (apply (keys_Map_set_present k _ _ old), Hold).
  split; [exact Hkeys|]. split.
  { unfold Map_size. f_equal.
    rewrite <- (length_map fst), Hkeys, length_map. reflexivity. }
  split; [apply Map_get_set_same|]. split; [exists file; reflexivity|].
  match goal with
  | |- context [unloadExtension k ?s] =>
    rewrite (unloadExtension_present k s (web_ext_record proc))
      by (cbn [loadedExtensions set_loadedExtensions]; apply Map_get_set_same)
  end.
  reflexivity.
Qed.

End RegistryMore.

(* ================================================================== *)
(** * Unknown actions *)
(* ================================================================== *)

Section DispatcherMore.

Context {P : Platform}.

Local Open Scope host_scope.

(** X6: a request whose [action] is none of the seven names is answered
    with an [error] response that quotes the action as a template literal
    prints it; nothing but stdout changes.  When the action cannot be
    printed, the [TypeError] is what the response reports, after a line
    on stderr. *)
Theorem unknown_action_is_answered_with_an_error
        (serial : nat) (message : json) (action : jsval) (st : HostState) :
  get_prop message "action" = Some action ->
  known_action action = false ->
  turn serial message st =
  match js_toString action with
  | Some text =>
    (inl tt,
     set_stdout
       (stdout st ++ frame (to_json (error_response ("Unknown action: " ++ text)))) st)
  | None =>
    (inl tt,
     set_stdout
       (stdout st ++ frame (to_json (error_response msg_not_primitive)))
       (set_stderr
          (stderr st ++ [error_line "Error processing message:" msg_not_primitive]) st))
  end.
Proof.
  intros Hact Hknown. unfold known_action in Hknown.
  repeat (apply orb_false_iff in Hknown; destruct Hknown as [Hknown ?]).
  unfold turn, handleMessage, prop. rewrite Hact, bind_ret. cbv beta zeta.
  repeat match goal with H : is_case action _ = false |- _ => rewrite H; clear H end.
  unfold try_catch. destruct (js_toString action) as [text|].
  - rewrite sendMessage_spec. reflexivity.
  - unfold throw, report, bind, logError, modify. rewrite sendMessage_spec. reflexivity.
Qed.

End DispatcherMore.

(* ================================================================== *)
(** * Requests that only read *)
(* ================================================================== *)

Section ReadOnly.

Context {P : Platform}.

Local Open Scope host_scope.

Lemma scanExtensionsFolder_spec st :
  exists st',
    scanExtensionsFolder st
    = (inl (scan_result (obj_get "extensionFolder" (config st)) (world st)), st')
    /\ same_but_stderr st st'.
Proof.
  unfold scanExtensionsFolder, scan_result, bind at 1, get_state.
  destruct (negb _ || negb _).
  { exists st. split; [reflexivity|apply same_but_stderr_refl]. }
  unfold try_catch, bind at 1, readdirSync.
  destruct (fs_readdirSync (world st) _) as [items|error].
  - destruct (scan_loop_spec (obj_get "extensionFolder" (config st)) items [] st)
      as (thrown & st' & E & Hs).
    unfold bind at 1. rewrite E. cbn [app fst snd].
    destruct thrown as [e|]; eexists; (split; [reflexivity|exact Hs]).
  - eexists. split; [reflexivity|repeat split].
Qed.

(** X10: [status] and [scan] only read: the turn for either leaves the
    configuration, the map, the world outside and the configuration file
    as they were, and writes its one response.  So scanning again right
    away returns the same descriptors. *)
Theorem status_and_scan_only_read (serial : nat) (message : json) (st : HostState) :
  is_case (field message "action") "status" = true
  \/ is_case (field message "action") "scan" = true ->
  let st' := snd (turn serial message st) in
  config st' = config st
  /\ loadedExtensions st' = loadedExtensions st
  /\ world st' = world st
  /\ file_changes st' = file_changes st
  /\ fst (scanExtensionsFolder (snd (scanExtensionsFolder st)))
     = fst (scanExtensionsFolder st).
Proof.
  intros Hact. cbv zeta.
  assert (Hagain : fst (scanExtensionsFolder (snd (scanExtensionsFolder st)))
                   = fst (scanExtensionsFolder st)).
  { destruct (scanExtensionsFolder_spec st) as (st1 & E1 & (Hc & _ & Hw & _)).
    rewrite E1. cbn [fst snd].
    destruct (scanExtensionsFolder_spec st1) as (st2 & E2 & _).
    rewrite E2, Hc, Hw. reflexivity. }
  destruct Hact as [Hstatus|Hscan].
  - destruct (status_turn serial message st Hstatus) as (v & E). rewrite E.
    repeat split; try reflexivity. exact Hagain.
  - assert (E : exists st1 out,
                 turn serial message st = (inl tt, set_stdout out st1)
                 /\ same_but_stderr st st1).
    { unfold turn, handleMessage, prop, field in *.
      destruct (get_prop message "action") as [action|]; [|discriminate Hscan].
      rewrite bind_ret. cbv beta zeta.
      apply is_case_eq in Hscan. subst action.
      change (is_case (str "scan") "status") with false.
      change (is_case (str "scan") "scan") with true. cbv iota.
      destruct (scanExtensionsFolder_spec st) as (st1 & E1 & Hsame).
      unfold try_catch, bind at 1. rewrite E1.
      unfold bind, get_state. rewrite sendMessage_spec.
      exists st1. eexists. split; [reflexivity|exact Hsame]. }
    destruct E as (st1 & out & E & (Hc & Hm & Hw & Ho & Hs)). rewrite E.
    cbn [snd]. repeat split; assumption.
Qed.

Lemma find_found {A} (f : A -> bool) l x : find f l = Some x -> In x l /\ f x = true.
Proof.
  induction l as [|a l IH]; [discriminate|]. cbn [find].
  destruct (f a) eqn:E.
  - intros H. injection H as <-. split; [left; reflexivity|exact E].
  - intros H. destruct (IH H) as [Hin Hf]. split; [right; exact Hin|exact Hf].
Qed.

Lemma find_missing {A} (f : A -> bool) l : find f l = None -> forall x, In x l -> f x = false.
Proof.
  induction l as [|a l IH]; [intros _ x []|]. cbn [find].
  destruct (f a) eqn:E; [discriminate|].
  intros H x [<-|Hin]; [exact E|apply IH; assumption].
Qed.

Lemma find_first {A} (f : A -> bool) l x :
  find f l = Some x ->
  exists before after,
    l = (before ++ x :: after)%list /\ forall y, In y before -> f y = false.
Proof.
  induction l as [|a l IH]; [discriminate|]. cbn [find].
  destruct (f a) eqn:E.
  - intros H. injection H as <-. exists [], l. split; [reflexivity|intros y []].
  - intros H. destruct (IH H) as (before & after & -> & Hb).
    exists (a :: before), after. split; [reflexivity|].
    intros y [<-|Hy]; [exact E|apply Hb, Hy].
Qed.

(** X14: [getFirefoxPath] never throws and changes nothing.  It returns
    the configured path when that is set and exists, whatever else is
    installed; otherwise the first of the platform's candidates that
    exists; and [null] exactly when neither is there.  What it returns is
    thus [null] or a path that exists. *)
Theorem getFirefoxPath_returns_null_or_a_path_that_exists (st : HostState) :
  let configured := obj_get "firefoxPath" (config st) in
  let usable := truthy configured && fs_existsSync (world st) configured in
  exists v,
    getFirefoxPath st = (inl v, st)
    /\ (v = Some JNull \/ fs_existsSync (world st) v = true)
    /\ (usable = true -> v = configured)
    /\ (usable = false ->
        forall p, v = str p ->
                  In p possiblePaths
                  /\ exists before after,
                      possiblePaths = (before ++ p :: after)%list
                      /\ forall q, In q before -> fs_existsSync (world st) (str q) = false)
    /\ (v = Some JNull <->
        usable = false
        /\ forall p, In p possiblePaths -> fs_existsSync (world st) (str p) = false).
Proof.
  cbv zeta. unfold getFirefoxPath, bind, get_state.
  destruct (truthy (obj_get "firefoxPath" (config st))
            && fs_existsSync (world st) (obj_get "firefoxPath" (config st))) eqn:Eu.
  - apply andb_true_iff in Eu. destruct Eu as [Et Ee].
    eexists. split; [reflexivity|]. split; [right; exact Ee|]. split; [reflexivity|].
    split; [discriminate|]. split; [|intros [H _]; discriminate H].
    intros E. rewrite E in Et. discriminate Et.
  - destruct (find _ possiblePaths) as [p|] eqn:Ef; eexists; (split; [reflexivity|]).
    + destruct (find_found _ _ _ Ef) as [Hin Hex].
      split; [right; exact Hex|]. split; [discriminate|]. split.
      * intros _ p' E. injection E as <-. split; [exact Hin|].
        apply find_first in Ef. exact Ef.
      * split; [discriminate|]. intros [_ Hnone].
        rewrite (Hnone p Hin) in Hex. discriminate Hex.
    + split; [left; reflexivity|]. split; [discriminate|]. split; [discriminate|].
      split; [intros _|reflexivity]. split; [reflexivity|]. apply (find_missing _ _ Ef).
Qed.

End ReadOnly.

(* ================================================================== *)
(** * The configuration store *)
(* ================================================================== *)

Section ConfigStore.

Context {P : Platform}.

Import JSONIndentFacts.

Local Open Scope host_scope.

Lemma ensure_config_dir_spec st :
  exists w, snd (ensure_config_dir st) = set_world w st.
Proof.
  unfold ensure_config_dir, bind, existsSync, mkdirSync, may_throw.
  destruct (negb _).
  - destruct (fs_mkdirSync _ _) as [w [e|]]; exists w; reflexivity.
  - exists (world st). destruct st; reflexivity.
Qed.

Lemma loadConfig_reads st text parsed :
  config_file_holds st text -> JSON.parse text = Some parsed ->
  loadConfig st
  = (inl tt, set_config (merged (config st) parsed) (snd (ensure_config_dir st))).
Proof.
  intros (Hdir & Hex & Hread) Hparse.
  destruct (ensure_config_dir_spec st) as [w Ew].
  unfold loadConfig, try_catch, bind at 1.
  destruct (ensure_config_dir st) as [r st0]. cbn [fst snd] in *. subst r st0.
  unfold bind at 1, existsSync. rewrite Hex.
  unfold bind at 1, readFileSync. rewrite Hread.
  unfold bind, JSON_parse. rewrite Hparse. reflexivity.
Qed.

Lemma find_lift k props :
  find (fun kv : string * jsval => String.eqb k (fst kv)) (lift props)
  = option_map (fun kv => (fst kv, Some (snd kv)))
               (find (fun kv : string * json => String.eqb k (fst kv)) props).
Proof.
  induction props as [|[k1 v1] props IH]; [reflexivity|]. cbn [lift map find fst snd].
  destruct (String.eqb k k1); [reflexivity|exact IH].
Qed.

Lemma rev_lift props : rev (lift props) = lift (rev props).
Proof. unfold lift. rewrite map_rev. reflexivity. Qed.

(** How a lookup in [{...c, ...parsed}] goes, for an object [parsed]. *)
Lemma obj_get_merged k c props :
  NoDup (keys c) ->
  obj_get k (merged c (JObj props))
  = match field (JObj props) k with
    | Some v => Some v
    | None => obj_get k c
    end.
Proof.
  intros Hc. unfold merged, field, get_prop. cbn [spread_props]. fold (lift props).
  rewrite !obj_get_literal, rev_app_distr, find_over_app, rev_lift, find_lift.
  destruct (find _ (rev props)) as [[k1 v1]|]; cbn [option_map snd]; [reflexivity|].
  rewrite <- obj_get_literal, obj_literal_NoDup by exact Hc. reflexivity.
Qed.

(** X11: when the configuration file holds a JSON object, [loadConfig]
    merges it over the configuration in memory key by key: a key of the
    file wins, a key the file lacks keeps its value.  Nothing else
    changes, and nothing is logged. *)
Theorem config_file_wins_key_by_key
        (st : HostState) (text : string) (props : list (string * json)) :
  NoDup (keys (config st)) ->
  config_file_holds st text ->
  JSON.parse text = Some (JObj props) ->
  exists st',
    loadConfig st = (inl tt, st')
    /\ (forall k,
           obj_get k (config st')
           = match field (JObj props) k with
             | Some v => Some v
             | None => obj_get k (config st)
             end)
    /\ NoDup (keys (config st'))
    /\ loadedExtensions st' = loadedExtensions st
    /\ stdout st' = stdout st
    /\ stderr st' = stderr st.
Proof.
  intros Hc Hfile Hparse. rewrite (loadConfig_reads st text (JObj props) Hfile Hparse).
  destruct (ensure_config_dir_spec st) as [w ->].
  eexists. split; [reflexivity|]. cbn [config set_config set_world].
  split; [intros k; apply obj_get_merged, Hc|].
  split; [apply NoDup_keys_obj_literal|]. repeat split.
Qed.

(** X12: [loadConfig] never throws, writes nothing to stdout, changes
    no file and leaves the map alone.  What it does is decided by what it
    finds: when making the directory fails, when the file is there and
    cannot be read, or when its text is not JSON, the configuration stays
    as it was and stderr gets exactly one line, [Failed to load config:]
    with the reason; when there is no file, nothing changes; when the
    text parses, the configuration becomes the merge and nothing is
    logged. *)
Theorem loadConfig_never_fails (st : HostState) :
  let st0 := snd (ensure_config_dir st) in
  exists st',
    loadConfig st = (inl tt, st')
    /\ stdout st' = stdout st
    /\ loadedExtensions st' = loadedExtensions st
    /\ file_changes st' = file_changes st
    /\ world st' = world st0
    /\ let failed reason :=
         config st' = config st
         /\ stderr st' = stderr st ++ [error_line "Failed to load config:" reason] in
       match fst (ensure_config_dir st) with
       | inr reason => failed reason
       | inl _ =>
         if fs_existsSync (world st0) (str CONFIG_FILE) then
           match fs_readFileSync (world st0) CONFIG_FILE with
           | inr reason => failed reason
           | inl text =>
             match JSON.parse text with
             | None => failed (msg_syntax_error text)
             | Some parsed =>
               config st' = merged (config st) parsed /\ stderr st' = stderr st
             end
           end
         else config st' = config st /\ stderr st' = stderr st
       end.
Proof.
  cbv zeta. destruct (ensure_config_dir_spec st) as [w Ew].
  unfold loadConfig, try_catch, bind at 1.
  destruct (ensure_config_dir st) as [[[]|e] st0] eqn:Edir; cbn [fst snd] in *; subst st0.
  2:{ eexists. split; [reflexivity|]. repeat split. }
  unfold bind at 1, existsSync.
  destruct (fs_existsSync (world (set_world w st)) (str CONFIG_FILE)) eqn:Hex.
  2:{ eexists. split; [reflexivity|]. repeat split. }
  unfold bind at 1, readFileSync.
  destruct (fs_readFileSync (world (set_world w st)) CONFIG_FILE) as [text|e] eqn:Hread.
  2:{ eexists. split; [reflexivity|]. repeat split. }
  unfold bind, JSON_parse. destruct (JSON.parse text) as [parsed|] eqn:Hparse.
  - eexists. split; [reflexivity|]. repeat split.
  - eexists. split; [reflexivity|]. repeat split.
Qed.

(** X13: [saveConfig] never throws and changes neither the
    configuration nor the map nor stdout.  Once the directory is there,
    it hands the indented JSON text of the configuration to
    [fs.writeFileSync] for the configuration file, and that text parses
    back to what [JSON.stringify] sees of the configuration; a failure
    of the write is logged and otherwise ignored. *)
Theorem saveConfig_writes_the_configuration (st : HostState) :
  let st0 := snd (ensure_config_dir st) in
  exists st',
    saveConfig st = (inl tt, st')
    /\ config st' = config st
    /\ loadedExtensions st' = loadedExtensions st
    /\ stdout st' = stdout st
    /\ JSON.parse (config_text (config st)) = Some (to_json (config st))
    /\ match fst (ensure_config_dir st) with
       | inl _ =>
         file_changes st'
         = file_changes st ++ [Written CONFIG_FILE (config_text (config st))]
         /\ world st'
            = fst (fs_writeFileSync (world st0) CONFIG_FILE (config_text (config st)))
         /\ match snd (fs_writeFileSync (world st0) CONFIG_FILE (config_text (config st))) with
            | None => stderr st' = stderr st
            | Some e => stderr st' = stderr st ++ [error_line "Failed to save config:" e]
            end
       | inr e =>
         file_changes st' = file_changes st
         /\ world st' = world st0
         /\ stderr st' = stderr st ++ [error_line "Failed to save config:" e]
       end.
Proof.
  cbv zeta. destruct (ensure_config_dir_spec st) as [w Ew].
  unfold saveConfig, try_catch, bind at 1.
  destruct (ensure_config_dir st) as [[[]|e] st0]; cbn [fst snd] in *; subst st0.
  2:{ eexists. split; [reflexivity|]. repeat split. apply parse_stringify_indent. }
  unfold bind at 1, get_state. unfold writeFileSync, changes_file, bind, modify, may_throw.
  cbn [world set_file_changes set_world config file_changes].
  fold (config_text (config st)).
  destruct (fs_writeFileSync w CONFIG_FILE (config_text (config st))) as [w' [e|]];
    (eexists; split; [reflexivity|]; repeat split; apply parse_stringify_indent).
Qed.

(** X15: what [saveConfig] writes, [loadConfig] reads back: when a
    process finds in the configuration file the text made of a saved
    configuration, every property that held a value when it was saved has
    that value again, and any other keeps the value the process had for
    it. *)
Theorem saved_configuration_is_loaded_back (saved st : HostState) :
  NoDup (keys (config saved)) ->
  NoDup (keys (config st)) ->
  config_file_holds st (config_text (config saved)) ->
  exists st',
    loadConfig st = (inl tt, st')
    /\ forall k,
         obj_get k (config st')
         = match obj_get k (config saved) with
           | Some v => Some v
           | None => obj_get k (config st)
           end.
Proof.
  intros Hsaved Hst Hfile.
  rewrite (loadConfig_reads st _ (to_json (config saved)) Hfile)
    by apply parse_stringify_indent.
  eexists. split; [reflexivity|]. intros k.
  destruct (ensure_config_dir_spec st) as [w ->]. cbn [config set_config set_world].
  unfold to_json. rewrite obj_get_merged by exact Hst.
  fold (to_json (config saved)). rewrite field_to_json by exact Hsaved. reflexivity.
Qed.

Lemma saveConfig_keeps st :
  exists st1,
    saveConfig st = (inl tt, st1)
    /\ config st1 = config st /\ loadedExtensions st1 = loadedExtensions st
    /\ stdout st1 = stdout st.
Proof.
  destruct (total_saveConfig st) as [[] E].
  assert (H : config (snd (saveConfig st)) = config st
              /\ loadedExtensions (snd (saveConfig st)) = loadedExtensions st
              /\ stdout (snd (saveConfig st)) = stdout st).
  { apply (preserves_saveConfig
             (fun s => config s = config st /\ loadedExtensions s = loadedExtensions st
                       /\ stdout s = stdout st)); [stable|stable|auto]. }
  destruct (saveConfig st) as [r st1]. cbn [fst snd] in *. subst r.
  exists st1. split; [reflexivity|exact H].
Qed.

(** X16: [set_folder] puts the path of the request in the configuration
    in memory, has [saveConfig] try to save it, and answers with
    [success: true] and the path whether or not the file could be
    written; the second response lists what a scan of the new folder
    finds.  The map of loaded extensions is left alone. *)
Theorem set_folder_stores_the_path_and_scans
        (serial : nat) (message : json) (st : HostState) :
  is_case (field message "action") "set_folder" = true ->
  let path := field message "path" in
  let st1 := snd (saveConfig (set_config (obj_set "extensionFolder" path (config st)) st)) in
  exists st',
    turn serial message st = (inl tt, st')
    /\ config st' = obj_set "extensionFolder" path (config st)
    /\ obj_get "extensionFolder" (config st') = path
    /\ loadedExtensions st' = loadedExtensions st
    /\ stdout st'
       = stdout st
         ++ frame (to_json (obj_literal
                     [("type"%string, str "folder_set");
                      ("success"%string, Some (JBool true));
                      ("path"%string, path)]))
         ++ frame (to_json (obj_literal
                     [("type"%string, str "extensions_list");
                      ("extensions"%string, Some (JArr (scan_result path (world st1))));
                      ("folder"%string, path)])).
Proof.
  intros Hset. cbv zeta. unfold turn, handleMessage, prop, field in *.
  destruct (get_prop message "action") as [action|]; [|discriminate Hset].
  rewrite bind_ret. cbv beta zeta.
  apply is_case_eq in Hset. subst action.
  change (is_case (str "set_folder") "status") with false.
  change (is_case (str "set_folder") "scan") with false.
  change (is_case (str "set_folder") "set_folder") with true. cbv iota.
  set (path := match get_prop message "path" with Some x => x | None => undefined end).
  unfold try_catch, bind at 1, modify at 1.
  destruct (saveConfig_keeps (set_config (obj_set "extensionFolder" path (config st)) st))
    as (st1 & Esave & Hc & Hm & Ho).
  unfold bind at 1. rewrite Esave. cbn [snd].
  unfold bind at 1. rewrite sendMessage_spec.
  destruct (scanExtensionsFolder_spec
              (set_stdout
                 (stdout st1 ++ frame (to_json (obj_literal
                     [("type"%string, str "folder_set");
                      ("success"%string, Some (JBool true));
                      ("path"%string, path)]))) st1))
    as (st2 & Escan & (Hc2 & Hm2 & Hw2 & Ho2 & Hs2)).
  unfold bind at 1. rewrite Escan. unfold bind, get_state. rewrite sendMessage_spec.
  cbn [config set_config set_stdout loadedExtensions world stdout] in *.
  assert (Hfolder : obj_get "extensionFolder" (config st1) = path)
    by (rewrite Hc, obj_get_set; reflexivity).
  eexists. split; [reflexivity|].
  cbn [config set_stdout loadedExtensions stdout].
  rewrite Hc2, Hm2, Ho2, Hc, Hm, Ho, <- app_assoc.
  rewrite Hc in Hfolder. rewrite Hfolder. repeat split.
Qed.

End ConfigStore.

(* ================================================================== *)
(** * The loader tool *)
(* ================================================================== *)

Section Tool.

Context {P : Platform}.

Local Open Scope host_scope.

Lemma trim_start_keep c r : is_trim_ws c = false -> trim_start (c :: r) = c :: r.
Proof. intros H. cbn [trim_start]. rewrite H. reflexivity. Qed.

Lemma trim_start_blank ws l :
  Forall (fun c => is_trim_ws c = true) ws -> trim_start (ws ++ l) = trim_start l.
Proof.
  induction 1 as [|c ws Hc _ IH]; [reflexivity|]. cbn [app trim_start]. rewrite Hc. exact IH.
Qed.

(** Trimming at the end: white space behind the last character that is
    not white space goes. *)
Lemma trim_end_after a c ws :
  is_trim_ws c = false -> Forall (fun x => is_trim_ws x = true) ws ->
  rev (trim_start (rev (a ++ c :: ws))) = (a ++ [c])%list.
Proof.
  intros Hc Hws. rewrite rev_app_distr. cbn [rev]. rewrite <- !app_assoc. cbn [app].
  rewrite trim_start_blank by (apply Forall_rev, Hws).
  rewrite trim_start_keep by exact Hc.
  cbn [rev]. rewrite rev_involutive. reflexivity.
Qed.

(** Every text that is not blank ends in a last character that is not
    white space, followed by white space only. *)
Lemma last_not_blank s :
  not_blank s ->
  exists a c ws, s = (a ++ c :: ws)%list /\ is_trim_ws c = false
                 /\ Forall (fun x => is_trim_ws x = true) ws.
Proof.
  intros (a & c & b & -> & [Hc _]). revert a c Hc.
  induction b as [|x b IH] using rev_ind; intros a c Hc.
  - exists a, c, []. auto.
  - destruct (is_trim_ws x) eqn:Hx.
    + destruct (IH a c Hc) as (a' & c' & ws & E & Hc' & Hws).
      exists a', c', (ws ++ [x])%list. split; [|split; [exact Hc'|]].
      * rewrite app_comm_cons, app_assoc, E, <- app_assoc. reflexivity.
      * apply Forall_app. split; [exact Hws|repeat constructor; exact Hx].
    + exists (a ++ c :: b)%list, x, []. split; [|auto].
      rewrite <- app_assoc. reflexivity.
Qed.

Lemma first_line_chars_clean line rest :
  Forall (fun c => (c =? "010")%char = false) line ->
  first_line_chars (line ++ LF :: rest) = line.
Proof.
  induction 1 as [|c line Hc _ IH]; [reflexivity|].
  cbn [app first_line_chars]. rewrite Hc, IH. reflexivity.
Qed.

Lemma first_line_chars_whole line :
  Forall (fun c => (c =? "010")%char = false) line -> first_line_chars line = line.
Proof.
  induction 1 as [|c line Hc _ IH]; [reflexivity|].
  cbn [first_line_chars]. rewrite Hc, IH. reflexivity.
Qed.

Lemma first_line_of_one line :
  clean_line line ->
  first_line (trim (string_of_list_ascii (line ++ [LF])))
  = string_of_list_ascii line.
Proof.
  intros (Hlf & (c & r & E & [Hc _]) & (r' & c' & E' & [Hc' _])).
  unfold first_line, trim. rewrite !list_ascii_of_string_of_list_ascii.
  assert (Hstart : trim_start (line ++ [LF]) = (line ++ [LF])%list).
  { rewrite E. cbn [app]. apply trim_start_keep, Hc. }
  rewrite Hstart. rewrite E' at 1. rewrite <- app_assoc. cbn [app].
  rewrite trim_end_after by (try exact Hc'; repeat constructor).
  rewrite <- E'. rewrite first_line_chars_whole by exact Hlf. reflexivity.
Qed.

Lemma first_line_of_several line more :
  clean_line line -> not_blank more ->
  first_line (trim (string_of_list_ascii (line ++ CR :: LF :: more)))
  = string_of_list_ascii (line ++ [CR]).
Proof.
  intros (Hlf & (c & r & E & [Hc _]) & _) Hmore.
  destruct (last_not_blank more Hmore) as (a & x & ws & -> & Hx & Hws).
  unfold first_line, trim. rewrite !list_ascii_of_string_of_list_ascii.
  assert (Hstart : trim_start (line ++ CR :: LF :: a ++ x :: ws)
                   = (line ++ CR :: LF :: a ++ x :: ws)%list).
  { rewrite E. cbn [app]. apply trim_start_keep, Hc. }
  rewrite Hstart.
  replace (line ++ CR :: LF :: a ++ x :: ws)%list
    with ((line ++ CR :: LF :: a) ++ x :: ws)%list
    by (rewrite <- app_assoc; reflexivity).
  rewrite trim_end_after by assumption.
  replace ((line ++ CR :: LF :: a) ++ [x])%list
    with ((line ++ [CR]) ++ LF :: a ++ [x])%list
    by (rewrite <- !app_assoc; reflexivity).
  rewrite first_line_chars_clean; [reflexivity|].
  apply Forall_app. split; [exact Hlf|repeat constructor].
Qed.

(** X17: when the lookup command succeeds, [findWebExt] returns the
    first line of its trimmed output and checks nothing: for one line
    followed by a line feed, as [which] prints it, that is the line; for
    lines that end in a carriage return and a line feed, as [where]
    prints them, with something on a later line, it is the first line
    with its carriage return.  The world is as the command left it. *)
Theorem findWebExt_returns_the_first_line
        (st : HostState) (line more : list ascii) :
  clean_line line ->
  (forall w,
      child_execSync (world st) lookup_command
      = (w, inl (string_of_list_ascii (line ++ [LF]))) ->
      findWebExt st = (inl (str (string_of_list_ascii line)), set_world w st))
  /\ (forall w,
         not_blank more ->
         child_execSync (world st) lookup_command
         = (w, inl (string_of_list_ascii (line ++ CR :: LF :: more))) ->
         findWebExt st
         = (inl (str (string_of_list_ascii (line ++ [CR]))), set_world w st)).
Proof.
  intros Hline.
  assert (E : forall w out,
             child_execSync (world st) lookup_command = (w, inl out) ->
             findWebExt st = (inl (str (first_line (trim out))), set_world w st)).
  { intros w out Hexec.
    unfold findWebExt, try_catch, bind, execSync, returns. fold lookup_command.
    rewrite Hexec. reflexivity. }
  split.
  - intros w Hexec. rewrite (E w _ Hexec), first_line_of_one by exact Hline. reflexivity.
  - intros w Hmore Hexec.
    rewrite (E w _ Hexec), first_line_of_several by assumption. reflexivity.
Qed.

End Tool.

(* ================================================================== *)
(** * The installer *)
(* ================================================================== *)

Section InstallerFacts.

Context {P : Platform} {IP : InstallerPlatform P}.

Import Installer JSONIndentFacts.

(** Run a computation of the installer on a symbolic state, one call
    into the platform after the other. *)
Ltac call_in H :=
  match type of H with
  | context [fs_existsSync ?w ?p] => destruct (fs_existsSync w p) eqn:?
  | context [fs_mkdirSync ?w ?p] => destruct (fs_mkdirSync w p) as [? [?|]] eqn:?
  | context [fs_chmodSync ?w ?p ?m] => destruct (fs_chmodSync w p m) as [? [?|]] eqn:?
  | context [fs_writeFileSync ?w ?p ?d] =>
    destruct (fs_writeFileSync w p d) as [? [?|]] eqn:?
  | context [fs_unlinkSync ?w ?p] => destruct (fs_unlinkSync w p) as [? [?|]] eqn:?
  | context [child_execSync ?w ?c] => destruct (child_execSync w c) as [? [?|?]] eqn:?
  end.

Ltac unfold_in H :=
  cbv [bind try_catch console_log console_error existsSync mkdirSync chmodSync
       writeFileSync unlinkSync execSync readFileSync lift_call ret throw with_world negb
       i_world console_out console_err written removed] in H.

Ltac run_in H :=
  unfold_in H; repeat (call_in H; cbv beta iota in H; try discriminate H).

(** The state a run that returned has left. *)
Ltac final_state H s' := apply (f_equal snd) in H; cbv [snd] in H; subst s'.

Ltac config_written_or_not :=
  lazymatch goal with
  | E : fs_writeFileSync ?w _ (JSON.stringify_indent 2 default_config_json) = _ |- _ =>
    eexists [_];
    split; [rewrite <- ?app_assoc; cbn [app]; reflexivity|];
    right; split; [reflexivity|];
    exists w; split; [assumption|rewrite E; reflexivity]
  | _ =>
    exists [];
    split; [rewrite <- ?app_assoc; cbn [app]; reflexivity|];
    left; split; [reflexivity|assumption]
  end.

(** X18: when [install] returns, it has removed nothing and has written,
    in this order, the batch wrapper (on Windows only), the manifest,
    whose text parses back to a manifest that names the executable, and
    the default configuration; this last only where it found no
    configuration file, so that an existing one is never overwritten. *)
Theorem install_spares_an_existing_configuration (s s' : State) :
  install s = (inl tt, s') ->
  removed s' = removed s
  /\ JSON.parse manifest_text = Some (createManifest executable_path)
  /\ field (createManifest executable_path) "path" = str executable_path
  /\ exists cfg,
      written s' = written s ++ install_writes ++ cfg
      /\ ((cfg = [] /\ fs_existsSync (i_world s') (str config_path) = true)
          \/ (cfg = [(config_path, installer_config_text)]
              /\ exists w,
                  fs_existsSync w (str config_path) = false
                  /\ i_world s' = fst (fs_writeFileSync w config_path installer_config_text))).
Proof.
  intros H.
  assert (Hlogs :
            removed s' = removed s
            /\ exists cfg,
                written s' = written s ++ install_writes ++ cfg
                /\ ((cfg = [] /\ fs_existsSync (i_world s') (str config_path) = true)
                    \/ (cfg = [(config_path, installer_config_text)]
                        /\ exists w,
                            fs_existsSync w (str config_path) = false
                            /\ i_world s'
                               = fst (fs_writeFileSync w config_path
                                                       installer_config_text)))).
  { destruct s as [w0 out err wr rm].
    unfold install, createBatchWrapper, addWindowsRegistry in H.
    unfold install_writes, manifest_text, executable_path, batch_path, manifest_path,
      config_path, installer_config_text.
    destruct os_platform; run_in H; final_state H s'; cbv [removed written i_world];
      (split; [reflexivity|config_written_or_not]). }
  destruct Hlogs as [Hremoved Hwritten].
  split; [exact Hremoved|]. split; [apply parse_stringify_indent|].
  split; [reflexivity|exact Hwritten].
Qed.

Ltac gone_which :=
  cbv [removed written];
  split; [reflexivity|];
  first [ exists []; split; [rewrite ?List.app_nil_r; reflexivity|]
        | eexists [_]; split; [rewrite <- ?app_assoc; cbn [app]; reflexivity|]
        | eexists [_; _]; split; [rewrite <- ?app_assoc; cbn [app]; reflexivity|] ];
  (split; [auto|]);
  intros Hm Hb Hin; cbn [In] in Hin; intuition congruence.

(** X19: [uninstall], whether it returns or throws, writes no file and
    removes at most the manifest and the batch wrapper, in this order; so
    it never removes the configuration file, whose path is neither. *)
Theorem uninstall_removes_at_most_the_manifest_and_the_wrapper (s : State) :
  let s' := snd (uninstall s) in
  written s' = written s
  /\ exists gone,
      removed s' = removed s ++ gone
      /\ (gone = [] \/ gone = [manifest_path] \/ gone = [batch_path]
          \/ gone = [manifest_path; batch_path])
      /\ (config_path <> manifest_path -> config_path <> batch_path ->
          ~ In config_path gone).
Proof.
  cbv zeta. destruct (uninstall s) as [r s'] eqn:H. cbv [snd].
  destruct s as [w0 out err wr rm].
  unfold uninstall in H. unfold manifest_path, batch_path.
  destruct os_platform; run_in H; final_state H s'; gone_which.
Qed.

Ltac look_in H :=
  match type of H with
  | context [fs_existsSync ?w ?p] => destruct (fs_existsSync w p) eqn:?
  | context [fs_readFileSync ?w ?p] => destruct (fs_readFileSync w p) as [?|?] eqn:?
  | context [JSON.parse ?t] => destruct (JSON.parse t) as [?|] eqn:?
  | context [get_prop ?v ?k] => destruct (get_prop v k) as [?|] eqn:?
  | context [js_toString ?v] => destruct (js_toString v) as [?|] eqn:?
  | context [truthy ?v] => destruct (truthy v) eqn:?
  end.

(** X20: [status], whether it returns or throws, and the usage text,
    which is what an unknown command gets, only print: they write and
    remove nothing and leave the world as it is.  [status] handles no
    error: when the manifest file exists and is not JSON, it throws the
    [SyntaxError]. *)
Theorem status_and_usage_only_print (s : State) (command : string) (text : string) :
  only_printed s (snd (status s))
  /\ only_printed s (snd (usage s))
  /\ (command <> EmptyString -> command <> "install"%string ->
      command <> "uninstall"%string -> command <> "status"%string ->
      forall more, run (command :: more) = usage)
  /\ (fs_existsSync (i_world s) (str manifest_path) = true ->
      fs_readFileSync (i_world s) manifest_path = inl text ->
      JSON.parse text = None ->
      fst (status s) = inr (msg_syntax_error text)).
Proof.
  split; [|split; [|split]].
  - destruct (status s) as [r s'] eqn:H. cbv [snd].
    destruct s as [w0 out err wr rm]. unfold status in H.
    cbv [bind try_catch console_log existsSync readFileSync JSON_parse prop template
         ret throw i_world console_out console_err written removed] in H.
    repeat (look_in H; cbv beta iota in H).
    all: final_state H s'; repeat split.
  - repeat split.
  - intros H0 H1 H2 H3 more. unfold run.
    apply String.eqb_neq in H0, H1, H2, H3. rewrite H0, H1, H2, H3. reflexivity.
  - intros Hex Hread Hparse. unfold manifest_path in *.
    destruct s as [w0 out err wr rm]. cbv [i_world] in Hex, Hread.
    unfold status.
    cbv [bind try_catch console_log existsSync readFileSync JSON_parse prop template
         ret throw i_world console_out console_err written removed].
    rewrite Hex, Hread, Hparse. reflexivity.
Qed.

End InstallerFacts.

Section InstalledConfig.

Context {P : Platform}.

Import JSONIndentFacts.

Local Open Scope host_scope.

(** X21: the configuration the installer writes and the helper's own
    defaults fit: a helper that starts from its defaults and finds the
    installer's file ends up with an empty folder, its defaults for the
    keys the file lacks, and the file's [autoStart] besides. *)
Theorem installed_configuration_gives_the_defaults (st : HostState) :
  config st = default_config ->
  config_file_holds st installer_config_text ->
  exists st',
    loadConfig st = (inl tt, st')
    /\ config st'
       = [("extensionFolder"%string, str EmptyString);
          ("firefoxPath"%string, str EmptyString);
          ("watchEnabled"%string, Some (JBool false));
          ("autoStart"%string, Some (JBool false))]
    /\ stderr st' = stderr st.
Proof.
  intros Hc Hfile.
  rewrite (loadConfig_reads st _ Installer.default_config_json Hfile)
    by apply parse_stringify_indent.
  destruct (ensure_config_dir_spec st) as [w ->].
  eexists. split; [reflexivity|]. cbn [config set_config set_world stderr].
  rewrite Hc. split; reflexivity.
Qed.

End InstalledConfig.

(* ================================================================== *)
(** * The turns for scan, unload and load *)
(* ================================================================== *)

Section HostTurns.

Context {P : Platform}.

Local Open Scope host_scope.
Local Open Scope string_scope.
Local Open Scope list_scope.

(** The turn for a [scan] request. *)
Lemma scan_turn serial message st :
  is_case (field message "action") "scan" = true ->
  exists st1,
    turn serial message st
    = (inl tt,
       set_stdout
         (stdout st
          ++ frame (to_json (obj_literal
               [("type", str "extensions_list");
                ("extensions",
                 Some (JArr (scan_result (obj_get "extensionFolder" (config st))
                                         (world st))));
                ("folder", obj_get "extensionFolder" (config st))]))) st1)
    /\ same_but_stderr st st1.
Proof.
  intros Hscan. unfold turn, handleMessage, prop, field in *.
  destruct (get_prop message "action") as [action|]; [|discriminate Hscan].
  rewrite bind_ret. cbv beta zeta.
  apply is_case_eq in Hscan. subst action.
  change (is_case (str "scan") "status") with false.
  change (is_case (str "scan") "scan") with true. cbv iota.
  destruct (scanExtensionsFolder_spec st) as (st1 & E1 & Hsame).
  unfold try_catch, bind at 1. rewrite E1.
  unfold bind, get_state. rewrite sendMessage_spec.
  destruct Hsame as (Hc & Hm & Hw & Ho & Hs).
  exists st1. rewrite Hc, Ho. split; [reflexivity|repeat split; assumption].
Qed.

(** The turn for an [unload] request. *)
Lemma unload_turn serial message st :
  is_case (field message "action") "unload" = true ->
  let key := {| k_val := field message "path"; k_id := serial |} in
  exists result st1,
    unloadExtension key st = (inl result, st1)
    /\ stdout st1 = stdout st
    /\ turn serial message st
       = (inl tt,
          set_stdout
            (stdout st
             ++ frame (to_json (obj_literal
                  (("type", str "unload_result")
                   :: result ++ [("path", field message "path")])))) st1).
Proof.
  intros Hun. cbv zeta. unfold turn, handleMessage, prop, field in *.
  destruct (get_prop message "action") as [action|]; [|discriminate Hun].
  rewrite bind_ret. cbv beta zeta.
  apply is_case_eq in Hun. subst action.
  change (is_case (str "unload") "status") with false.
  change (is_case (str "unload") "scan") with false.
  change (is_case (str "unload") "set_folder") with false.
  change (is_case (str "unload") "load") with false.
  change (is_case (str "unload") "load_all") with false.
  change (is_case (str "unload") "unload") with true. cbv iota.
  set (key := {| k_val := _; k_id := serial |}).
  destruct (Map_get key (loadedExtensions st)) as [loaded|] eqn:E.
  - exists unload_ok. eexists. split; [apply (unloadExtension_present key st loaded E)|].
    split; [reflexivity|].
    unfold try_catch, bind. rewrite (unloadExtension_present key st loaded E).
    rewrite sendMessage_spec. reflexivity.
  - exists unload_not_loaded. eexists. split; [apply (unloadExtension_absent key st E)|].
    split; [reflexivity|].
    unfold try_catch, bind. rewrite (unloadExtension_absent key st E).
    rewrite sendMessage_spec. reflexivity.
Qed.

Lemma answers_with_bind {A B} Q (Q0 : A -> Prop) (m : M A) (k : A -> M B) :
  quiet m ->
  (forall st x st', m st = (inl x, st') -> Q0 x) ->
  (forall x, Q0 x -> answers_with Q (k x)) ->
  answers_with Q (bind m k).
Proof.
  intros Hq HQ Hk st. unfold bind. pose proof (quiet_stdout m st Hq) as E.
  destruct (m st) as [[x|e] st1] eqn:Em; cbn in E; [|exact E].
  specialize (Hk x (HQ st x st1 Em) st1). destruct (k x st1) as [[y|e] st2].
  - destruct Hk as (r & Hr & E2). exists r. split; [exact Hr|].
    rewrite E2, E. reflexivity.
  - rewrite Hk. exact E.
Qed.

Lemma answers_with_sendMessage (Q : json -> Prop) o :
  Q (to_json o) -> answers_with Q (sendMessage o).
Proof.
  intros HQ st. rewrite sendMessage_spec. exists (to_json o). split; [exact HQ|reflexivity].
Qed.

(** The turn for a [load] request: the response reports success, or it is
    the one of the [catch]. *)
Lemma load_turn serial message st :
  is_case (field message "action") "load" = true ->
  exists response st',
    turn serial message st = (inl tt, st')
    /\ stdout st' = stdout st ++ frame response
    /\ (field response "success" = Some (JBool true)
        \/ exists error, response = to_json (load_failure error (field message "path"))).
Proof.
  intros Hload. unfold turn, handleMessage, prop, field in Hload |- *.
  destruct (get_prop message "action") as [action|]; [|discriminate Hload].
  rewrite bind_ret. cbv beta zeta.
  apply is_case_eq in Hload. subst action.
  change (is_case (str "load") "status") with false.
  change (is_case (str "load") "scan") with false.
  change (is_case (str "load") "set_folder") with false.
  change (is_case (str "load") "load") with true. cbv iota.
  fold (field message "path").
  match goal with
  | |- context [try_catch (try_catch ?body ?h) report st] =>
    assert (Hbody : answers_with (fun r => field r "success" = Some (JBool true)) body)
  end.
  { apply (answers_with_bind _ (fun r => r = web_ext_result
                                         \/ exists p, r = profile_result p)).
    - quiet_tac.
    - intros s r s'. apply loadExtensionViaRDP_result.
    - intros result Hres.
      do 4 (apply (answers_with_bind _ (fun _ => True));
            [solve [quiet_tac]|intros; exact I|intros ? _]).
      apply (answers_with_bind _ (fun _ => True)); [|intros; exact I|intros ? _].
      + intros o. destruct (truthy _); [pres|].
        destruct (field message "path") as [[]|]; pres.
      + apply answers_with_sendMessage.
        rewrite field_to_json_literal, obj_get_literal.
        destruct Hres as [->|[p ->]]; reflexivity. }
  specialize (Hbody st). unfold try_catch.
  match type of Hbody with
  | match ?b with _ => _ end => destruct b as [[[]|e] st1]
  end.
  - destruct Hbody as (r & Hr & E). exists r, st1. split; [reflexivity|].
    split; [exact E|]. left. exact Hr.
  - rewrite sendMessage_spec. eexists. eexists. split; [reflexivity|].
    cbn [stdout set_stdout]. rewrite Hbody. split; [reflexivity|].
    right. exists e. reflexivity.
Qed.

End HostTurns.


(* ================================================================== *)
(** * The background script *)
(* ================================================================== *)

Section BackgroundFacts.

Context {B : Browser}.

Import Background.

Local Open Scope string_scope.

Lemma field_get_prop v k x : field v k = Some x -> get_prop v k = Some (Some x).
Proof.
  unfold field, undefined. destruct (get_prop v k) as [[y|]|]; cbn; intros E; try discriminate.
  f_equal. exact E.
Qed.

Lemma find_path_none path l s : none_has path l -> find_path path l s = (inl None, s).
Proof.
  induction 1 as [|e l (p & Ep & Hp) _ IH]; [reflexivity|].
  cbn [find_path]. rewrite Ep, Hp. exact IH.
Qed.

Lemma filter_path_none path l s : none_has path l -> filter_path path l s = (inl l, s).
Proof.
  induction 1 as [|e l (p & Ep & Hp) _ IH]; [reflexivity|].
  cbn [filter_path]. rewrite Ep. unfold bind. rewrite IH, Hp. reflexivity.
Qed.

Lemma strict_eq_same p : is_ref p = false -> strict_eq p p = true.
Proof.
  unfold strict_eq. intros H.
  destruct p as [[|b|n|s|items|props]|]; cbn in *; try reflexivity; try discriminate.
  - apply Bool.eqb_reflx.
  - apply Z.eqb_refl.
  - apply String.eqb_refl.
Qed.

Lemma find_path_last path l e s :
  none_has path l -> element_path e = Some path -> is_ref path = false ->
  find_path path (l ++ [e]) s = (inl (Some e), s).
Proof.
  intros Hl He Hp. induction Hl as [|x l (p & Ep & Hx) _ IH].
  - cbn [app find_path]. rewrite He, strict_eq_same by exact Hp. reflexivity.
  - cbn [app find_path]. rewrite Ep, Hx. exact IH.
Qed.

Lemma filter_path_last path l e s :
  none_has path l -> element_path e = Some path -> is_ref path = false ->
  filter_path path (l ++ [e]) s = (inl l, s).
Proof.
  intros Hl He Hp. induction Hl as [|x l (p & Ep & Hx) _ IH].
  - cbn [app filter_path]. rewrite He, strict_eq_same by exact Hp. reflexivity.
  - cbn [app filter_path]. rewrite Ep. unfold bind at 1. rewrite IH, Hx. reflexivity.
Qed.

(** A message whose type has no case. *)
Lemma no_case_only_logged now r t s :
  field r "type" = str t -> In t without_case ->
  handleNativeMessage now r s = (inl tt, only_logged r s).
Proof.
  intros Ht Hin. unfold handleNativeMessage, only_logged.
  rewrite Ht, (field_get_prop _ _ _ Ht). unfold bind, call at 1.
  destruct Hin as [<-|[<-|[<-|[]]]]; cbn; unfold call; cbn; rewrite <- app_assoc; reflexivity.
Qed.

Lemma Forall2_of_maps {X Y Z} (f : X -> Z) (g : Y -> Z) (Q : X -> Y -> Prop) xs ys :
  map f xs = map g ys -> (forall x y, f x = g y -> Q x y) -> Forall2 Q xs ys.
Proof.
  intros E HQ. revert ys E. induction xs as [|x xs IH]; intros [|y ys] E;
    try discriminate; constructor.
  - apply HQ. now injection E.
  - apply IH. now injection E.
Qed.

Lemma find_path_state path l s : snd (find_path path l s) = s.
Proof.
  induction l as [|e l IH]; [reflexivity|]. cbn [find_path].
  destruct (element_path e) as [p|]; [|reflexivity].
  destruct (strict_eq p path); [reflexivity|exact IH].
Qed.

Lemma filter_path_state path l s : snd (filter_path path l s) = s.
Proof.
  induction l as [|e l IH]; [reflexivity|]. cbn [filter_path].
  destruct (element_path e) as [p|]; [|reflexivity].
  unfold bind. destruct (filter_path path l s) as [[kept|error] s1]; cbn [snd] in IH; subst s1.
  - destruct (negb _); reflexivity.
  - reflexivity.
Qed.

(** The five cases of the switch. *)
Lemma dispatch now message type s :
  field message "type" = str type ->
  handleNativeMessage now message s
  = (if String.eqb type "status" then handleStatusResponse now message
     else if String.eqb type "extensions_list" then handleExtensionsList now message
     else if String.eqb type "load_result" then handleLoadResult now message
     else if String.eqb type "unload_result" then handleUnloadResult message
     else if String.eqb type "error" then handleError message
     else call (console_warn "[Rapunzel] Unknown message type:" (str type)))
      {| loadedExtensions := loadedExtensions s;
         events := events s
                   ++ [console_log "[Rapunzel] Received from native:" (Some message)] |}.
Proof.
  intros Ht. unfold handleNativeMessage. rewrite (field_get_prop _ _ _ Ht).
  unfold bind at 1, call at 1. reflexivity.
Qed.

Lemma element_path_pushed now message :
  element_path (pushed now message) = Some (field message "path").
Proof. reflexivity. Qed.

(** A successful [load_result] for a path that no element has. *)
Lemma load_result_new now message path l ev :
  reports_success "load_result" path message -> none_has path l ->
  exists ev',
    handleNativeMessage now message {| loadedExtensions := Items l; events := ev |}
    = (inl tt, {| loadedExtensions := Items (l ++ [pushed now message]); events := ev' |}).
Proof.
  intros (Ht & Hs & Hp & Hn) Hl. rewrite (dispatch now message _ _ Ht).
  cbn [String.eqb Ascii.eqb Bool.eqb andb loadedExtensions events].
  unfold handleLoadResult. rewrite Hs, Hp. unfold template.
  destruct (js_toString (field message "extensionName")) as [name|]; [|congruence].
  unfold bind at 1. unfold bind at 1. unfold bind at 1. unfold ret at 1.
  unfold bind at 1. unfold showNotification at 1, call at 1.
  cbn [loadedExtensions events].
  unfold bind at 1, get_loaded at 1. cbn [loadedExtensions events].
  unfold bind at 1. rewrite (find_path_none path l _ Hl).
  cbn. unfold pushed. rewrite Hp. eexists. reflexivity.
Qed.

(** A successful [load_result] for the path of the last element. *)
Lemma load_result_again now message path l e ev :
  reports_success "load_result" path message -> none_has path l ->
  element_path e = Some path -> is_ref path = false -> element_truthy e = true ->
  exists ev',
    handleNativeMessage now message {| loadedExtensions := Items (l ++ [e]); events := ev |}
    = (inl tt, {| loadedExtensions := Items (l ++ [e]); events := ev' |}).
Proof.
  intros (Ht & Hs & Hp & Hn) Hl He Hr Htr. rewrite (dispatch now message _ _ Ht).
  cbn [String.eqb Ascii.eqb Bool.eqb andb loadedExtensions events].
  unfold handleLoadResult. rewrite Hs, Hp. unfold template.
  destruct (js_toString (field message "extensionName")) as [name|]; [|congruence].
  unfold bind at 1. unfold bind at 1. unfold bind at 1. unfold ret at 1.
  unfold bind at 1. unfold showNotification at 1, call at 1.
  cbn [loadedExtensions events].
  unfold bind at 1, get_loaded at 1. cbn [loadedExtensions events].
  unfold bind at 1. rewrite (find_path_last path l e _ Hl He Hr). rewrite Htr.
  cbn. eexists. reflexivity.
Qed.

(** A successful [unload_result] for the path of the last element. *)
Lemma unload_result_last message path l e ev :
  reports_success "unload_result" path message -> none_has path l ->
  element_path e = Some path -> is_ref path = false ->
  forall now, exists ev',
    handleNativeMessage now message {| loadedExtensions := Items (l ++ [e]); events := ev |}
    = (inl tt, {| loadedExtensions := Items l; events := ev' |}).
Proof.
  intros (Ht & Hs & Hp & Hn) Hl He Hr now. rewrite (dispatch now message _ _ Ht).
  cbn [String.eqb Ascii.eqb Bool.eqb andb loadedExtensions events].
  unfold handleUnloadResult. rewrite Hs, Hp. unfold template.
  destruct (js_toString (field message "extensionName")) as [name|]; [|congruence].
  unfold bind at 1. unfold bind at 1. unfold bind at 1. unfold ret at 1.
  unfold bind at 1. unfold showNotification at 1, call at 1.
  cbn [loadedExtensions events].
  unfold bind at 1, get_loaded at 1. cbn [loadedExtensions events].
  unfold bind at 1. rewrite (filter_path_last path l e _ Hl He Hr).
  cbn. eexists. reflexivity.
Qed.

(** What is shown for an [unload_result], whatever the list holds. *)
Lemma unload_result_shown now message s :
  field message "type" = str "unload_result" ->
  forall text,
    (if truthy (field message "success")
     then option_map (fun name => ("Extension Unloaded", "Successfully unloaded: " ++ name))
                     (js_toString (field message "extensionName"))
     else option_map (fun error => ("Unload Failed", "Failed to unload: " ++ error))
                     (js_toString (field message "error")))
    = Some text ->
    exists after,
      events (snd (handleNativeMessage now message s))
      = (events s
         ++ console_log "[Rapunzel] Received from native:" (Some message)
         :: notification (fst text) (snd text) :: after)%list.
Proof.
  intros Ht text Htext. rewrite (dispatch now message _ _ Ht).
  cbn [String.eqb Ascii.eqb Bool.eqb andb].
  unfold handleUnloadResult, template.
  destruct (truthy (field message "success")).
  - destruct (js_toString (field message "extensionName")) as [name|]; [|discriminate].
    injection Htext as <-. unfold fst at 1. unfold snd at 2.
    unfold bind at 1. unfold bind at 1. unfold bind at 1. unfold ret at 1.
    unfold bind at 1. unfold showNotification at 1, call at 1.
    cbn [loadedExtensions events].
    unfold bind at 1, get_loaded at 1. cbn [loadedExtensions events].
    destruct (loadedExtensions s) as [l|v].
    + unfold bind.
      match goal with
      | |- context [filter_path ?p l ?s0] =>
        pose proof (filter_path_state p l s0) as Hst;
        destruct (filter_path p l s0) as [[kept|error] s1]
      end; cbn [snd] in Hst; subst s1;
        cbn; rewrite <- !app_assoc; cbn [app]; eexists; reflexivity.
    + cbn. rewrite <- !app_assoc. cbn [app]. eexists. reflexivity.
  - destruct (js_toString (field message "error")) as [error|]; [|discriminate].
    injection Htext as <-. cbn. rewrite <- !app_assoc. cbn [app]. eexists. reflexivity.
Qed.

Lemma js_toString_str s : js_toString (str s) = Some s.
Proof. cbn. rewrite string_of_list_ascii_of_string. reflexivity. Qed.

(** A [load_result] that reports a failure. *)
Lemma load_result_failed now message name error s :
  field message "type" = str "load_result" ->
  truthy (field message "success") = false ->
  js_toString (field message "extensionName") = Some name ->
  js_toString (field message "error") = Some error ->
  handleNativeMessage now message s
  = (inl tt,
     {| loadedExtensions := loadedExtensions s;
        events :=
          (events s
           ++ [console_log "[Rapunzel] Received from native:" (Some message);
               notification "Load Failed" ("Failed to load " ++ name ++ ": " ++ error);
               runtime_sendMessage
                 (obj_literal (("type", str "load_result")
                               :: spread_props (Some message)))])%list |}).
Proof.
  intros Ht Hs Hn He. rewrite (dispatch now message _ _ Ht).
  cbn [String.eqb Ascii.eqb Bool.eqb andb].
  unfold handleLoadResult, template. rewrite Hs, Hn, He.
  unfold bind, ret, showNotification, call, notification.
  cbn [loadedExtensions events]. rewrite <- !app_assoc. reflexivity.
Qed.

(** X22: the list the background script keeps follows the results of the
    helper: a successful [load_result] for a path that no element has
    appends one element with the name, the path and the time; the same
    result again appends nothing; and a successful [unload_result] for
    that path then gives back the list as it was.  (The path is not an
    object or an array, and every element of the list has a path to
    read.) *)
Theorem load_result_then_unload_result_restore_the_list
        (now now' now'' : Z) (load unload : json) (path : jsval)
        (l : list element) (s : State) :
  loadedExtensions s = Items l ->
  none_has path l ->
  is_ref path = false ->
  reports_success "load_result" path load ->
  reports_success "unload_result" path unload ->
  exists s1 s2 s3,
    handleNativeMessage now load s = (inl tt, s1)
    /\ handleNativeMessage now' load s1 = (inl tt, s2)
    /\ handleNativeMessage now'' unload s2 = (inl tt, s3)
    /\ loadedExtensions s1 = Items (l ++ [pushed now load])
    /\ loadedExtensions s2 = loadedExtensions s1
    /\ loadedExtensions s3 = Items l.
Proof.
  intros Hs Hl Hr Hload Hunload. destruct s as [ls ev]. cbn in Hs. subst ls.
  destruct (load_result_new now load path l ev Hload Hl) as (ev1 & E1).
  assert (Hpath : element_path (pushed now load) = Some path).
  { rewrite element_path_pushed. destruct Hload as (_ & _ & -> & _). reflexivity. }
  destruct (load_result_again now' load path l (pushed now load) ev1 Hload Hl Hpath Hr
              eq_refl) as (ev2 & E2).
  destruct (unload_result_last unload path l (pushed now load) ev2 Hunload Hl Hpath Hr now'')
    as (ev3 & E3).
  exists {| loadedExtensions := Items (l ++ [pushed now load]); events := ev1 |},
         {| loadedExtensions := Items (l ++ [pushed now load]); events := ev2 |},
         {| loadedExtensions := Items l; events := ev3 |}.
  repeat split; assumption.
Qed.

End BackgroundFacts.

(* ================================================================== *)
(** * The helper and the background script together *)
(* ================================================================== *)

Section BothSides.

Context {P : Platform} {B : Browser}.

Local Open Scope string_scope.
Local Open Scope list_scope.

(** X23: every response of the helper reaches the background script with
    the [type] of its request, and the script has no case for three of
    them: a [folder_set], a [load_all_result] or an [unload_all_result]
    is logged, a warning is printed, and nothing else happens; the list
    of loaded extensions stays as it is and no notification is made. *)
Theorem results_without_a_case_are_only_logged
        (serial : nat) (message : json) (st : HostState) :
  exists (responses : list json) (st' : HostState),
    turn serial message st = (inl tt, st')
    /\ stdout st' = stdout st ++ List.concat (map frame responses)
    /\ Forall2 (fun r t =>
                  field r "type" = str t
                  /\ (In t without_case ->
                      forall now s,
                        Background.handleNativeMessage now r s = (inl tt, only_logged r s)))
               responses (response_types (field message "action")).
Proof.
  destruct (sends_turn serial message st) as ([] & st' & E & (rs & T & W)).
  exists rs, st'. split; [exact E|]. split; [exact W|].
  apply (Forall2_of_maps _ _ _ _ _ T). intros r t Ht. split; [exact Ht|].
  intros Hin now s. apply (no_case_only_logged now r t s Ht Hin).
Qed.

(** X24: the response to [scan] makes the background script replace its
    list of loaded extensions by the descriptors the scan found in the
    folder, whatever the list held before. *)
Theorem a_scan_replaces_the_list_of_loaded_extensions
        (serial : nat) (message : json) (st : HostState) :
  is_case (field message "action") "scan" = true ->
  exists (response : json) (st' : HostState),
    turn serial message st = (inl tt, st')
    /\ stdout st' = stdout st ++ frame response
    /\ forall now s,
         fst (Background.handleNativeMessage now response s) = inl tt
         /\ Background.loadedExtensions (snd (Background.handleNativeMessage now response s))
            = Background.Items (map Background.Parsed
                         (scan_result (obj_get "extensionFolder" (config st))
                                      (world st))).
Proof.
  intros Hscan. destruct (scan_turn serial message st Hscan) as (st1 & E & _).
  eexists. eexists. split; [exact E|]. split; [reflexivity|].
  intros now s.
  destruct (obj_get "extensionFolder" (config st)) as [folder|]; split; reflexivity.
Qed.

Ltac shown text :=
  match goal with
  | |- context [Background.handleNativeMessage ?now ?r ?s] =>
    apply (unload_result_shown now r s eq_refl text); reflexivity
  end.

(** X25: the response to [unload] carries no [extensionName].  So when
    the helper had a record for the path and removed it, the
    notification of the background script reads
    [Successfully unloaded: undefined]; when it had none, the
    notification gives the reason the helper sent.  The notification is
    made before the list is touched, whatever the list holds. *)
Theorem an_unloaded_extension_is_announced_without_its_name
        (serial : nat) (message : json) (st : HostState) :
  is_case (field message "action") "unload" = true ->
  let recorded :=
    Map_has {| k_val := field message "path"; k_id := serial |} (loadedExtensions st) in
  exists (response : json) (st' : HostState),
    turn serial message st = (inl tt, st')
    /\ stdout st' = stdout st ++ frame response
    /\ field response "success" = Some (JBool recorded)
    /\ field response "extensionName" = undefined
    /\ forall now s,
         exists after,
           Background.events (snd (Background.handleNativeMessage now response s))
           = Background.events s
             ++ Background.console_log "[Rapunzel] Received from native:" (Some response)
             :: (if recorded
                 then notification "Extension Unloaded" "Successfully unloaded: undefined"
                 else notification "Unload Failed"
                        "Failed to unload: Extension not found in loaded list")
             :: after.
Proof.
  intros Hun. cbv zeta.
  destruct (unload_turn serial message st Hun) as (result & st1 & Eu & Ho & Et).
  unfold Map_has.
  destruct (Map_get _ (loadedExtensions st)) as [loaded|] eqn:E.
  - rewrite (unloadExtension_present _ st loaded E) in Eu.
    apply (f_equal fst) in Eu. cbn [fst] in Eu. injection Eu as <-.
    eexists. eexists. split; [exact Et|]. split; [reflexivity|].
    destruct (field message "path") as [path|];
      (split; [reflexivity|]; split; [reflexivity|]; intros now s;
       shown ("Extension Unloaded", "Successfully unloaded: undefined")).
  - rewrite (unloadExtension_absent _ st E) in Eu.
    apply (f_equal fst) in Eu. cbn [fst] in Eu. injection Eu as <-.
    eexists. eexists. split; [exact Et|]. split; [reflexivity|].
    destruct (field message "path") as [path|];
      (split; [reflexivity|]; split; [reflexivity|]; intros now s;
       shown ("Unload Failed", "Failed to unload: Extension not found in loaded list")).
Qed.

(** X26: the response to [load] either reports success or is the one of
    the [catch], which carries the error text and no [extensionName];
    the background script then shows [Failed to load undefined: ] followed
    by the error text, leaves its list alone and passes the message on. *)
Theorem a_failed_load_is_announced_without_the_name
        (serial : nat) (message : json) (st : HostState) :
  is_case (field message "action") "load" = true ->
  exists (response : json) (st' : HostState),
    turn serial message st = (inl tt, st')
    /\ stdout st' = stdout st ++ frame response
    /\ (field response "success" = Some (JBool true)
        \/ exists error,
             response = to_json (load_failure error (field message "path"))
             /\ forall now s,
                  Background.handleNativeMessage now response s
                  = (inl tt,
                     {| Background.loadedExtensions := Background.loadedExtensions s;
                        Background.events :=
                          Background.events s
                          ++ [Background.console_log
                                "[Rapunzel] Received from native:" (Some response);
                              notification "Load Failed"
                                ("Failed to load undefined: " ++ error)%string;
                              Background.runtime_sendMessage
                                (obj_literal (("type", str "load_result")
                                              :: spread_props (Some response)))] |})).
Proof.
  intros Hload.
  destruct (load_turn serial message st Hload) as (response & st' & E & Ho & Hr).
  exists response, st'. split; [exact E|]. split; [exact Ho|].
  destruct Hr as [Hok|[error ->]]; [left; exact Hok|right].
  exists error. split; [reflexivity|]. intros now s.
  destruct (field message "path") as [path|];
    apply (load_result_failed now _ "undefined" error s);
    first [reflexivity|apply js_toString_str].
Qed.

End BothSides.

(* ================================================================== *)
(** * The further properties on the concrete machine *)
(* ================================================================== *)

Ltac distinct_keys :=
  repeat first [apply NoDup_nil | apply NoDup_cons; [cbn; intuition discriminate|]].

Section Witnesses.

Import Posix.

Lemma main_handles_the_framed_messages_in_order_witness :
  @main platform (List.concat (map frame two_requests))
  = bind loadConfig (fun _ => turns 0 two_requests).
Proof.
  apply (@main_handles_the_framed_messages_in_order platform two_requests).
  repeat constructor; try discriminate; vm_compute; reflexivity.
Defined.

Lemma truncated_input_ends_the_loop_witness :
  readMessage short_frame = (Resolved JNull, [])
  /\ main_loop 10 0 (Listening false) short_frame (boot with_web_ext)
     = (inl tt, boot with_web_ext).
Proof.
  apply (@truncated_input_ends_the_loop platform 10 0 short_frame (boot with_web_ext)).
  right. vm_compute. reflexivity.
Defined.

Lemma body_that_is_not_JSON_is_reported_witness :
  let body := Buffer_from "{" in
  let rest := frame (request "status" undefined) in
  let text := ("Invalid JSON: " ++ msg_syntax_error (Buffer_toString body))%string in
  let n := List.length body in
  let next := readMessage_on (LeftBehind (Buffer_length body)) rest in
  main_loop 40 0 (Listening false)
            (writeUInt32LE (Buffer_length body) ++ body ++ rest) (boot with_web_ext)
  = main_loop 39 1 (LeftBehind (Buffer_length body)) rest
      (set_stdout
         (stdout (boot with_web_ext) ++ frame (to_json (error_response text)))
         (set_stderr
            (stderr (boot with_web_ext)
             ++ [error_line "Error processing message:" text])
            (boot with_web_ext)))
  /\ fst (fst next) = fst (readMessage (skipn n rest))
  /\ snd next = snd (readMessage (skipn n rest))
  /\ ((List.length rest < n)%nat
      \/ JSON.parse (Buffer_toString (firstn n rest)) = None ->
      forall (fuel' serial' : nat) (input' : list byte) (st' : HostState),
        main_loop fuel' serial' (snd (fst next)) input' st' = (inl tt, st')).
Proof.
  apply (@body_that_is_not_JSON_is_reported platform 39 0 (Buffer_from "{")
           (frame (request "status" undefined)) (boot with_web_ext)).
  - vm_compute. split; reflexivity.
  - vm_compute. reflexivity.
Defined.

Lemma unknown_action_is_answered_with_an_error_witness :
  turn 0 (request "dance" undefined) (boot with_web_ext)
  = (inl tt,
     set_stdout
       (stdout (boot with_web_ext)
        ++ frame (to_json (error_response "Unknown action: dance")))
       (boot with_web_ext)).
Proof.
  apply (@unknown_action_is_answered_with_an_error platform 0
           (request "dance" undefined) (str "dance") (boot with_web_ext));
    vm_compute; reflexivity.
Defined.

Lemma load_then_unload_restores_the_map_witness :
  let k := str_key "/ext/a" in
  let st := boot with_web_ext in
  let st1 := snd (loadExtensionViaRDP k st) in
  let st2 := snd (unloadExtension k st1) in
  fst (loadExtensionViaRDP k st) = inl web_ext_result
  /\ Map_get k (loadedExtensions st1) = Some (@web_ext_record platform 0%nat)
  /\ (forall k', sameValueZero k k' = false ->
                 Map_get k' (loadedExtensions st1) = Map_get k' (loadedExtensions st))
  /\ fst (unloadExtension k st1) = inl unload_ok
  /\ world st2 = fst (proc_kill (world st1) 0%nat)
  /\ (Map_get k (loadedExtensions st) = None ->
      Map_size (loadedExtensions st1) = Map_size (loadedExtensions st) + 1
      /\ loadedExtensions st2 = loadedExtensions st).
Proof.
  apply (@load_then_unload_restores_the_map platform (str_key "/ext/a")
           (boot with_web_ext) 0%nat).
  exists "/usr/bin/web-ext"%string. vm_compute.
  repeat split; try reflexivity. discriminate.
Defined.

Lemma loading_again_replaces_the_record_witness :
  let k := str_key "/ext/a" in
  let st0 := snd (findWebExt a_loaded) in
  let st1 := snd (loadExtensionViaRDP k a_loaded) in
  map fst (loadedExtensions st1) = map fst (loadedExtensions a_loaded)
  /\ Map_size (loadedExtensions st1) = Map_size (loadedExtensions a_loaded)
  /\ Map_get k (loadedExtensions st1) = Some (@web_ext_record platform 1%nat)
  /\ (exists file,
        world st1
        = proc_unref (fst (child_spawn (world st0) file (web_ext_args k))) 1%nat)
  /\ world (snd (unloadExtension k st1)) = fst (proc_kill (world st1) 1%nat).
Proof.
  apply (@loading_again_replaces_the_record platform (str_key "/ext/a") a_loaded
           (@web_ext_record platform 0%nat) 1%nat).
  - vm_compute. reflexivity.
  - exists "/usr/bin/web-ext"%string. vm_compute.
    repeat split; try reflexivity. discriminate.
Defined.

Lemma status_and_scan_only_read_witness :
  let st := pointed_at_ext without_web_ext in
  let st' := snd (turn 0 (request "scan" undefined) st) in
  config st' = config st
  /\ loadedExtensions st' = loadedExtensions st
  /\ world st' = world st
  /\ file_changes st' = file_changes st
  /\ fst (scanExtensionsFolder (snd (scanExtensionsFolder st)))
     = fst (scanExtensionsFolder st).
Proof.
  apply (@status_and_scan_only_read platform 0 (request "scan" undefined)
           (pointed_at_ext without_web_ext)).
  right. vm_compute. reflexivity.
Defined.

Lemma config_file_wins_key_by_key_witness :
  exists st',
    loadConfig (boot (with_config_file kept_config_text)) = (inl tt, st')
    /\ (forall k,
           obj_get k (config st')
           = match field (JObj kept_config) k with
             | Some v => Some v
             | None => obj_get k (config (boot (with_config_file kept_config_text)))
             end)
    /\ NoDup (keys (config st'))
    /\ loadedExtensions st' = loadedExtensions (boot (with_config_file kept_config_text))
    /\ stdout st' = stdout (boot (with_config_file kept_config_text))
    /\ stderr st' = stderr (boot (with_config_file kept_config_text)).
Proof.
  apply (@config_file_wins_key_by_key platform
           (boot (with_config_file kept_config_text)) kept_config_text kept_config).
  - vm_compute. distinct_keys.
  - vm_compute. repeat split; reflexivity.
  - vm_compute. reflexivity.
Defined.

Lemma saved_configuration_is_loaded_back_witness :
  exists st',
    loadConfig (boot (with_config_file
                        (config_text (config (pointed_at_ext without_web_ext)))))
    = (inl tt, st')
    /\ forall k,
         obj_get k (config st')
         = match obj_get k (config (pointed_at_ext without_web_ext)) with
           | Some v => Some v
           | None =>
             obj_get k (config (boot (with_config_file
                                        (config_text
                                           (config (pointed_at_ext without_web_ext))))))
           end.
Proof.
  apply (@saved_configuration_is_loaded_back platform
           (pointed_at_ext without_web_ext)
           (boot (with_config_file
                    (config_text (config (pointed_at_ext without_web_ext)))))).
  - vm_compute. distinct_keys.
  - vm_compute. distinct_keys.
  - vm_compute. repeat split; reflexivity.
Defined.

Lemma set_folder_stores_the_path_and_scans_witness :
  let message := request "set_folder" (str "/ext") in
  let st := boot without_web_ext in
  let path := field message "path" in
  let st1 := snd (saveConfig (set_config (obj_set "extensionFolder" path (config st)) st)) in
  exists st',
    turn 0 message st = (inl tt, st')
    /\ config st' = obj_set "extensionFolder" path (config st)
    /\ obj_get "extensionFolder" (config st') = path
    /\ loadedExtensions st' = loadedExtensions st
    /\ stdout st'
       = stdout st
         ++ frame (to_json (obj_literal
                     [("type"%string, str "folder_set");
                      ("success"%string, Some (JBool true));
                      ("path"%string, path)]))
         ++ frame (to_json (obj_literal
                     [("type"%string, str "extensions_list");
                      ("extensions"%string, Some (JArr (scan_result path (world st1))));
                      ("folder"%string, path)])).
Proof.
  apply (@set_folder_stores_the_path_and_scans platform 0
           (request "set_folder" (str "/ext")) (boot without_web_ext)).
  vm_compute. reflexivity.
Defined.

Lemma findWebExt_returns_the_first_line_witness :
  findWebExt (boot with_web_ext)
  = (inl (str (string_of_list_ascii web_ext_line)),
     set_world with_web_ext (boot with_web_ext)).
Proof.
  assert (Hclean : clean_line web_ext_line).
  { split; [repeat constructor|]. split.
    - eexists; eexists. split; [reflexivity|]. split; vm_compute; reflexivity.
    - exists (removelast web_ext_line), "t"%char.
      split; [reflexivity|]. split; vm_compute; reflexivity. }
  apply (proj1 (@findWebExt_returns_the_first_line platform (boot with_web_ext)
                  web_ext_line [] Hclean)).
  vm_compute. reflexivity.
Defined.

End Witnesses.

(* ================================================================== *)
(** * The installer on the concrete machine *)
(* ================================================================== *)

Section InstallerWitnesses.

Import Posix InstallerOnPosix Installer.

Lemma install_spares_an_existing_configuration_witness :
  let s := start (P := platform) unpacked in
  let s' := snd (install s) in
  removed s' = removed s
  /\ JSON.parse manifest_text = Some (createManifest executable_path)
  /\ field (createManifest executable_path) "path" = str executable_path
  /\ exists cfg,
      written s' = written s ++ install_writes ++ cfg
      /\ ((cfg = [] /\ fs_existsSync (i_world s') (str config_path) = true)
          \/ (cfg = [(config_path, installer_config_text)]
              /\ exists w,
                  fs_existsSync w (str config_path) = false
                  /\ i_world s' = fst (fs_writeFileSync w config_path installer_config_text))).
Proof.
  apply (@install_spares_an_existing_configuration platform installer_platform
           (start (P := platform) unpacked)
           (snd (install (start (P := platform) unpacked)))).
  vm_compute. reflexivity.
Defined.

Lemma installed_configuration_gives_the_defaults_witness :
  exists st',
    loadConfig (boot (with_config_file installer_config_text)) = (inl tt, st')
    /\ config st'
       = [("extensionFolder"%string, str EmptyString);
          ("firefoxPath"%string, str EmptyString);
          ("watchEnabled"%string, Some (JBool false));
          ("autoStart"%string, Some (JBool false))]
    /\ stderr st' = stderr (boot (with_config_file installer_config_text)).
Proof.
  apply (@installed_configuration_gives_the_defaults platform
           (boot (with_config_file installer_config_text))).
  - reflexivity.
  - vm_compute. repeat split; reflexivity.
Defined.

End InstallerWitnesses.

(* ================================================================== *)
(** * The background script on the concrete machine *)
(* ================================================================== *)

Section BackgroundWitnesses.

Import Posix.

Lemma load_result_then_unload_result_restore_the_list_witness :
  exists s1 s2 s3,
    Background.handleNativeMessage (B := sample_browser) 1 load_a_result
      {| Background.loadedExtensions := Background.Items b_listed;
         Background.events := [] |} = (inl tt, s1)
    /\ Background.handleNativeMessage (B := sample_browser) 2 load_a_result s1 = (inl tt, s2)
    /\ Background.handleNativeMessage (B := sample_browser) 3 unload_a_result s2 = (inl tt, s3)
    /\ Background.loadedExtensions s1
       = Background.Items (b_listed ++ [pushed 1 load_a_result])
    /\ Background.loadedExtensions s2 = Background.loadedExtensions s1
    /\ Background.loadedExtensions s3 = Background.Items b_listed.
Proof.
  apply (@load_result_then_unload_result_restore_the_list sample_browser 1 2 3
           load_a_result unload_a_result (str "/ext/a") b_listed
           {| Background.loadedExtensions := Background.Items b_listed;
              Background.events := [] |}).
  - reflexivity.
  - repeat constructor. eexists. split; reflexivity.
  - reflexivity.
  - repeat split; try reflexivity. discriminate.
  - repeat split; try reflexivity. discriminate.
Defined.

Lemma a_scan_replaces_the_list_of_loaded_extensions_witness :
  exists (response : json) (st' : HostState),
    turn 0 (request "scan" undefined) (pointed_at_ext with_web_ext) = (inl tt, st')
    /\ stdout st' = stdout (pointed_at_ext with_web_ext) ++ frame response
    /\ forall now s,
         fst (Background.handleNativeMessage (B := sample_browser) now response s) = inl tt
         /\ Background.loadedExtensions
              (snd (Background.handleNativeMessage (B := sample_browser) now response s))
            = Background.Items
                (map Background.Parsed
                     (scan_result (obj_get "extensionFolder"
                                           (config (pointed_at_ext with_web_ext)))
                                  (world (pointed_at_ext with_web_ext)))).
Proof.
  apply (@a_scan_replaces_the_list_of_loaded_extensions platform sample_browser 0
           (request "scan" undefined) (pointed_at_ext with_web_ext)).
  reflexivity.
Defined.

Lemma an_unloaded_extension_is_announced_without_its_name_witness :
  let recorded :=
    Map_has {| k_val := field (request "unload" (str "/ext/a")) "path"; k_id := 1 |}
            (loadedExtensions a_loaded) in
  exists (response : json) (st' : HostState),
    turn 1 (request "unload" (str "/ext/a")) a_loaded = (inl tt, st')
    /\ stdout st' = stdout a_loaded ++ frame response
    /\ field response "success" = Some (JBool recorded)
    /\ field response "extensionName" = undefined
    /\ forall now s,
         exists after,
           Background.events
             (snd (Background.handleNativeMessage (B := sample_browser) now response s))
           = Background.events s
             ++ Background.console_log "[Rapunzel] Received from native:" (Some response)
             :: (if recorded
                 then notification (B := sample_browser) "Extension Unloaded" "Successfully unloaded: undefined"
                 else notification (B := sample_browser) "Unload Failed"
                        "Failed to unload: Extension not found in loaded list")
             :: after.
Proof.
  apply (@an_unloaded_extension_is_announced_without_its_name platform sample_browser 1
           (request "unload" (str "/ext/a")) a_loaded).
  reflexivity.
Defined.

Lemma a_failed_load_is_announced_without_the_name_witness :
  exists (response : json) (st' : HostState),
    turn 0 (request "load" (str "/ext/b")) (boot without_web_ext) = (inl tt, st')
    /\ stdout st' = stdout (boot without_web_ext) ++ frame response
    /\ (field response "success" = Some (JBool true)
        \/ exists error,
             response
             = to_json (load_failure error (field (request "load" (str "/ext/b")) "path"))
             /\ forall now s,
                  Background.handleNativeMessage (B := sample_browser) now response s
                  = (inl tt,
                     {| Background.loadedExtensions := Background.loadedExtensions s;
                        Background.events :=
                          Background.events s
                          ++ [Background.console_log
                                "[Rapunzel] Received from native:" (Some response);
                              notification (B := sample_browser) "Load Failed"
                                ("Failed to load undefined: " ++ error)%string;
                              Background.runtime_sendMessage
                                (obj_literal (("type"%string, str "load_result")
                                              :: spread_props (Some response)))] |})).
Proof.
  apply (@a_failed_load_is_announced_without_the_name platform sample_browser 0
           (request "load" (str "/ext/b")) (boot without_web_ext)).
  reflexivity.
Defined.

End BackgroundWitnesses.
